(** * HMAC URL signing (package [urlsigner] of CodeLieutenant/utils)

    A shallow embedding of [urlsigner.New], [HMACSigner.Sign] and
    [HMACSigner.Verify] together with the pieces of the Go standard library
    they call: [net/url] query handling, [encoding/base64], [time] in the
    RFC3339Nano layout and [crypto/hmac].

    Go strings are byte sequences and are modelled as [string]; [[]byte] is
    [list byte]; [url.Values] is a finite map from keys to value lists; a
    Go panic is the [Panic] outcome. *)

(** The model also covers the rest of package [utils] that can be stated
    without floating point: [ParseKey] with [encoding/hex] and padded
    [encoding/base64], the getters of environment variables with
    [strconv] and [strings.TrimSpace], [RealIP],
    [GenerateRandomPassword] over a source of random numbers, and the
    test helpers [ProjectRootDir] and [FindFile] over a file system. *)

From Stdlib Require Import ZArith Ascii Lia.
From Stdlib.Strings Require Import Byte.
From stdpp Require Import base gmap strings list sorting.

Local Open Scope Z_scope.

(** ** Outcomes: a call returns or panics *)

Inductive outcome (A : Type) : Type :=
| Return (a : A)
| Panic (msg : string).
Arguments Return {A} a.
Arguments Panic {A} msg.

Definition obind {A B} (x : outcome A) (f : A → outcome B) : outcome B :=
  match x with
  | Return a => f a
  | Panic m => Panic m
  end.

Definition panics {A} (x : outcome A) : Prop :=
  match x with Panic _ => True | Return _ => False end.

Definition returns {A} (x : outcome A) : Prop :=
  match x with Return _ => True | Panic _ => False end.

(** ** Bytes as numbers *)

Global Instance byte_eq_dec : EqDecision byte := Byte.byte_eq_dec.

Definition Z_of_byte (b : byte) : Z := Z.of_N (Byte.to_N b).

Definition byte_of_Z (z : Z) : byte :=
  match Byte.of_N (Z.to_N (z mod 256)) with
  | Some b => b
  | None => x00
  end.

(** ** Packages [unicode/utf8] and [unicode]: what [strings.TrimSpace] uses *)

Module utf8.

Definition RuneError : Z := 65533.
Definition RuneSelf : Z := 128.

Definition code (c : ascii) : Z := Z.of_N (N_of_ascii c).

(** The table [first]: what a byte says as the first byte of an
    encoding. [AS] is ASCII, [XX] is no first byte, [Lead size lo hi] a
    first byte of a [size]-byte encoding whose second byte lies in
    [lo..hi] ([acceptRanges]). *)
Inductive lead : Set :=
| AS
| XX
| Lead (size : nat) (lo hi : Z).

Definition first (b : Z) : lead :=
  if b <? 128 then AS
  else if b <? 194 then XX
  else if b <? 224 then Lead 2 128 191
  else if b =? 224 then Lead 3 160 191
  else if b <? 237 then Lead 3 128 191
  else if b =? 237 then Lead 3 128 159
  else if b <? 240 then Lead 3 128 191
  else if b =? 240 then Lead 4 144 191
  else if b <? 244 then Lead 4 128 191
  else if b =? 244 then Lead 4 128 143
  else XX.

(** A continuation byte: [locb <= b <= hicb]. *)
Definition continuation (b : Z) : bool := (128 <=? b) && (b <=? 191).

(** [DecodeRuneInString]: the first rune of [s] and its width; an
    invalid encoding is [RuneError] of width 1, the empty string
    [RuneError] of width 0. *)
Definition DecodeRuneInString (s : string) : Z * nat :=
  match s with
  | EmptyString => (RuneError, 0%nat)
  | String c0 t =>
      let s0 := code c0 in
      match first s0 with
      | AS => (s0, 1%nat)
      | XX => (RuneError, 1%nat)
      | Lead sz lo hi =>
          if (String.length s <? sz)%nat then (RuneError, 1%nat)
          else match t with
               | EmptyString => (RuneError, 1%nat)
               | String c1 t1 =>
                   let s1 := code c1 in
                   if (s1 <? lo) || (hi <? s1) then (RuneError, 1%nat)
                   else if (sz <=? 2)%nat
                   then (Z.lor (Z.shiftl (Z.land s0 31) 6) (Z.land s1 63), 2%nat)
                   else match t1 with
                        | EmptyString => (RuneError, 1%nat)
                        | String c2 t2 =>
                            let s2 := code c2 in
                            if negb (continuation s2) then (RuneError, 1%nat)
                            else if (sz <=? 3)%nat
                            then (Z.lor (Z.lor (Z.shiftl (Z.land s0 15) 12)
                                           (Z.shiftl (Z.land s1 63) 6))
                                    (Z.land s2 63), 3%nat)
                            else match t2 with
                                 | EmptyString => (RuneError, 1%nat)
                                 | String c3 _ =>
                                     let s3 := code c3 in
                                     if negb (continuation s3) then (RuneError, 1%nat)
                                     else (Z.lor (Z.lor (Z.lor (Z.shiftl (Z.land s0 7) 18)
                                                           (Z.shiftl (Z.land s1 63) 12))
                                                    (Z.shiftl (Z.land s2 63) 6))
                                             (Z.land s3 63), 4%nat)
                                 end
                        end
               end
      end
  end.

(** [RuneStart]: not a continuation byte. *)
Definition RuneStart (b : Z) : bool := negb (Z.land b 192 =? 128).

(** [s[i]], and zero past the end. *)
Definition byteAt (s : string) (i : Z) : Z :=
  if i <? 0 then 0
  else match String.get (Z.to_nat i) s with
       | Some c => code c
       | None => 0
       end.

(** [s[n:]] *)
Fixpoint from (n : nat) (s : string) : string :=
  match n, s with
  | S n, String _ t => from n t
  | _, _ => s
  end.

(** [s[:n]] *)
Fixpoint upto (n : nat) (s : string) : string :=
  match n, s with
  | S n, String c t => String c (upto n t)
  | _, _ => EmptyString
  end.

(** [for start--; start >= lim; start-- { if RuneStart(s[start]) { break } }]
    entered with [start] already decremented; at most [UTFMax] bytes are
    looked at. *)
Fixpoint backUp (steps : nat) (s : string) (start lim : Z) : Z :=
  match steps with
  | O => start
  | S steps =>
      if start <? lim then start
      else if RuneStart (byteAt s start) then start
      else backUp steps s (start - 1) lim
  end.

(** [DecodeLastRuneInString]: the last rune of [s] and its width. *)
Definition DecodeLastRuneInString (s : string) : Z * nat :=
  let end_ := Z.of_nat (String.length s) in
  if end_ =? 0 then (RuneError, 0%nat)
  else
    let r := byteAt s (end_ - 1) in
    if r <? RuneSelf then (r, 1%nat)
    else
      let lim := Z.max (end_ - 4) 0 in
      let start := backUp 4 s (end_ - 2) lim in
      let start := Z.max start 0 in
      let '(r, size) := DecodeRuneInString (from (Z.to_nat start) s) in
      if negb (start + Z.of_nat size =? end_) then (RuneError, 1%nat)
      else (r, size).

End utf8.

Module unicode.

(** [IsSpace]: the Latin-1 spaces, and the rest of [White_Space]. *)
Definition IsSpace (r : Z) : bool :=
  if (0 <=? r) && (r <=? 255)
  then ((9 <=? r) && (r <=? 13)) || (r =? 32) || (r =? 133) || (r =? 160)
  else (r =? 5760) || ((8192 <=? r) && (r <=? 8202)) || (r =? 8232) || (r =? 8233)
       || (r =? 8239) || (r =? 8287) || (r =? 12288).

End unicode.

(** ** Package [strings]: the helpers used by [net/url] *)

Module strings.

Fixpoint all (p : ascii → bool) (s : string) : bool :=
  match s with
  | EmptyString => true
  | String a t => p a && all p t
  end.

Fixpoint ContainsByte (s : string) (c : ascii) : bool :=
  match s with
  | EmptyString => false
  | String a t => Ascii.eqb a c || ContainsByte t c
  end.

Fixpoint CountByte (s : string) (c : ascii) : nat :=
  match s with
  | EmptyString => O
  | String a t => (if Ascii.eqb a c then 1 else 0)%nat + CountByte t c
  end.

Fixpoint HasSuffixByte (s : string) (c : ascii) : bool :=
  match s with
  | EmptyString => false
  | String a EmptyString => Ascii.eqb a c
  | String _ t => HasSuffixByte t c
  end.

(** [s[:len(s)-1]] *)
Fixpoint dropLast (s : string) : string :=
  match s with
  | EmptyString => EmptyString
  | String _ EmptyString => EmptyString
  | String a t => String a (dropLast t)
  end.

Fixpoint cutAt (c : ascii) (s : string) : option (string * string) :=
  match s with
  | EmptyString => None
  | String a t =>
      if Ascii.eqb a c then Some (EmptyString, t)
      else match cutAt c t with
           | Some (b, r) => Some (String a b, r)
           | None => None
           end
  end.

(** [strings.Cut(s, sep)] for a one-byte separator: the text before and
    after the first [sep], or [(s, "", false)] when there is none. *)
Definition Cut (s : string) (sep : ascii) : string * string * bool :=
  match cutAt sep s with
  | Some (b, r) => (b, r, true)
  | None => (s, EmptyString, false)
  end.

(** The segments between the occurrences of [c]: what a loop
    [for s != "" { seg, s, _ = Cut(s, c) ... }] visits, plus a trailing
    empty segment when [s] is empty or ends in [c]. *)
Fixpoint fields (c : ascii) (s : string) : list string :=
  match s with
  | EmptyString => [EmptyString]
  | String a t =>
      if Ascii.eqb a c then EmptyString :: fields c t
      else match fields c t with
           | seg :: rest => String a seg :: rest
           | [] => [String a EmptyString]
           end
  end.

Fixpoint Join (elems : list string) (sep : string) : string :=
  match elems with
  | [] => EmptyString
  | [x] => x
  | x :: rest => x +:+ sep +:+ Join rest sep
  end.

(** *** [CutPrefix], [Split] and [TrimSpace] *)

Fixpoint HasPrefix (s prefix : string) {struct prefix} : bool :=
  match prefix, s with
  | EmptyString, _ => true
  | String p prefix, String c s => Ascii.eqb c p && HasPrefix s prefix
  | String _ _, EmptyString => false
  end.

(** [CutPrefix(s, prefix)]: [s] without the leading [prefix], or [s]
    itself and [false]. *)
Definition CutPrefix (s prefix : string) : string * bool :=
  if negb (HasPrefix s prefix) then (s, false)
  else (utf8.from (String.length prefix) s, true).

(** [SplitSeq(s, sep)] for a one-byte separator: the substrings between
    the separators, in order; one empty substring for the empty
    string. *)
Definition SplitSeq (s : string) (sep : ascii) : list string := fields sep s.

(** [asciiSpace]: tab, line feed, vertical tab, form feed, carriage
    return and space. *)
Definition asciiSpace (c : ascii) : bool :=
  let n := utf8.code c in ((9 <=? n) && (n <=? 13)) || (n =? 32).

(** [indexFunc(s, f, false)] as [TrimLeftFunc] uses it: [s] from its
    first rune that does not satisfy [f], the empty string when there is
    none. *)
Fixpoint trimLeftLoop (fuel : nat) (f : Z → bool) (s : string) : string :=
  match fuel, s with
  | _, EmptyString => EmptyString
  | O, _ => EmptyString
  | S fuel, _ =>
      let '(r, size) := utf8.DecodeRuneInString s in
      if negb (f r) then s else trimLeftLoop fuel f (utf8.from size s)
  end.

Definition TrimLeftFunc (s : string) (f : Z → bool) : string :=
  trimLeftLoop (String.length s) f s.

(** [lastIndexFunc(s, f, false)]: the index of the last rune that does
    not satisfy [f], or [-1]. *)
Fixpoint lastIndexLoop (fuel : nat) (f : Z → bool) (s : string) (i : Z) : Z :=
  match fuel with
  | O => -1
  | S fuel =>
      if negb (0 <? i) then -1
      else
        let '(r, size) := utf8.DecodeLastRuneInString (utf8.upto (Z.to_nat i) s) in
        let i := i - Z.of_nat size in
        if negb (f r) then i else lastIndexLoop fuel f s i
  end.

Definition TrimRightFunc (s : string) (f : Z → bool) : string :=
  let i := lastIndexLoop (String.length s) f s (Z.of_nat (String.length s)) in
  let i :=
    if (0 <=? i) && (utf8.RuneSelf <=? utf8.byteAt s i)
    then i + Z.of_nat (utf8.DecodeRuneInString (utf8.from (Z.to_nat i) s)).2
    else i + 1 in
  utf8.upto (Z.to_nat i) s.

Definition TrimFunc (s : string) (f : Z → bool) : string :=
  TrimRightFunc (TrimLeftFunc s f) f.

(** The second loop of [TrimSpace], over [stop]; [s] is [s[start:]]. *)
Fixpoint trimSpaceRight (s : string) (stop : nat) : string :=
  match stop with
  | O => EmptyString
  | S k =>
      let c := utf8.byteAt s (Z.of_nat k) in
      if utf8.RuneSelf <=? c then TrimRightFunc (utf8.upto stop s) unicode.IsSpace
      else if ((9 <=? c) && (c <=? 13)) || (c =? 32) then trimSpaceRight s k
      else utf8.upto stop s
  end.

(** [TrimSpace]: the ASCII spaces are cut off on both sides byte by
    byte; at the first byte that is not ASCII the rest is trimmed rune by
    rune with [unicode.IsSpace]. *)
Fixpoint TrimSpace (s : string) : string :=
  match s with
  | EmptyString => EmptyString
  | String c t =>
      if utf8.RuneSelf <=? utf8.code c then TrimFunc s unicode.IsSpace
      else if asciiSpace c then TrimSpace t
      else trimSpaceRight s (String.length s)
  end.

End strings.

(** ** Package [net/url]: escaping and [url.Values] *)

Module url.

Definition isAlnum (c : ascii) : bool :=
  let n := nat_of_ascii c in
  ((97 <=? n) && (n <=? 122) || (65 <=? n) && (n <=? 90) || (48 <=? n) && (n <=? 57))%nat.

(** [shouldEscape(c, encodeQueryComponent)]: everything but the
    unreserved characters is escaped in a query component. *)
Definition shouldEscape (c : ascii) : bool :=
  if isAlnum c then false
  else negb (Ascii.eqb c "-" || Ascii.eqb c "_" || Ascii.eqb c "." || Ascii.eqb c "~").

Definition upperhex (n : nat) : ascii :=
  match n with
  | 0 => "0" | 1 => "1" | 2 => "2" | 3 => "3" | 4 => "4" | 5 => "5"
  | 6 => "6" | 7 => "7" | 8 => "8" | 9 => "9" | 10 => "A" | 11 => "B"
  | 12 => "C" | 13 => "D" | 14 => "E" | _ => "F"
  end%nat%char.

Definition ishex (c : ascii) : bool :=
  let n := nat_of_ascii c in
  ((48 <=? n) && (n <=? 57) || (97 <=? n) && (n <=? 102) || (65 <=? n) && (n <=? 70))%nat.

Definition unhex (c : ascii) : nat :=
  let n := nat_of_ascii c in
  (if (48 <=? n) && (n <=? 57) then n - 48
   else if (97 <=? n) && (n <=? 102) then n - 97 + 10
   else if (65 <=? n) && (n <=? 70) then n - 65 + 10
   else 0)%nat.

(** [QueryEscape(s)]: [escape(s, encodeQueryComponent)]. *)
Fixpoint QueryEscape (s : string) : string :=
  match s with
  | EmptyString => EmptyString
  | String c t =>
      if shouldEscape c then
        if Ascii.eqb c " " then String "+" (QueryEscape t)
        else let n := nat_of_ascii c in
             String "%" (String (upperhex (n / 16)) (String (upperhex (n mod 16))
               (QueryEscape t)))
      else String c (QueryEscape t)
  end%nat.

(** [QueryUnescape(s)]: [unescape(s, encodeQueryComponent)]; [None] is the
    [EscapeError] of a [%] not followed by two hexadecimal digits. *)
Fixpoint QueryUnescape (s : string) : option string :=
  match s with
  | EmptyString => Some EmptyString
  | String c t =>
      if Ascii.eqb c "%" then
        match t with
        | String h (String l t1) =>
            if ishex h && ishex l then
              String (ascii_of_nat (unhex h * 16 + unhex l)) <$> QueryUnescape t1
            else None
        | _ => None
        end
      else if Ascii.eqb c "+" then String " " <$> QueryUnescape t
      else String c <$> QueryUnescape t
  end%nat.

(** [type Values map[string][]string] *)
Abbreviation Values := (gmap string (list string)).

Definition vals (v : Values) (key : string) : list string := default [] (v !! key).

Definition Get (v : Values) (key : string) : string :=
  match vals v key with
  | [] => EmptyString
  | x :: _ => x
  end.

Definition Set_ (v : Values) (key value : string) : Values := <[key := [value]]> v.

Definition Del (v : Values) (key : string) : Values := delete key v.

Definition Has (v : Values) (key : string) : bool := bool_decide (is_Some (v !! key)).

(** One turn of the loop of [parseQuery]: a segment with a semicolon, an
    empty segment, or one whose key or value does not unescape is skipped;
    otherwise [m[key] = append(m[key], value)]. *)
Definition parsePair (m : Values) (seg : string) : Values :=
  if strings.ContainsByte seg ";" then m
  else if bool_decide (seg = EmptyString) then m
  else let '(key, value, _) := strings.Cut seg "=" in
       match QueryUnescape key with
       | None => m
       | Some key1 =>
           match QueryUnescape value with
           | None => m
           | Some value1 => <[key1 := vals m key1 ++ [value1]]> m
           end
       end.

(** [v, _ := ParseQuery(query)]: the error is dropped as [URL.Query] does. *)
Definition ParseQuery (query : string) : Values :=
  foldl parsePair ∅ (strings.fields "&" query).

Definition sortedKeys (v : Values) : list string :=
  merge_sort String.le (map_to_list v).*1.

Definition encodeKey (v : Values) (k : string) : list string :=
  (λ x, QueryEscape k +:+ "=" +:+ QueryEscape x) <$> vals v k.

(** [Values.Encode]: "URL encoded" form sorted by key. *)
Definition Encode (v : Values) : string :=
  strings.Join (sortedKeys v ≫= encodeKey v) "&".

(** *** [url.URL]

    [Sign] and [Verify] read and write [RawQuery] only. What [url.Parse]
    makes of the text before the first [?] (scheme, opaque part, userinfo,
    host, path) and of the fragment, and how [URL.String] prints them
    again, belongs to [net/url] and is an interface here: [Hier] stands
    for the fields [Scheme], [Opaque], [User], [Host], [Path], [RawPath]
    and [OmitHost]; the fragment is kept as [EscapedFragment()] prints
    it. The laws are the ones [net/url] obeys on these parts: the printed
    form holds no [?], no [#] and no control byte, and printing then
    parsing again prints the same text. *)

Definition isCTL (c : ascii) : bool :=
  let n := nat_of_ascii c in ((n <? 32) || (n =? 127))%nat.

Definition hierByte (c : ascii) : bool :=
  negb (isCTL c) && negb (Ascii.eqb c "?") && negb (Ascii.eqb c "#").

Class Syntax := {
  Hier : Type;
  parseHier : string → option Hier;
  hierString : Hier → string;
  setFragment : string → option string;
  hierString_bytes : ∀ s h,
    parseHier s = Some h → strings.all hierByte (hierString h) = true;
  parseHier_hierString : ∀ s h,
    parseHier s = Some h →
    ∃ h', parseHier (hierString h) = Some h' ∧ hierString h' = hierString h;
  setFragment_nonempty : ∀ f e,
    f ≠ EmptyString → setFragment f = Some e → e ≠ EmptyString;
  setFragment_again : ∀ f e,
    setFragment f = Some e → setFragment e = Some e
}.

Record URL `{Syntax} := mkURL {
  hier : Hier;
  ForceQuery : bool;
  RawQuery : string;
  frag : string
}.

Section URL.
Context `{Syntax}.

Definition withRawQuery (u : URL) (q : string) : URL :=
  {| hier := hier u; ForceQuery := ForceQuery u; RawQuery := q; frag := frag u |}.

(** [URL.String]: the query is written when [ForceQuery] is set or
    [RawQuery] is not empty, the fragment when there is one. *)
Definition String_ (u : URL) : string :=
  hierString (hier u)
  +:+ (if ForceQuery u || negb (bool_decide (RawQuery u = EmptyString))
       then String "?" (RawQuery u) else EmptyString)
  +:+ (if bool_decide (frag u = EmptyString) then EmptyString
       else String "#" (frag u)).

(** The split of [parse]: a lone trailing [?] sets [ForceQuery],
    otherwise the text is cut at its first [?]. *)
Definition splitQuery (rest : string) : string * bool * string :=
  if strings.HasSuffixByte rest "?" && bool_decide (strings.CountByte rest "?" = 1%nat)
  then (strings.dropLast rest, true, EmptyString)
  else let '(rest1, q, _) := strings.Cut rest "?" in (rest1, false, q).

(** [url.Parse]: cut off the fragment, refuse control bytes, split off
    the query, parse the rest, then set the fragment. *)
Definition Parse (rawURL : string) : option URL :=
  let '(u, fr, _) := strings.Cut rawURL "#" in
  if negb (strings.all (λ c, negb (isCTL c)) u) then None
  else
    let '(rest, force, q) := splitQuery u in
    match parseHier rest with
    | None => None
    | Some h =>
        if bool_decide (fr = EmptyString)
        then Some (mkURL _ h force q EmptyString)
        else match setFragment fr with
             | None => None
             | Some e => Some (mkURL _ h force q e)
             end
    end.

(** [URL.Query]: [ParseQuery(u.RawQuery)] with its error dropped. *)
Definition Query (u : URL) : Values := ParseQuery (RawQuery u).

End URL.

End url.

(** ** Package [encoding/base64]: [RawURLEncoding] *)

Module base64.

(** The URL-safe alphabet: [A-Z], [a-z], [0-9], [-], [_]. *)
Definition encodeURL (i : Z) : ascii :=
  if i <? 26 then ascii_of_N (Z.to_N (65 + i))
  else if i <? 52 then ascii_of_N (Z.to_N (97 + (i - 26)))
  else if i <? 62 then ascii_of_N (Z.to_N (48 + (i - 52)))
  else if i =? 62 then "-"%char
  else "_"%char.

Definition decodeMap (c : ascii) : option Z :=
  let n := Z.of_N (N_of_ascii c) in
  if (65 <=? n) && (n <=? 90) then Some (n - 65)
  else if (97 <=? n) && (n <=? 122) then Some (n - 97 + 26)
  else if (48 <=? n) && (n <=? 57) then Some (n - 48 + 52)
  else if n =? 45 then Some 62
  else if n =? 95 then Some 63
  else None.

(** [Encoding.EncodeToString] without padding. *)
Fixpoint EncodeToString (src : list byte) : string :=
  match src with
  | [] => EmptyString
  | [a] =>
      let v := Z_of_byte a * 65536 in
      String (encodeURL (v / 262144 mod 64)) (String (encodeURL (v / 4096 mod 64)) EmptyString)
  | [a; b] =>
      let v := Z_of_byte a * 65536 + Z_of_byte b * 256 in
      String (encodeURL (v / 262144 mod 64)) (String (encodeURL (v / 4096 mod 64))
        (String (encodeURL (v / 64 mod 64)) EmptyString))
  | a :: b :: c :: rest =>
      let v := Z_of_byte a * 65536 + Z_of_byte b * 256 + Z_of_byte c in
      String (encodeURL (v / 262144 mod 64)) (String (encodeURL (v / 4096 mod 64))
        (String (encodeURL (v / 64 mod 64)) (String (encodeURL (v mod 64))
          (EncodeToString rest))))
  end.

(** The decoder skips carriage returns and line feeds wherever they are. *)
Fixpoint stripNewlines (s : string) : string :=
  match s with
  | EmptyString => EmptyString
  | String c t =>
      if Ascii.eqb c "010" || Ascii.eqb c "013" then stripNewlines t
      else String c (stripNewlines t)
  end.

Fixpoint sextets (s : string) : option (list Z) :=
  match s with
  | EmptyString => Some []
  | String c t =>
      match decodeMap c with
      | None => None
      | Some v => cons v <$> sextets t
      end
  end.

(** Four sextets give three bytes; a tail of two or three sextets gives
    one or two bytes (their spare low bits are not checked: the encoding
    is not strict); a lone trailing sextet is corrupt input. *)
Fixpoint quanta (l : list Z) : option (list byte) :=
  match l with
  | [] => Some []
  | [_] => None
  | [a; b] =>
      let v := a * 262144 + b * 4096 in
      Some [byte_of_Z (v / 65536)]
  | [a; b; c] =>
      let v := a * 262144 + b * 4096 + c * 64 in
      Some [byte_of_Z (v / 65536); byte_of_Z (v / 256)]
  | a :: b :: c :: d :: rest =>
      let v := a * 262144 + b * 4096 + c * 64 + d in
      (λ r, byte_of_Z (v / 65536) :: byte_of_Z (v / 256) :: byte_of_Z v :: r)
        <$> quanta rest
  end.

(** [Encoding.DecodeString]; [None] is [CorruptInputError]. *)
Definition DecodeString (s : string) : option (list byte) :=
  sextets (stripNewlines s) ≫= quanta.

(** *** [StdEncoding]: the standard alphabet, padded with [=] *)

(** A position in the input where decoding stopped:
    [CorruptInputError]. *)
Definition CorruptInputError := Z.

Definition encodeStd (i : Z) : ascii :=
  if i <? 26 then ascii_of_N (Z.to_N (65 + i))
  else if i <? 52 then ascii_of_N (Z.to_N (97 + (i - 26)))
  else if i <? 62 then ascii_of_N (Z.to_N (48 + (i - 52)))
  else if i =? 62 then "+"%char
  else "/"%char.

Definition decodeMapStd (c : ascii) : option Z :=
  let n := Z.of_N (N_of_ascii c) in
  if (65 <=? n) && (n <=? 90) then Some (n - 65)
  else if (97 <=? n) && (n <=? 122) then Some (n - 97 + 26)
  else if (48 <=? n) && (n <=? 57) then Some (n - 48 + 52)
  else if n =? 43 then Some 62
  else if n =? 47 then Some 63
  else None.

(** [StdEncoding.EncodeToString]: a tail of one or two bytes is padded
    to four characters. *)
Fixpoint StdEncodeToString (src : list byte) : string :=
  match src with
  | [] => EmptyString
  | [a] =>
      let v := Z_of_byte a * 65536 in
      String (encodeStd (v / 262144 mod 64)) (String (encodeStd (v / 4096 mod 64)) "==")
  | [a; b] =>
      let v := Z_of_byte a * 65536 + Z_of_byte b * 256 in
      String (encodeStd (v / 262144 mod 64)) (String (encodeStd (v / 4096 mod 64))
        (String (encodeStd (v / 64 mod 64)) "="))
  | a :: b :: c :: rest =>
      let v := Z_of_byte a * 65536 + Z_of_byte b * 256 + Z_of_byte c in
      String (encodeStd (v / 262144 mod 64)) (String (encodeStd (v / 4096 mod 64))
        (String (encodeStd (v / 64 mod 64)) (String (encodeStd (v mod 64))
          (StdEncodeToString rest))))
  end.

Definition isNewline (c : ascii) : bool := Ascii.eqb c "010" || Ascii.eqb c "013".

(** How the loop of [decodeQuantum] over [dbuf] ends. [si] counts the
    bytes of the input consumed so far. *)
Inductive scanned : Type :=
| Full (dbuf : list Z) (rest : string) (si : Z)
| AtEnd (j : nat) (si : Z)
| Illegal (si : Z)
| Pad (j : nat) (dbuf : list Z) (rest : string) (si : Z).

(** [for j := 0; j < len(dbuf); j++]: a character of the alphabet fills
    [dbuf[j]], a newline is skipped ([j--]), anything else is either the
    padding character or illegal. *)
Fixpoint scan (s : string) (si : Z) (j : nat) (dbuf : list Z) : scanned :=
  if (j =? 4)%nat then Full dbuf s si
  else match s with
       | EmptyString => AtEnd j si
       | String c t =>
           match decodeMapStd c with
           | Some out => scan t (si + 1) (S j) (dbuf ++ [out])
           | None =>
               if isNewline c then scan t (si + 1) j dbuf
               else if negb (Ascii.eqb c "=") then Illegal (si + 1)
               else Pad j dbuf t (si + 1)
           end
       end.

(** [for si < len(src) && (src[si] == '\n' || src[si] == '\r') { si++ }] *)
Fixpoint skipNewlines (s : string) (si : Z) : string * Z :=
  match s with
  | String c t => if isNewline c then skipNewlines t (si + 1) else (s, si)
  | EmptyString => (s, si)
  end.

(** The first [dlen - 1] bytes of the 24 bits in [dbuf]; entries that
    were not filled are zero. *)
Definition quantumBytes (dbuf : list Z) (dlen : nat) : list byte :=
  let val := nth 0 dbuf 0 * 262144 + nth 1 dbuf 0 * 4096 + nth 2 dbuf 0 * 64 + nth 3 dbuf 0 in
  take (dlen - 1) [byte_of_Z (val / 65536); byte_of_Z (val / 256); byte_of_Z val].

(** [decodeQuantum] of the padded encoding: the rest of the input, the
    position reached, the bytes written and the error. *)
Definition decodeQuantum (s : string) (si : Z)
    : string * Z * list byte * option CorruptInputError :=
  match scan s si 0 [] with
  | Full dbuf rest si => (rest, si, quantumBytes dbuf 4, None)
  | AtEnd O si => (EmptyString, si, [], None)
  | AtEnd j si => (EmptyString, si, [], Some (si - Z.of_nat j))
  | Illegal si => (EmptyString, si, [], Some (si - 1))
  | Pad j dbuf rest si =>
      let finish (rest : string) (si : Z) :=
        let '(rest, si) := skipNewlines rest si in
        let err := match rest with
                   | EmptyString => None
                   | String _ _ => Some si
                   end in
        (rest, si, quantumBytes dbuf j, err) in
      match j with
      | 0%nat | 1%nat => (rest, si, [], Some (si - 1))
      | 2%nat =>
          let '(rest, si) := skipNewlines rest si in
          match rest with
          | EmptyString => (rest, si, [], Some si)
          | String c t =>
              if negb (Ascii.eqb c "=") then (rest, si, [], Some (si - 1))
              else finish t (si + 1)
          end
      | _ => finish rest si
      end
  end.

(** [Decode]: quantum after quantum until the input is used up or a
    quantum reports an error; the bytes decoded so far are kept. Every
    quantum of a non-empty input consumes a byte, so [fuel] bytes of
    input need no more than [fuel] rounds. *)
Fixpoint decodeLoop (fuel : nat) (s : string) (si : Z) (out : list byte)
    : list byte * option CorruptInputError :=
  match fuel, s with
  | _, EmptyString => (out, None)
  | O, _ => (out, None)
  | S fuel, _ =>
      let '(rest, si, written, err) := decodeQuantum s si in
      match err with
      | Some e => (out ++ written, Some e)
      | None => decodeLoop fuel rest si (out ++ written)
      end
  end.

(** [StdEncoding.DecodeString]: the decoded bytes, together with an error
    when the input is corrupt. *)
Definition StdDecodeString (s : string) : list byte * option CorruptInputError :=
  decodeLoop (String.length s) s 0 [].

End base64.

(** ** Package [time]: instants, [RFC3339Nano] formatting and parsing

    A [Time] is an instant in nanoseconds since the Unix epoch as a UTC
    clock reports it (the default clock of [New] is [time.Now().UTC()]);
    a [Duration] is a number of nanoseconds. *)

Module time.

Abbreviation Time := Z (only parsing).
Abbreviation Duration := Z (only parsing).

Definition Add (t : Time) (d : Duration) : Time := t + d.
Definition Before (t u : Time) : bool := t <? u.

Definition isLeap (year : Z) : bool :=
  (year mod 4 =? 0) && (negb (year mod 100 =? 0) || (year mod 400 =? 0)).

Definition daysIn (m year : Z) : Z :=
  if m =? 2 then (if isLeap year then 29 else 28)
  else if (m =? 4) || (m =? 6) || (m =? 9) || (m =? 11) then 30
  else 31.

(** Days since 1970-01-01 of a date of the proleptic Gregorian calendar,
    counted in 400-year eras of 146097 days that start on 1 March. *)
Definition doeOfCivil (yoe m d : Z) : Z :=
  let doy := (153 * (if 2 <? m then m - 3 else m + 9) + 2) / 5 + d - 1 in
  yoe * 365 + yoe / 4 - yoe / 100 + doy.

Definition daysFromCivil (y m d : Z) : Z :=
  let y1 := if m <=? 2 then y - 1 else y in
  let era := y1 / 400 in
  era * 146097 + doeOfCivil (y1 - era * 400) m d - 719468.

(** Year of the era (counted from March), month and day of a day of the era. *)
Definition civilOfDoe (doe : Z) : Z * Z * Z :=
  let yoe := (doe - doe / 1460 + doe / 36524 - doe / 146096) / 365 in
  let doy := doe - (365 * yoe + yoe / 4 - yoe / 100) in
  let mp := (5 * doy + 2) / 153 in
  let d := doy - (153 * mp + 2) / 5 + 1 in
  let m := if mp <? 10 then mp + 3 else mp - 9 in
  (yoe, m, d).

Definition civilFromDays (z : Z) : Z * Z * Z :=
  let z1 := z + 719468 in
  let era := z1 / 146097 in
  let '(yoe, m, d) := civilOfDoe (z1 - era * 146097) in
  let y := yoe + era * 400 in
  (if m <=? 2 then y + 1 else y, m, d).

Definition Year (t : Time) : Z := (civilFromDays (t / 1000000000 / 86400)).1.1.

(** *** Formatting *)

Definition digit (n : Z) : ascii := ascii_of_N (Z.to_N (48 + n mod 10)).

(** The last [width] decimal digits of [n], most significant first. *)
Fixpoint digits (width : nat) (n : Z) (acc : string) : string :=
  match width with
  | O => acc
  | S w => digits w (n / 10) (String (digit n) acc)
  end.

Fixpoint ndigitsFuel (fuel : nat) (u : Z) : nat :=
  match fuel with
  | O => 1%nat
  | S f => if u <? 10 then 1%nat else S (ndigitsFuel f (u / 10))
  end.

Definition ndigits (u : Z) : nat := ndigitsFuel (Z.to_nat (Z.log2 u)) u.

(** [appendInt(b, x, width)]: decimal, zero-padded to at least [width]. *)
Definition appendInt (x : Z) (width : nat) : string :=
  let u := Z.abs x in
  (if x <? 0 then "-" else "") +:+ digits (Nat.max width (ndigits u)) u "".

Fixpoint trimZeros (s : string) : string :=
  match s with
  | EmptyString => EmptyString
  | String c t =>
      match trimZeros t with
      | EmptyString => if Ascii.eqb c "0" then EmptyString else String c EmptyString
      | t1 => String c t1
      end
  end.

(** [appendNano] for [.999999999]: nothing for a whole second, else the
    nine digits without their trailing zeros. *)
Definition appendNano (nsec : Z) : string :=
  if nsec =? 0 then "" else String "." (trimZeros (appendInt nsec 9)).

(** [t.Format(time.RFC3339Nano)] of a UTC time. *)
Definition Format (t : Time) : string :=
  let sec := t / 1000000000 in
  let nsec := t mod 1000000000 in
  let '(y, m, d) := civilFromDays (sec / 86400) in
  let r := sec mod 86400 in
  appendInt y 4 +:+ "-" +:+ appendInt m 2 +:+ "-" +:+ appendInt d 2 +:+ "T"
    +:+ appendInt (r / 3600) 2 +:+ ":" +:+ appendInt (r mod 3600 / 60) 2 +:+ ":"
    +:+ appendInt (r mod 60) 2 +:+ appendNano nsec +:+ "Z".

(** *** Parsing *)

Definition isDigit (c : ascii) : bool :=
  let n := nat_of_ascii c in ((48 <=? n) && (n <=? 57))%nat.

Definition digitVal (c : ascii) : Z := Z.of_N (N_of_ascii c) - 48.

(** [getnum(s, fixed)]: one or two digits, exactly two when [fixed]. *)
Definition getnum (s : string) (fixed : bool) : option (Z * string) :=
  match s with
  | String a t =>
      if isDigit a then
        match t with
        | String b t1 =>
            if isDigit b then Some (digitVal a * 10 + digitVal b, t1)
            else if fixed then None else Some (digitVal a, t)
        | EmptyString => if fixed then None else Some (digitVal a, t)
        end
      else None
  | EmptyString => None
  end.

(** A literal byte of the layout. *)
Definition skip (c : ascii) (s : string) : option string :=
  match s with
  | String a t => if Ascii.eqb a c then Some t else None
  | EmptyString => None
  end.

(** [stdLongYear]: exactly four digits. *)
Definition getYear (s : string) : option (Z * string) :=
  match s with
  | String a (String b (String c (String d t))) =>
      if isDigit a && isDigit b && isDigit c && isDigit d
      then Some (((digitVal a * 10 + digitVal b) * 10 + digitVal c) * 10 + digitVal d, t)
      else None
  | _ => None
  end.

Fixpoint spanDigits (s : string) : string * string :=
  match s with
  | String c t =>
      if isDigit c then let '(ds, r) := spanDigits t in (String c ds, r)
      else (EmptyString, s)
  | EmptyString => (EmptyString, EmptyString)
  end.

Fixpoint atoiAcc (acc : Z) (s : string) : Z :=
  match s with
  | String c t => atoiAcc (acc * 10 + digitVal c) t
  | EmptyString => acc
  end.

Fixpoint take (n : nat) (s : string) : string :=
  match n, s with
  | S k, String c t => String c (take k t)
  | _, _ => EmptyString
  end.

(** [stdFracSecond9]: an optional [.] or [,] followed by digits; digits
    after the ninth are dropped, fewer than nine are scaled up. *)
Definition getFrac (s : string) : Z * string :=
  match s with
  | String sep (String c t) =>
      if (Ascii.eqb sep "." || Ascii.eqb sep ",") && isDigit c then
        let '(ds, r) := spanDigits (String c t) in
        let ds9 := take 9 ds in
        (atoiAcc 0 ds9 * 10 ^ Z.of_nat (9 - String.length ds9), r)
      else (0, s)
  | _ => (0, s)
  end.

(** [stdISO8601ColonTZ]: [Z], or a sign, two digits, a colon, two
    digits; the offset in seconds east of UTC. *)
Definition getZone (s : string) : option (Z * string) :=
  match s with
  | String sg t0 =>
      if Ascii.eqb sg "Z" then Some (0, t0)
      else match t0 with
           | String h1 (String h2 (String col (String m1 (String m2 t)))) =>
               if Ascii.eqb col ":" && isDigit h1 && isDigit h2 && isDigit m1 && isDigit m2
               then
                 let hr := digitVal h1 * 10 + digitVal h2 in
                 let mm := digitVal m1 * 10 + digitVal m2 in
                 if (24 <? hr) || (60 <? mm) then None
                 else if Ascii.eqb sg "+" then Some ((hr * 60 + mm) * 60, t)
                 else if Ascii.eqb sg "-" then Some (- ((hr * 60 + mm) * 60), t)
                 else None
               else None
           | _ => None
           end
  | EmptyString => None
  end.

(** [time.Parse(time.RFC3339Nano, value)]; [None] is a [*ParseError]. *)
Definition Parse (value : string) : option Time :=
  '(year, v) ← getYear value;
  v ← skip "-" v;
  '(month, v) ← getnum v true;
  if (month <=? 0) || (12 <? month) then None else
  v ← skip "-" v;
  '(day, v) ← getnum v true;
  v ← skip "T" v;
  '(hour, v) ← getnum v false;
  if 24 <=? hour then None else
  v ← skip ":" v;
  '(min, v) ← getnum v true;
  if 60 <=? min then None else
  v ← skip ":" v;
  '(sec, v) ← getnum v true;
  if 60 <=? sec then None else
  let '(nsec, v) := getFrac v in
  '(zoneOffset, v) ← getZone v;
  if negb (bool_decide (v = EmptyString)) then None else
  if (day <? 1) || (daysIn month year <? day) then None else
  Some ((daysFromCivil year month day * 86400 + hour * 3600 + min * 60 + sec
         - zoneOffset) * 1000000000 + nsec).

End time.

(** ** Hash functions and [crypto/hmac] *)

Module hash.

(** The constructors [utils.ParseHasher] can return. *)
Inductive Hasher : Set := SHA256 | SHA512_256 | SHA3_256 | SHA3_512 | BLAKE2b_256.

Definition Size (h : Hasher) : nat :=
  match h with
  | SHA256 | SHA512_256 | SHA3_256 | BLAKE2b_256 => 32
  | SHA3_512 => 64
  end.

Definition BlockSize (h : Hasher) : nat :=
  match h with
  | SHA256 => 64
  | SHA512_256 | BLAKE2b_256 => 128
  | SHA3_256 => 136
  | SHA3_512 => 72
  end.

(** The digests themselves ([crypto/sha256], [crypto/sha512],
    [crypto/sha3], [x/crypto/blake2b]): functions from the bytes written
    to a digest of [Size] bytes. *)
Class Digests := {
  Sum : Hasher → list byte → list byte;
  Sum_length : ∀ h m, length (Sum h m) = Size h
}.

End hash.

Module hmac.
Import hash.

(** The state of [hmac.New(h, key)]: the two pads and the bytes written
    to the inner hash so far. *)
Record HMAC := mkHMAC {
  fn : Hasher;
  opad : list byte;
  ipad : list byte;
  inner : list byte
}.

Definition xorPad (p : Z) (key : list byte) (blocksize : nat) : list byte :=
  (λ b, byte_of_Z (Z.lxor (Z_of_byte b) p))
    <$> (key ++ replicate (blocksize - length key) x00).

Section HMAC.
Context `{Digests}.

(** A key longer than the block is hashed first; the pads are the key,
    zero-extended to the block size, xor [0x36] and [0x5c]; the inner
    hash starts with [ipad] written. *)
Definition New (h : Hasher) (key : list byte) : HMAC :=
  let blocksize := BlockSize h in
  let key1 := if (blocksize <? length key)%nat then Sum h key else key in
  let ip := xorPad 54 key1 blocksize in
  {| fn := h; opad := xorPad 92 key1 blocksize; ipad := ip; inner := ip |}.

Definition Write (hm : HMAC) (p : list byte) : HMAC :=
  {| fn := fn hm; opad := opad hm; ipad := ipad hm; inner := inner hm ++ p |}.

(** [hm.Sum(in)]: [in] followed by [H(opad || H(ipad || message))]. *)
Definition Sum_ (hm : HMAC) (b : list byte) : list byte :=
  b ++ Sum (fn hm) (opad hm ++ Sum (fn hm) (inner hm)).

End HMAC.

(** [hmac.Equal]: a constant-time comparison; equal as byte slices. *)
Definition Equal (mac1 mac2 : list byte) : bool := bool_decide (mac1 = mac2).

End hmac.

(** ** Package [encoding/hex] *)

Module hex.

(** [ErrLength] and [InvalidByteError]. *)
Inductive error : Set :=
| ErrLength
| InvalidByteError (b : ascii).

(** [reverseHexTable]: the value of a hexadecimal digit of either case. *)
Definition fromHexChar (c : ascii) : option Z :=
  let n := Z.of_N (N_of_ascii c) in
  if (48 <=? n) && (n <=? 57) then Some (n - 48)
  else if (97 <=? n) && (n <=? 102) then Some (n - 97 + 10)
  else if (65 <=? n) && (n <=? 70) then Some (n - 65 + 10)
  else None.

(** [Decode]: two digits give a byte; the first character that is no
    digit stops the decoding, and so does a lone last digit. The bytes
    decoded before the error are returned with it. *)
Fixpoint DecodeString (s : string) : list byte * option error :=
  match s with
  | EmptyString => ([], None)
  | String p EmptyString =>
      match fromHexChar p with
      | None => ([], Some (InvalidByteError p))
      | Some _ => ([], Some ErrLength)
      end
  | String p (String q rest) =>
      match fromHexChar p, fromHexChar q with
      | None, _ => ([], Some (InvalidByteError p))
      | _, None => ([], Some (InvalidByteError q))
      | Some a, Some b =>
          let '(out, err) := DecodeString rest in
          (byte_of_Z (a * 16 + b) :: out, err)
      end
  end.

Definition hextable (i : Z) : ascii :=
  if i <? 10 then ascii_of_N (Z.to_N (48 + i)) else ascii_of_N (Z.to_N (97 + (i - 10))).

(** [EncodeToString]: two lower-case digits a byte. *)
Fixpoint EncodeToString (src : list byte) : string :=
  match src with
  | [] => EmptyString
  | v :: rest =>
      String (hextable (Z_of_byte v / 16)) (String (hextable (Z_of_byte v mod 16))
        (EncodeToString rest))
  end.

End hex.

(** ** Package [strconv]: booleans and integers in base 10 *)

Module strconv.

(** [ErrSyntax] and [ErrRange], and the [*NumError] that carries one of
    them with the name of the function and the text that failed. *)
Inductive Err : Set := ErrSyntax | ErrRange.

Record NumError := mkNumError {
  Func : string;
  Num : string;
  Err_ : Err
}.

(** [strconv.Quote], which [NumError.Error] applies to the text: a
    double-quoted Go string literal, escaped by Unicode's tables of
    printable characters. *)
Class Quoting := { Quote : string → string }.

Definition Err_Error (e : Err) : string :=
  match e with
  | ErrSyntax => "invalid syntax"
  | ErrRange => "value out of range"
  end.

Definition Error `{Quoting} (e : NumError) : string :=
  "strconv." +:+ Func e +:+ ": " +:+ "parsing " +:+ Quote (Num e) +:+ ": " +:+ Err_Error (Err_ e).

Definition syntaxError (fn str : string) : NumError := mkNumError fn str ErrSyntax.
Definition rangeError (fn str : string) : NumError := mkNumError fn str ErrRange.

(** [ParseBool]: the twelve spellings, and nothing else. *)
Definition ParseBool (str : string) : bool * option NumError :=
  if bool_decide (str ∈ ["1"; "t"; "T"; "true"; "TRUE"; "True"]) then (true, None)
  else if bool_decide (str ∈ ["0"; "f"; "F"; "false"; "FALSE"; "False"]) then (false, None)
  else (false, Some (syntaxError "ParseBool" str)).

Definition maxUint64 : Z := 18446744073709551615.

(** The loop of [ParseUint] at base 10 over the bytes of [s]: a byte
    that is no digit is a syntax error; [n >= cutoff] and an [n1] that
    wrapped around or exceeds [maxVal] are range errors, with [maxVal]
    as the value. *)
Fixpoint parseDigits (s0 : string) (maxVal : Z) (s : string) (n : Z)
    : Z * option NumError :=
  match s with
  | EmptyString => (n, None)
  | String c t =>
      let d := Z.of_N (N_of_ascii c) - 48 in
      if negb ((0 <=? d) && (d <=? 9)) then (0, Some (syntaxError "ParseUint" s0))
      else if maxUint64 / 10 + 1 <=? n then (maxVal, Some (rangeError "ParseUint" s0))
      else
        let n := n * 10 in
        let n1 := (n + d) mod 2 ^ 64 in
        if (n1 <? n) || (maxVal <? n1) then (maxVal, Some (rangeError "ParseUint" s0))
        else parseDigits s0 maxVal t n1
  end.

(** [ParseUint(s, 10, bitSize)] for a [bitSize] from 1 to 64. *)
Definition ParseUint (s : string) (bitSize : Z) : Z * option NumError :=
  if bool_decide (s = EmptyString) then (0, Some (syntaxError "ParseUint" s))
  else parseDigits s (2 ^ bitSize - 1) s 0.

(** [ParseInt(s, 10, bitSize)]: an optional sign, then [ParseUint]; the
    value must fit [bitSize] bits with its sign. *)
Definition ParseInt (s : string) (bitSize : Z) : Z * option NumError :=
  match s with
  | EmptyString => (0, Some (syntaxError "ParseInt" s))
  | String c t =>
      let neg := Ascii.eqb c "-" in
      let digits := if Ascii.eqb c "+" || Ascii.eqb c "-" then t else s in
      let '(un, err) := ParseUint digits bitSize in
      match err with
      | Some (mkNumError _ _ ErrSyntax) => (0, Some (syntaxError "ParseInt" s))
      | _ =>
          let cutoff := 2 ^ (bitSize - 1) in
          if negb neg && (cutoff <=? un) then (cutoff - 1, Some (rangeError "ParseInt" s))
          else if neg && (cutoff <? un) then (- cutoff, Some (rangeError "ParseInt" s))
          else (if neg then - un else un, None)
      end
  end.

(** [FormatInt(i, 10)]. *)
Definition FormatInt (i : Z) : string :=
  (if i <? 0 then "-" else "")
  +:+ time.digits (time.ndigits (Z.abs i)) (Z.abs i) "".

End strconv.

(** ** Package [utils]: the helpers [urlsigner] imports *)

Module utils.
Import hash.

(** [ParseHasher(algo)]: a [switch] over the five names; any other name
    panics. *)
Definition ParseHasher (algo : string) : outcome Hasher :=
  if bool_decide (algo = "sha256") then Return SHA256
  else if bool_decide (algo = "sha512/256") then Return SHA512_256
  else if bool_decide (algo = "sha3-256") then Return SHA3_256
  else if bool_decide (algo = "sha3-512") then Return SHA3_512
  else if bool_decide (algo = "blake2b") then Return BLAKE2b_256
  else Panic ("hasher is invalid: check your config: " +:+ algo).

(** The names of that [switch]. *)
Definition supported : list string :=
  ["sha256"; "sha512/256"; "sha3-256"; "sha3-512"; "blake2b"].

(** [UnsafeBytes] (utils.go):
    [unsafe.Slice(unsafe.StringData(s), len(s))], the [len(s)] bytes of
    the string, read in place and not copied. The model has values and
    no memory: the slice is the list of the string's bytes. *)
Definition UnsafeBytes (s : string) : list byte := String.list_byte_of_string s.

(** *** [UnsafeString] *)

(** [unsafe.String(unsafe.SliceData(b), len(b))]: the bytes of [b] as a
    string. *)
Definition UnsafeString (b : list byte) : string := String.string_of_list_byte b.

(** *** [ParseKey] *)

Definition Base64Prefix : string := "base64:".

(** The errors [ParseKey] returns: its own [ErrInvalidKey], and those
    of [hex.DecodeString] and [base64.StdEncoding.DecodeString]. *)
Inductive error : Set :=
| ErrInvalidKey
| HexError (e : hex.error)
| Base64Error (e : base64.CorruptInputError).

(** The upper-case hexadecimal digit of [i]. *)
Definition udigit (i : Z) : ascii :=
  if i <? 10 then ascii_of_N (Z.to_N (48 + i)) else ascii_of_N (Z.to_N (65 + (i - 10))).

(** [%#U] of a rune below 256: [U+00XX], followed by the quoted
    character when [strconv.IsPrint] holds of it. *)
Definition sharpU (c : ascii) : string :=
  let r := utf8.code c in
  let printable := ((32 <=? r) && (r <? 127)) || ((161 <=? r) && negb (r =? 173)) in
  let encoded :=
    if r <? 128 then String c EmptyString
    else String (ascii_of_N (Z.to_N (Z.lor 192 (Z.shiftr r 6))))
           (String (ascii_of_N (Z.to_N (Z.lor 128 (Z.land r 63)))) EmptyString) in
  "U+00" +:+ String (udigit (r / 16)) (String (udigit (r mod 16)) EmptyString)
  +:+ (if printable then " '" +:+ encoded +:+ "'" else EmptyString).

(** [err.Error()] *)
Definition Error (e : error) : string :=
  match e with
  | ErrInvalidKey => "invalid key format"
  | HexError hex.ErrLength => "encoding/hex: odd length hex string"
  | HexError (hex.InvalidByteError b) => "encoding/hex: invalid byte: " +:+ sharpU b
  | Base64Error n => "illegal base64 data at input byte " +:+ strconv.FormatInt n
  end.

(** [ParseKey(key)]: the empty key is refused; a key that starts with
    [base64:] is decoded as padded standard base64, any other key as
    hexadecimal. The bytes and the error are those of the decoder. *)
Definition ParseKey (key : string) : list byte * option error :=
  if bool_decide (key = EmptyString) then ([], Some ErrInvalidKey)
  else
    let '(after, ok) := strings.CutPrefix key Base64Prefix in
    if ok then
      let '(b, err) := base64.StdDecodeString after in (b, Base64Error <$> err)
    else
      let '(b, err) := hex.DecodeString key in (b, HexError <$> err).

(** *** Environment variables *)

(** [EnvProvider]: an environment of a type [P] that can be read and
    written. [Get] returns the value and whether the variable is set;
    [Set] changes the environment or panics. *)
Class EnvProvider (P : Type) := {
  Get : P → string → string * bool;
  Set_ : P → string → string → outcome P
}.

(** [mapEnvProvider]: a map behind a prefix. *)
Record mapEnvProvider := mkMapEnv {
  prefix : string;
  env : gmap string string
}.

Definition mapEnvProvider_Get (p : mapEnvProvider) (key : string) : string * bool :=
  match env p !! (prefix p +:+ key) with
  | Some v => (v, true)
  | None => (EmptyString, false)
  end.

Definition mapEnvProvider_Set (p : mapEnvProvider) (key value : string)
    : outcome mapEnvProvider :=
  Return {| prefix := prefix p; env := <[prefix p +:+ key := value]> (env p) |}.

#[global] Instance mapEnv : EnvProvider mapEnvProvider :=
  {| Get := mapEnvProvider_Get; Set_ := mapEnvProvider_Set |}.

Section Env.
Context {P : Type} `{EnvProvider P} `{strconv.Quoting}.

Definition GetStringsEnv (e : P) (key : string) (defaultValue : list string)
    : list string :=
  let '(value, exists_) := Get e key in
  if negb exists_ then defaultValue
  else
    foldl (λ vals v,
             let v := strings.TrimSpace v in
             if bool_decide (v = EmptyString) then vals else vals ++ [v])
      [] (strings.SplitSeq value ",").

Definition GetEnv (e : P) (key defaultValue : string) : string :=
  let '(value, exists_) := Get e key in
  if negb exists_ then defaultValue else value.

(** [GetIntEnv[T]]: [bitSize] is [unsafe.Sizeof(v)*8], the width of
    [T]. *)
Definition GetIntEnv (bitSize : Z) (e : P) (key : string) (defaultValue : Z)
    : outcome Z :=
  let '(value, exists_) := Get e key in
  if negb exists_ then Return defaultValue
  else
    let '(parsed, err) := strconv.ParseInt value bitSize in
    match err with
    | None => Return parsed
    | Some err =>
        Panic ("invalid integer value: " +:+ value +:+ " " +:+ strconv.Error err)
    end.

Definition GetUintEnv (bitSize : Z) (e : P) (key : string) (defaultValue : Z)
    : outcome Z :=
  let '(value, exists_) := Get e key in
  if negb exists_ then Return defaultValue
  else
    let '(parsed, err) := strconv.ParseUint value bitSize in
    match err with
    | None => Return parsed
    | Some err =>
        Panic ("invalid unsigned value: " +:+ value +:+ " " +:+ strconv.Error err)
    end.

Definition GetBoolEnv (e : P) (key : string) (defaultValue : bool) : outcome bool :=
  let '(value, exists_) := Get e key in
  if negb exists_ then Return defaultValue
  else
    let '(parsed, err) := strconv.ParseBool value in
    match err with
    | None => Return parsed
    | Some err =>
        Panic ("invalid boolean value: " +:+ value +:+ " " +:+ strconv.Error err)
    end.

Definition GetKeyEnv (e : P) (k : string) (defaults : list byte) : outcome (list byte) :=
  let '(value, exists_) := Get e k in
  if negb exists_ then Return defaults
  else if bool_decide (value = EmptyString) then Return defaults
  else
    let '(parsed, err) := ParseKey value in
    match err with
    | Some err => Panic ("invalid key: " +:+ value +:+ " " +:+ Error err)
    | None => Return parsed
    end.

End Env.

(** *** [RealIP] *)

Definition HeaderXForwardedFor : string := "X-Forwarded-For".
Definition HeaderXRealIP : string := "X-Real-IP".

(** [bytes.IndexRune(s, r)] for a rune below [utf8.RuneSelf]: the index
    of the first such byte, or [-1]. *)
Fixpoint IndexByte (s : list byte) (c : byte) : Z :=
  match s with
  | [] => -1
  | b :: t =>
      if bool_decide (b = c) then 0
      else let i := IndexByte t c in if i =? -1 then -1 else i + 1
  end.

(** [RealIP(peekable)]; [peek] is [peekable.Peek]. *)
Definition RealIP (peek : string → list byte) : list byte :=
  let ipHeader := peek HeaderXForwardedFor in
  let ipHeader :=
    if (length ipHeader =? 0)%nat then peek HeaderXRealIP else ipHeader in
  if (length ipHeader =? 0)%nat then []
  else
    let firstIndex := IndexByte ipHeader "," in
    if negb (firstIndex =? -1) then take (Z.to_nat firstIndex) ipHeader
    else ipHeader.

(** *** [GenerateRandomPassword] *)

Definition lowercase : string := "abcdefghijklmnopqrstuvwxyz".
Definition uppercase : string := "ABCDEFGHIJKLMNOPQRSTUVWXYZ".
Definition numbers : string := "0123456789".
Definition special : string := "!@#$%^&*()-_=+[]{}|;:,.<>?".
Definition allChars : string := lowercase +:+ uppercase +:+ numbers +:+ special.

Definition charSets : list string := [lowercase; uppercase; numbers; special].

(** The error of [rand.Int]: that of reading [rand.Reader]. *)
Inductive readerError : Set := ErrReader.

(** [s[i]], which panics when [i] is out of range. *)
Definition index {A : Type} (s : list A) (i : Z) : outcome A :=
  match (if i <? 0 then None else s !! Z.to_nat i) with
  | Some c => Return c
  | None =>
      Panic ("runtime error: index out of range [" +:+ strconv.FormatInt i
             +:+ "] with length " +:+ strconv.FormatInt (Z.of_nat (length s)))
  end.

(** The largest allocation the runtime accepts: [1 << 48] bytes on a
    64-bit system. *)
Definition maxAlloc : Z := 2 ^ 48.

Section Random.

(** The bytes the runtime can still get from the system. *)
Variable available : Z.

(** [bytealg.MakeNoZero(n)], the allocation behind [Builder.Grow]: it
    panics when [n] exceeds [maxAlloc], and the program dies of
    [out of memory] when the runtime cannot get [n] bytes. Both end the
    call: the model has the one outcome [Panic] for them. *)
Definition MakeNoZero (n : Z) : outcome unit :=
  if maxAlloc <? n then Panic "runtime error: makeslice: len out of range"
  else if available <? n then Panic "fatal error: runtime: out of memory"
  else Return tt.

(** [password.Grow(n)] on the new builder, whose buffer has capacity 0:
    [n] bytes are allocated at once. The bytes written afterwards fit
    that buffer as long as [password.Len() < n], so [WriteByte] does not
    allocate. *)
Definition Grow (n : Z) : outcome unit :=
  if n <? 0 then Panic "strings.Builder.Grow: negative count"
  else if 0 <? n then MakeNoZero n else Return tt.

(** [rand.Int(rand.Reader, max)], call after call: the [n]-th call
    returns a number, or [None] for an error. *)
Variable randInt : nat → Z → option Z.

(** The state of the function between two draws: the bytes written so
    far and the number of draws made; [None] once a draw has failed. *)
Definition drawn : Type := option (list ascii * nat).

(** [for _, charset := range charSets]: one character of each set. *)
Fixpoint pickEach (sets : list string) (password : list ascii) (n : nat)
    : outcome drawn :=
  match sets with
  | [] => Return (Some (password, n))
  | charset :: sets =>
      match randInt n (Z.of_nat (String.length charset)) with
      | None => Return None
      | Some randomIndex =>
          obind (index (String.list_ascii_of_string charset) randomIndex)
            (λ c, pickEach sets (password ++ [c]) (S n))
      end
  end.

(** [for password.Len() < length]: characters of any set; every round
    adds one, so [fuel] rounds reach a length of [fuel]. *)
Fixpoint fill (fuel : nat) (length_ : Z) (password : list ascii) (n : nat)
    : outcome drawn :=
  match fuel with
  | O => Return (Some (password, n))
  | S fuel =>
      if Z.of_nat (length password) <? length_ then
        match randInt n (Z.of_nat (String.length allChars)) with
        | None => Return None
        | Some randomIndex =>
            obind (index (String.list_ascii_of_string allChars) randomIndex)
              (λ c, fill fuel length_ (password ++ [c]) (S n))
        end
      else Return (Some (password, n))
  end.

(** [b[i], b[j] = b[j], b[i]] *)
Definition swap (b : list byte) (i : nat) (j : Z) : outcome (list byte) :=
  obind (index b j)
    (λ bj, obind (index b (Z.of_nat i))
       (λ bi, Return (<[Z.to_nat j := bi]> (<[i := bj]> b)))).

(** [for i := len(b) - 1; i > 0; i--]: the shuffle. *)
Fixpoint shuffle (i : nat) (passwordBytes : list byte) (n : nat)
    : outcome (option (list byte)) :=
  match i with
  | O => Return (Some passwordBytes)
  | S i' =>
      match randInt n (Z.of_nat i + 1) with
      | None => Return None
      | Some j =>
          obind (swap passwordBytes i j) (λ b, shuffle i' b (S n))
      end
  end.

(** [GenerateRandomPassword(length)]: the password and [nil], or the
    empty string and the error of the draw that failed. [length] is an
    [int]; the builder's contents are [password], and
    [password.String()] is its string. *)
Definition GenerateRandomPassword (length_ : Z) : outcome (string * option readerError) :=
  let length_ := if length_ <? 8 then 12 else length_ in
  obind (Grow length_)
    (λ _, obind (pickEach charSets [] 0)
       (λ st, match st with
              | None => Return (EmptyString, Some ErrReader)
              | Some (password, n) =>
                  obind (fill (Z.to_nat length_) length_ password n)
                    (λ st, match st with
                           | None => Return (EmptyString, Some ErrReader)
                           | Some (password, n) =>
                               let passwordBytes :=
                                 UnsafeBytes (String.string_of_list_ascii password) in
                               obind (shuffle (length passwordBytes - 1) passwordBytes n)
                                 (λ st, match st with
                                        | None => Return (EmptyString, Some ErrReader)
                                        | Some b => Return (UnsafeString b, None)
                                        end)
                           end)
              end)).

End Random.

(** *** [GetAbsolutePath] and the test helpers [WorkingDir],
    [ProjectRootDir] and [FindFile] *)

(** What these functions ask of [os] and [path/filepath]: the working
    directory, the names of the entries of a directory, and the path
    functions. An error is given by its text. *)
Class FileSystem := {
  Getwd : string * option string;
  ReadDir : string → list string * option string;
  Join : string → string → string;
  IsAbs : string → bool;
  Abs : string → string * option string
}.

(** A call with a [testing.TB]: it returns, or the test is stopped by
    [tb.FailNow()] after the messages given to [tb.Error] and
    [tb.Errorf]. *)
Inductive tested (A : Type) : Type :=
| Passed (a : A)
| Stopped (messages : list string).
Arguments Passed {A} a.
Arguments Stopped {A} messages.

Definition gomod : string := "go.mod".

Section Files.
Context `{FileSystem}.

Definition GetAbsolutePath (path : string) : string * option string :=
  if negb (IsAbs path) then
    let '(path, err) := Abs path in
    match err with
    | Some e => (EmptyString, Some e)
    | None => (path, None)
    end
  else (path, None).

Definition WorkingDir : tested string :=
  let '(wd, err) := Getwd in
  match err with
  | Some e => Stopped [e]
  | None => Passed wd
  end.

(** The loop of [ProjectRootDir]: up from [workingDir] until a directory
    has an entry [go.mod]. It ends when a directory cannot be read and
    at [/]; [None] when [fuel] directories were not enough. *)
Fixpoint rootLoop (fuel : nat) (workingDir : string) : option (tested string) :=
  match fuel with
  | O => None
  | S fuel =>
      let '(entries, err) := ReadDir workingDir in
      match err with
      | Some _ => Some (Stopped [gomod +:+ " not found"])
      | None =>
          if bool_decide (gomod ∈ entries) then Some (Passed workingDir)
          else if bool_decide (workingDir = "/")
          then Some (Stopped ["got to FS Root, file not found"])
          else
            let '(workingDir, err) := GetAbsolutePath (Join workingDir "..") in
            match err with
            | Some _ =>
                Some (Stopped ["failed to get absolute path from "
                               +:+ Join workingDir ".."])
            | None => rootLoop fuel workingDir
            end
      end
  end.

(** [ProjectRootDir(tb)] with [projectRootDirCache] as it is before and
    after the call. *)
Definition ProjectRootDir (fuel : nat) (cache : gmap string string)
    : option (tested string * gmap string string) :=
  match WorkingDir with
  | Stopped msgs => Some (Stopped msgs, cache)
  | Passed originalWorkingDir =>
      match cache !! originalWorkingDir with
      | Some dir => Some (Passed dir, cache)
      | None =>
          match rootLoop fuel originalWorkingDir with
          | None => None
          | Some (Passed workingDir) =>
              Some (Passed workingDir, <[originalWorkingDir := workingDir]> cache)
          | Some (Stopped msgs) => Some (Stopped msgs, cache)
          end
      end
  end.

(** The loop of [FindFile]: up from [workingDir] until a directory has
    an entry [fileName], and no further than [root]. *)
Fixpoint findLoop (fuel : nat) (fileName root workingDir : string)
    : option (tested string) :=
  match fuel with
  | O => None
  | S fuel =>
      let '(entries, err) := ReadDir workingDir in
      match err with
      | Some _ => Some (Stopped ["failed to find file " +:+ fileName])
      | None =>
          if bool_decide (fileName ∈ entries) then Some (Passed workingDir)
          else if bool_decide (workingDir = root)
          then Some (Stopped ["got to he project root, file not found"])
          else
            let '(workingDir, err) := GetAbsolutePath (Join workingDir "..") in
            match err with
            | Some _ =>
                Some (Stopped ["failed to get absolute path from "
                               +:+ Join workingDir ".."])
            | None => findLoop fuel fileName root workingDir
            end
      end
  end.

Definition FindFile (fuel : nat) (cache : gmap string string) (fileName : string)
    : option (tested string * gmap string string) :=
  match WorkingDir with
  | Stopped msgs => Some (Stopped msgs, cache)
  | Passed workingDir =>
      match ProjectRootDir fuel cache with
      | None => None
      | Some (Stopped msgs, cache) => Some (Stopped msgs, cache)
      | Some (Passed root, cache) =>
          match findLoop fuel fileName root workingDir with
          | None => None
          | Some r => Some (r, cache)
          end
      end
  end.

End Files.

End utils.

(** ** Package [urlsigner] *)

Module urlsigner.
Import hash.

Definition Expiration : string := "expires".
Definition Signature : string := "signature".

(** The three errors of the package, and the [*url.Error] that [Sign]
    hands on from [url.Parse]. *)
Inductive error : Set :=
| ErrMissingSignature
| ErrInvalidSignature
| ErrExpired
| ErrURLParse.

Global Instance error_eq_dec : EqDecision error.
Proof. solve_decision. Defined.

(** [HMACSigner]: a clock and a factory of keyed hashes, both closures. *)
Record HMACSigner := mkSigner {
  now : unit → time.Time;
  hasher : unit → outcome hmac.HMAC
}.

(** The signer with its clock reading [t]. *)
Definition withNow (s : HMACSigner) (t : time.Time) : HMACSigner :=
  {| now := λ _, t; hasher := hasher s |}.

Section Signer.
Context `{url.Syntax} `{Digests}.

(** The reading of [time.Now().UTC()], the default clock. *)
Variable systemNow : unit → time.Time.

Definition New (algo : string) (keyBytes : list byte)
    (now : list (unit → time.Time)) : outcome HMACSigner :=
  if ((64 <? length keyBytes) || (length keyBytes <? 32))%nat
  then Panic "key must be greater then 32 and less than 64 bytes"
  else
    let n := match now with
             | n0 :: _ => n0
             | [] => systemNow
             end in
    Return {| now := n;
              hasher := λ _, obind (utils.ParseHasher algo)
                               (λ h, Return (hmac.New h keyBytes)) |}.

Definition sumURLString (s : HMACSigner) (str : string) : outcome (list byte) :=
  obind (hasher s ())
    (λ h, let h := hmac.Write h (utils.UnsafeBytes str) in
          Return (hmac.Sum_ h [])).

(** [Sign] returns the signed URL and [nil], or [""] and the error of
    [url.Parse]. *)
Definition Sign (s : HMACSigner) (urlString : string) (duration : time.Duration)
    : outcome (string * option error) :=
  match url.Parse urlString with
  | None => Return (EmptyString, Some ErrURLParse)
  | Some u =>
      let query := url.Query u in
      let query :=
        if negb (duration =? 0)
        then url.Set_ query "expires" (time.Format (time.Add (now s ()) duration))
        else query in
      let u := url.withRawQuery u (url.Encode query) in
      obind (sumURLString s (url.String_ u))
        (λ sigBytes,
           let signature := base64.EncodeToString sigBytes in
           let u :=
             if (0 <? String.length (url.RawQuery u))%nat
             then url.withRawQuery u (url.RawQuery u +:+ "&" +:+ Signature +:+ "=" +:+ signature)
             else url.withRawQuery u (Signature +:+ "=" +:+ signature) in
           Return (url.String_ u, None))
  end.

Definition extractAndDecodeSignature (query : url.Values)
    : list byte * url.Values * option error :=
  let signature := url.Get query Signature in
  if bool_decide (signature = EmptyString) then ([], query, Some ErrMissingSignature)
  else match base64.DecodeString signature with
       | None => ([], query, Some ErrInvalidSignature)
       | Some sigBytes => (sigBytes, url.Del query Signature, None)
       end.

Definition verifyMAC (s : HMACSigner) (original : string) (sigBytes : list byte)
    : outcome bool :=
  obind (sumURLString s original)
    (λ computed, Return (hmac.Equal sigBytes computed)).

Definition verifyExpiration (s : HMACSigner) (query : url.Values)
    : outcome (option error) :=
  if (String.length (url.Get query Expiration) =? 0)%nat then Return None
  else match time.Parse (url.Get query Expiration) with
       | None =>
           Panic "urlsigner: invalid expiration format, this should never happen since we validated the signature, CHECK THE FORMATTING FOR THE TIME"
       | Some expires =>
           if time.Before expires (now s ()) then Return (Some ErrExpired)
           else Return None
       end.

(** [Verify] writes [u.RawQuery]: the result is the URL as the caller
    finds it afterwards, together with the error returned or the
    panic. *)
Definition Verify (s : HMACSigner) (u : url.URL) : url.URL * outcome (option error) :=
  let query := url.Query u in
  let '(sigBytes, query, err) := extractAndDecodeSignature query in
  match err with
  | Some e => (u, Return (Some e))
  | None =>
      let u := url.withRawQuery u (url.Encode query) in
      (u, obind (verifyMAC s (url.String_ u) sigBytes)
            (λ ok, if negb ok then Return (Some ErrInvalidSignature)
                   else verifyExpiration s query))
  end.

End Signer.

End urlsigner.

(** ** Running the package: construct, sign, parse, verify

    The calls of the package's tests and of the README's [verifyURL], with
    the clock fixed at a given instant. *)

Module scenario.

Section Scenario.
Context `{url.Syntax} `{hash.Digests}.

Definition signer (algo : string) (key : list byte) (t : time.Time)
    : outcome urlsigner.HMACSigner :=
  urlsigner.New (λ _, t) algo key [λ _, t].

Definition signAt (algo : string) (key : list byte) (t : time.Time)
    (rawURL : string) (d : time.Duration) : outcome (string * option urlsigner.error) :=
  obind (signer algo key t) (λ s, urlsigner.Sign s rawURL d).

(** [url.Parse] followed by [Verify]; a URL that does not parse is
    reported as such. *)
Definition verifyAt (algo : string) (key : list byte) (t : time.Time)
    (rawURL : string) : outcome (option urlsigner.error) :=
  obind (signer algo key t)
    (λ s, match url.Parse rawURL with
          | Some u => (urlsigner.Verify s u).2
          | None => Return (Some urlsigner.ErrURLParse)
          end).

(** What the package's tamper test does to a parsed URL:
    [q := u.Query(); q.Set(k, x); u.RawQuery = q.Encode()]. *)
Definition tamper (u : url.URL) (k x : string) : url.URL :=
  url.withRawQuery u (url.Encode (url.Set_ (url.Query u) k x)).

(** Sign at [t1], then verify the signed URL at [t2]. *)
Definition signThenVerify (algo : string) (key : list byte) (t1 t2 : time.Time)
    (rawURL : string) (d : time.Duration) : outcome (option urlsigner.error) :=
  obind (signAt algo key t1 rawURL d) (λ r, verifyAt algo key t2 r.1).

(** Sign at [t], parse, set parameter [k] to [x], verify at [t]. *)
Definition signTamperVerify (algo : string) (key : list byte) (t : time.Time)
    (rawURL : string) (d : time.Duration) (k x : string)
    : outcome (option urlsigner.error) :=
  obind (signer algo key t)
    (λ s, obind (urlsigner.Sign s rawURL d)
       (λ r, match url.Parse r.1 with
             | Some u => (urlsigner.Verify s (tamper u k x)).2
             | None => Return (Some urlsigner.ErrURLParse)
             end)).

End Scenario.

(** The key and the clock of the package's tests: 32 zero bytes, and
    2025-08-29T20:00:00Z in nanoseconds since the epoch. *)
Definition zeroKey : list byte := replicate 32 x00.
Definition t2025 : time.Time := 1756497600000000000.

End scenario.

(** ** The digests, written out

    SHA-256 and SHA-512/256 (FIPS 180-4), SHA3-256 and SHA3-512 (FIPS 202)
    and unkeyed BLAKE2b-256 (RFC 7693) on bytes, so that the model can be
    run on the URLs of the package's tests. Words are integers reduced
    modulo [2^32] or [2^64]. *)

(** [n] bytes read off a function from byte positions. *)
Definition outBytes (n : nat) (f : nat → Z) : list byte :=
  (λ i, byte_of_Z (f i)) <$> seq 0 n.

Module sha2.

Section Generic.
(** Word size in bits, round constants, and the rotation amounts of the
    four sigma functions (the third amount of the small ones is a
    shift). *)
Variable w : Z.
Variable K : list Z.
Variable R0 R1 r0 r1 : Z * Z * Z.

Definition wrap (x : Z) : Z := x mod 2 ^ w.

Definition rotr (n x : Z) : Z :=
  wrap (Z.lor (Z.shiftr x n) (Z.shiftl x (w - n))).

Definition bigSigma (r : Z * Z * Z) (x : Z) : Z :=
  let '(a, b, c) := r in Z.lxor (Z.lxor (rotr a x) (rotr b x)) (rotr c x).

Definition smallSigma (r : Z * Z * Z) (x : Z) : Z :=
  let '(a, b, c) := r in Z.lxor (Z.lxor (rotr a x) (rotr b x)) (Z.shiftr x c).

Definition ch (x y z : Z) : Z :=
  Z.lxor (Z.land x y) (Z.land (Z.lxor x (2 ^ w - 1)) z).

Definition maj (x y z : Z) : Z :=
  Z.lxor (Z.lxor (Z.land x y) (Z.land x z)) (Z.land y z).

Definition state : Type := Z * Z * Z * Z * Z * Z * Z * Z.

Definition round (st : state) (k wt : Z) : state :=
  let '(a, b, c, d, e, f, g, h) := st in
  let t1 := h + bigSigma R1 e + ch e f g + k + wt in
  let t2 := bigSigma R0 a + maj a b c in
  (wrap (t1 + t2), a, b, c, wrap (d + t1), e, f, g).

(** [win] holds the sixteen most recent words of the message schedule,
    oldest first. *)
Definition nextW (win : list Z) : Z :=
  wrap (smallSigma r1 (nth 14 win 0) + nth 9 win 0
        + smallSigma r0 (nth 1 win 0) + nth 0 win 0).

Fixpoint rounds (ks win : list Z) (st : state) : state :=
  match ks with
  | [] => st
  | k :: ks1 => rounds ks1 (tl win ++ [nextW win]) (round st k (nth 0 win 0))
  end.

Definition compress (st : state) (block : list Z) : state :=
  let '(a, b, c, d, e, f, g, h) := st in
  let '(a1, b1, c1, d1, e1, f1, g1, h1) := rounds K block st in
  (wrap (a + a1), wrap (b + b1), wrap (c + c1), wrap (d + d1),
   wrap (e + e1), wrap (f + f1), wrap (g + g1), wrap (h + h1)).

Definition wordBytes : nat := Z.to_nat (w / 8).

Definition beWord (bs : list Z) : Z := foldl (λ acc b, acc * 256 + b) 0 bs.

Fixpoint blocks (fuel : nat) (bs : list Z) (st : state) : state :=
  match fuel with
  | O => st
  | S f =>
      match bs with
      | [] => st
      | _ =>
          let blk := take (16 * wordBytes) bs in
          let ws := (λ i, beWord (take wordBytes (drop (i * wordBytes) blk))) <$> seq 0 16 in
          blocks f (drop (16 * wordBytes) bs) (compress st ws)
      end
  end.

Definition bytesBE (n : nat) (x : Z) : list Z :=
  (λ i, x / 256 ^ Z.of_nat i mod 256) <$> rev (seq 0 n).

(** The message, a [0x80] byte, zeros, and the bit length in two
    words, up to a whole number of blocks. *)
Definition pad (msg : list Z) : list Z :=
  let len := Z.of_nat (length msg) in
  let lenBytes := 2 * Z.of_nat wordBytes in
  msg ++ [128]
    ++ replicate (Z.to_nat ((- (len + 1 + lenBytes)) mod (16 * Z.of_nat wordBytes))) 0
    ++ bytesBE (Z.to_nat lenBytes) (len * 8).

Definition digest (iv : state) (n : nat) (msg : list byte) : list byte :=
  let p := pad (Z_of_byte <$> msg) in
  let '(a, b, c, d, e, f, g, h) := blocks (length p) p iv in
  let ws := [a; b; c; d; e; f; g; h] in
  outBytes n (λ i, nth (i / wordBytes) ws 0
                   / 256 ^ Z.of_nat (wordBytes - 1 - i mod wordBytes)).
End Generic.

Definition K256 : list Z := [
    1116352408; 1899447441; 3049323471; 3921009573; 961987163; 1508970993;
    2453635748; 2870763221; 3624381080; 310598401; 607225278; 1426881987;
    1925078388; 2162078206; 2614888103; 3248222580; 3835390401; 4022224774;
    264347078; 604807628; 770255983; 1249150122; 1555081692; 1996064986;
    2554220882; 2821834349; 2952996808; 3210313671; 3336571891; 3584528711;
    113926993; 338241895; 666307205; 773529912; 1294757372; 1396182291;
    1695183700; 1986661051; 2177026350; 2456956037; 2730485921; 2820302411;
    3259730800; 3345764771; 3516065817; 3600352804; 4094571909; 275423344;
    430227734; 506948616; 659060556; 883997877; 958139571; 1322822218;
    1537002063; 1747873779; 1955562222; 2024104815; 2227730452; 2361852424;
    2428436474; 2756734187; 3204031479; 3329325298].

Definition IV256 : state :=
  (1779033703, 3144134277, 1013904242, 2773480762,
   1359893119, 2600822924, 528734635, 1541459225).

Definition K512 : list Z := [
    4794697086780616226; 8158064640168781261; 13096744586834688815;
    16840607885511220156; 4131703408338449720; 6480981068601479193;
    10538285296894168987; 12329834152419229976; 15566598209576043074;
    1334009975649890238; 2608012711638119052; 6128411473006802146;
    8268148722764581231; 9286055187155687089; 11230858885718282805;
    13951009754708518548; 16472876342353939154; 17275323862435702243;
    1135362057144423861; 2597628984639134821; 3308224258029322869;
    5365058923640841347; 6679025012923562964; 8573033837759648693;
    10970295158949994411; 12119686244451234320; 12683024718118986047;
    13788192230050041572; 14330467153632333762; 15395433587784984357;
    489312712824947311; 1452737877330783856; 2861767655752347644;
    3322285676063803686; 5560940570517711597; 5996557281743188959;
    7280758554555802590; 8532644243296465576; 9350256976987008742;
    10552545826968843579; 11727347734174303076; 12113106623233404929;
    14000437183269869457; 14369950271660146224; 15101387698204529176;
    15463397548674623760; 17586052441742319658; 1182934255886127544;
    1847814050463011016; 2177327727835720531; 2830643537854262169;
    3796741975233480872; 4115178125766777443; 5681478168544905931;
    6601373596472566643; 7507060721942968483; 8399075790359081724;
    8693463985226723168; 9568029438360202098; 10144078919501101548;
    10430055236837252648; 11840083180663258601; 13761210420658862357;
    14299343276471374635; 14566680578165727644; 15097957966210449927;
    16922976911328602910; 17689382322260857208; 500013540394364858;
    748580250866718886; 1242879168328830382; 1977374033974150939;
    2944078676154940804; 3659926193048069267; 4368137639120453308;
    4836135668995329356; 5532061633213252278; 6448918945643986474;
    6902733635092675308; 7801388544844847127].

Definition IV512_256 : state :=
  (2463787394917988140, 11481187982095705282, 2563595384472711505,
   10824532655140301501, 10819967247969091555, 13717434660681038226,
   3098927326965381290, 1060366662362279074).

Definition Sum256 : list byte → list byte :=
  digest 32 K256 (2, 13, 22) (6, 11, 25) (7, 18, 3) (17, 19, 10) IV256 32.

Definition Sum512_256 : list byte → list byte :=
  digest 64 K512 (28, 34, 39) (14, 18, 41) (1, 8, 7) (19, 61, 6) IV512_256 32.

End sha2.

Module sha3.

Definition RC : list Z := [
    1; 32898; 9223372036854808714;
    9223372039002292224; 32907; 2147483649;
    9223372039002292353; 9223372036854808585; 138;
    136; 2147516425; 2147483658;
    2147516555; 9223372036854775947; 9223372036854808713;
    9223372036854808579; 9223372036854808578; 9223372036854775936;
    32778; 9223372039002259466; 9223372039002292353;
    9223372036854808704; 2147483649; 9223372039002292232].

(** Rotation of each lane, and for each lane the lane that the
    permutation pi moves there; lane [(x, y)] has index [x + 5 y]. *)
Definition rotc : list Z :=
  [0; 1; 62; 28; 27; 36; 44; 6; 55; 20; 3; 10; 43; 25; 39; 41; 45; 15; 21; 8; 18; 2; 61; 56; 14].

Definition src : list nat :=
  [0; 6; 12; 18; 24; 3; 9; 10; 16; 22; 1; 7; 13; 19; 20; 4; 5; 11; 17; 23; 2; 8; 14; 15; 21]%nat.

Definition mask : Z := 18446744073709551615.

Definition rotl (n x : Z) : Z :=
  Z.land (Z.lor (Z.shiftl x n) (Z.shiftr x (64 - n))) mask.

Definition lane (A : list Z) (i : nat) : Z := nth i A 0.

Definition theta (A : list Z) : list Z :=
  let C := (λ x, Z.lxor (Z.lxor (Z.lxor (Z.lxor (lane A x) (lane A (x + 5)))
                   (lane A (x + 10))) (lane A (x + 15))) (lane A (x + 20))) <$> seq 0 5 in
  let D := (λ x, Z.lxor (lane C ((x + 4) mod 5)) (rotl 1 (lane C ((x + 1) mod 5)))) <$> seq 0 5 in
  (λ i, Z.lxor (lane A i) (lane D (i mod 5))) <$> seq 0 25.

Definition rhopi (A : list Z) : list Z :=
  (λ d, let i := nth d src O in rotl (nth i rotc 0) (lane A i)) <$> seq 0 25.

Definition chi (B : list Z) : list Z :=
  (λ i, let x := (i mod 5)%nat in let y := (i / 5)%nat in
        Z.lxor (lane B i)
          (Z.land (Z.lxor (lane B ((x + 1) mod 5 + 5 * y)) mask)
                  (lane B ((x + 2) mod 5 + 5 * y)))) <$> seq 0 25.

Definition iota (rc : Z) (A : list Z) : list Z :=
  match A with
  | a :: rest => Z.lxor a rc :: rest
  | [] => []
  end.

Definition round (A : list Z) (rc : Z) : list Z := iota rc (chi (rhopi (theta A))).

Definition keccakF (A : list Z) : list Z := foldl round A RC.

Definition leWord (bs : list Z) : Z := foldr (λ b acc, b + 256 * acc) 0 bs.

Fixpoint absorb (fuel rate : nat) (bs A : list Z) : list Z :=
  match fuel with
  | O => A
  | S f =>
      match bs with
      | [] => A
      | _ =>
          let blk := take rate bs in
          let A1 := (λ i, if (i <? rate / 8)%nat
                          then Z.lxor (lane A i) (leWord (take 8 (drop (8 * i) blk)))
                          else lane A i) <$> seq 0 25 in
          absorb f rate (drop rate bs) (keccakF A1)
      end
  end.

(** SHA-3 padding: the domain bits [01] and [pad10*1]. *)
Definition pad (rate : nat) (msg : list Z) : list Z :=
  let q := (rate - length msg mod rate)%nat in
  if (q =? 1)%nat then msg ++ [134]
  else msg ++ [6] ++ replicate (q - 2) 0 ++ [128].

Definition digest (rate n : nat) (msg : list byte) : list byte :=
  let p := pad rate (Z_of_byte <$> msg) in
  let A := absorb (length p) rate p (replicate 25 0) in
  outBytes n (λ i, lane A (i / 8) / 256 ^ Z.of_nat (i mod 8)).

Definition Sum256 : list byte → list byte := digest 136 32.
Definition Sum512 : list byte → list byte := digest 72 64.

End sha3.

Module blake2b.

Definition IV : list Z := [
    7640891576956012808; 13503953896175478587; 4354685564936845355;
    11912009170470909681; 5840696475078001361; 11170449401992604703;
    2270897969802886507; 6620516959819538809].

Definition SIGMA : list (list nat) := [
    [0; 1; 2; 3; 4; 5; 6; 7; 8; 9; 10; 11; 12; 13; 14; 15];
    [14; 10; 4; 8; 9; 15; 13; 6; 1; 12; 0; 2; 11; 7; 5; 3];
    [11; 8; 12; 0; 5; 2; 15; 13; 10; 14; 3; 6; 7; 1; 9; 4];
    [7; 9; 3; 1; 13; 12; 11; 14; 2; 6; 5; 10; 4; 0; 15; 8];
    [9; 0; 5; 7; 2; 4; 10; 15; 14; 1; 11; 12; 6; 8; 3; 13];
    [2; 12; 6; 10; 0; 11; 8; 3; 4; 13; 7; 5; 15; 14; 1; 9];
    [12; 5; 1; 15; 14; 13; 4; 10; 0; 7; 6; 3; 9; 2; 8; 11];
    [13; 11; 7; 14; 12; 1; 3; 9; 5; 0; 15; 4; 8; 6; 2; 10];
    [6; 15; 14; 9; 11; 3; 0; 8; 12; 2; 13; 7; 1; 4; 10; 5];
    [10; 2; 8; 4; 7; 6; 1; 5; 15; 11; 9; 14; 3; 12; 13; 0]]%nat.

Definition mask : Z := 18446744073709551615.

Definition rotr (n x : Z) : Z :=
  Z.land (Z.lor (Z.shiftr x n) (Z.shiftl x (64 - n))) mask.

Definition at_ (v : list Z) (i : nat) : Z := nth i v 0.

Definition G (v : list Z) (a b c d : nat) (x y : Z) : list Z :=
  let v := <[a := Z.land (at_ v a + at_ v b + x) mask]> v in
  let v := <[d := rotr 32 (Z.lxor (at_ v d) (at_ v a))]> v in
  let v := <[c := Z.land (at_ v c + at_ v d) mask]> v in
  let v := <[b := rotr 24 (Z.lxor (at_ v b) (at_ v c))]> v in
  let v := <[a := Z.land (at_ v a + at_ v b + y) mask]> v in
  let v := <[d := rotr 16 (Z.lxor (at_ v d) (at_ v a))]> v in
  let v := <[c := Z.land (at_ v c + at_ v d) mask]> v in
  <[b := rotr 63 (Z.lxor (at_ v b) (at_ v c))]> v.

Definition mix (m : list Z) (v : list Z) (s : list nat) : list Z :=
  let w (i : nat) := at_ m (nth i s O) in
  let v := G v 0 4 8 12 (w 0%nat) (w 1%nat) in
  let v := G v 1 5 9 13 (w 2%nat) (w 3%nat) in
  let v := G v 2 6 10 14 (w 4%nat) (w 5%nat) in
  let v := G v 3 7 11 15 (w 6%nat) (w 7%nat) in
  let v := G v 0 5 10 15 (w 8%nat) (w 9%nat) in
  let v := G v 1 6 11 12 (w 10%nat) (w 11%nat) in
  let v := G v 2 7 8 13 (w 12%nat) (w 13%nat) in
  G v 3 4 9 14 (w 14%nat) (w 15%nat).

Definition leWord (bs : list Z) : Z := foldr (λ b acc, b + 256 * acc) 0 bs.

(** [t] is the number of bytes fed so far; the last block flips [v14]. *)
Definition compress (h : list Z) (blk : list Z) (t : Z) (last : bool) : list Z :=
  let m := (λ i, leWord (take 8 (drop (8 * i) blk))) <$> seq 0 16 in
  let v := h ++ IV in
  let v := <[12%nat := Z.lxor (at_ v 12) (Z.land t mask)]> v in
  let v := <[13%nat := Z.lxor (at_ v 13) (Z.shiftr t 64)]> v in
  let v := if last then <[14%nat := Z.lxor (at_ v 14) mask]> v else v in
  let v := foldl (mix m) v (SIGMA ++ take 2 SIGMA) in
  (λ i, Z.lxor (Z.lxor (at_ h i) (at_ v i)) (at_ v (i + 8))) <$> seq 0 8.

Fixpoint blocks (fuel : nat) (bs : list Z) (t : Z) (h : list Z) : list Z :=
  match fuel with
  | O => h
  | S f =>
      if (128 <? length bs)%nat
      then blocks f (drop 128 bs) (t + 128) (compress h (take 128 bs) (t + 128) false)
      else compress h (bs ++ replicate (128 - length bs) 0)
             (t + Z.of_nat (length bs)) true
  end.

(** Unkeyed, with a digest of [n] bytes: [blake2b.New256(nil)] for
    [n = 32]. *)
Definition digest (n : nat) (msg : list byte) : list byte :=
  let h0 := <[0%nat := Z.lxor (at_ IV 0) (Z.lxor 16842752 (Z.of_nat n))]> IV in
  let h := blocks (S (length msg)) (Z_of_byte <$> msg) 0 h0 in
  outBytes n (λ i, at_ h (i / 8) / 256 ^ Z.of_nat (i mod 8)).

Definition Sum256 : list byte → list byte := digest 32.

End blake2b.

(** A parser for plain URLs: [scheme://host] followed by an empty or
    absolute path, or an absolute path alone, written with letters, digits
    and [-._~]. On these [url.Parse] succeeds and [URL.String] prints the
    text it read; every other text is refused here. *)

Module plain.

Definition lower (c : ascii) : bool :=
  let n := nat_of_ascii c in ((97 <=? n) && (n <=? 122))%nat.

Definition mark (c : ascii) : bool :=
  Ascii.eqb c "-" || Ascii.eqb c "." || Ascii.eqb c "_" || Ascii.eqb c "~".

Definition hostByte (c : ascii) : bool :=
  lower c || time.isDigit c || Ascii.eqb c "-" || Ascii.eqb c ".".

Definition pathByte (c : ascii) : bool :=
  url.isAlnum c || mark c || Ascii.eqb c "/".

Definition absPath (p : string) : bool :=
  match p with
  | String a (String b _) => Ascii.eqb a "/" && negb (Ascii.eqb b "/") && strings.all pathByte p
  | String a EmptyString => Ascii.eqb a "/"
  | EmptyString => false
  end.

Definition authorityPath (s : string) : bool :=
  match s with
  | String a (String b t) =>
      Ascii.eqb a "/" && Ascii.eqb b "/" &&
      match strings.cutAt "/" t with
      | Some (host, p) =>
          negb (bool_decide (host = EmptyString)) && strings.all hostByte host
          && strings.all pathByte p
      | None => negb (bool_decide (t = EmptyString)) && strings.all hostByte t
      end
  | _ => false
  end.

Definition accepts (s : string) : bool :=
  match strings.cutAt ":" s with
  | Some (scheme, rest) =>
      negb (bool_decide (scheme = EmptyString)) && strings.all lower scheme
      && authorityPath rest
  | None => absPath s
  end.

Definition parseHier (s : string) : option string :=
  if accepts s then Some s else None.

(** Fragments of unreserved characters are printed as they were read. *)
Definition setFragment (f : string) : option string :=
  if strings.all (λ c, url.isAlnum c || mark c) f then Some f else None.

End plain.

(** The digests by constructor, and the signing of the package's tests run
    end to end: [New], [Sign], [url.Parse] and [Verify] in a row, as the
    README's [verifyURL] does. *)

Module reference.
Import hash.

Definition Sum (h : Hasher) : list byte → list byte :=
  match h with
  | SHA256 => sha2.Sum256
  | SHA512_256 => sha2.Sum512_256
  | SHA3_256 => sha3.Sum256
  | SHA3_512 => sha3.Sum512
  | BLAKE2b_256 => blake2b.Sum256
  end.

End reference.

(** * Vocabulary of the properties *)

(** ** Classes of bytes *)

Definition allAscii (p : ascii → bool) : bool :=
  forallb p (ascii_of_nat <$> seq 0 256).

Definition queryByte (c : ascii) : bool :=
  url.isAlnum c || Ascii.eqb c "-" || Ascii.eqb c "_" || Ascii.eqb c "." || Ascii.eqb c "~"
  || Ascii.eqb c "%" || Ascii.eqb c "+".

Definition encodedByte (c : ascii) : bool :=
  queryByte c || Ascii.eqb c "=" || Ascii.eqb c "&".

Definition base64Byte (c : ascii) : bool :=
  url.isAlnum c || Ascii.eqb c "-" || Ascii.eqb c "_".

Definition plainByte (c : ascii) : bool :=
  plain.pathByte c || Ascii.eqb c ":".

Definition escByte (c : ascii) : string := url.QueryEscape (String c "").

Fixpoint zeros (k : nat) : string :=
  match k with
  | O => ""
  | S k1 => String "0" (zeros k1)
  end.

(** ** Queries *)

(** No key is bound to an empty list: [ParseQuery] only appends, [Set]
    binds one value and [Del] removes the key. *)
Definition proper (v : url.Values) : Prop := ∀ k, v !! k ≠ Some [].

(** The key and value of one [&]-separated segment of a raw query, as
    [parseQuery] reads it. *)
Definition decodePair (seg : string) : option (string * string) :=
  if strings.ContainsByte seg ";" then None
  else if bool_decide (seg = "") then None
  else let '(key, value, _) := strings.Cut seg "=" in
       k ← url.QueryUnescape key; x ← url.QueryUnescape value; Some (k, x).

(** The values of [key] in a raw query, in the order of the text. *)
Definition valuesOf (key rawQuery : string) : list string :=
  (filter (λ p, p.1 = key) (omap decodePair (strings.fields "&" rawQuery))).*2.

(** ** Signed URLs *)

Section Vocabulary.
Context `{url.Syntax} `{hash.Digests}.

(** The URL came out of the parser: its hierarchical part is a parsed
    one and its fragment, when there is one, is in printed form. *)
Definition parsed (u : url.URL) : Prop :=
  (∃ s, url.parseHier s = Some (url.hier u))
  ∧ (url.frag u = "" ∨ url.setFragment (url.frag u) = Some (url.frag u)).

Definition fragString (u : url.URL) : string :=
  if bool_decide (url.frag u = "") then "" else String "#" (url.frag u).

(** The tag of a message under a keyed hash. *)
Definition tag (hm : hmac.HMAC) (msg : string) : list byte :=
  hmac.Sum_ (hmac.Write hm (utils.UnsafeBytes msg)) [].

(** The message [Verify] recomputes the tag of. *)
Definition canonical (u : url.URL) : string :=
  url.String_ (url.withRawQuery u
    (url.Encode (url.Del (url.Query u) urlsigner.Signature))).

(** The query [Sign] signs. *)
Definition signedQuery (s : urlsigner.HMACSigner) (u : url.URL) (D : Z) : url.Values :=
  if negb (D =? 0)
  then url.Set_ (url.Query u) "expires"
         (time.Format (time.Add (urlsigner.now s ()) D))
  else url.Query u.

Definition signedMessage (s : urlsigner.HMACSigner) (u : url.URL) (D : Z) : string :=
  url.String_ (url.withRawQuery u (url.Encode (signedQuery s u D))).

Definition signedRawQuery (s : urlsigner.HMACSigner) (hm : hmac.HMAC)
    (u : url.URL) (D : Z) : string :=
  let enc := url.Encode (signedQuery s u D) in
  let sg := base64.EncodeToString (tag hm (signedMessage s u D)) in
  if bool_decide (enc = "") then urlsigner.Signature +:+ "=" +:+ sg
  else enc +:+ "&" +:+ urlsigner.Signature +:+ "=" +:+ sg.

(** What [New] returns on a key of valid length, with the clock at [t]. *)
Definition testSigner (algo : string) (key : list byte) (t : Z) : urlsigner.HMACSigner :=
  {| urlsigner.now := λ _, t;
     urlsigner.hasher := λ _, obind (utils.ParseHasher algo)
                                (λ h, Return (hmac.New h key)) |}.

(** What [url.Parse] returns on a URL with a query and no fragment. *)
Definition parsedURL (head : url.Hier) (rawQuery : string) : url.URL :=
  url.mkURL _ head false rawQuery "".

End Vocabulary.

(** ** Vocabulary of the further properties *)

(** A hexadecimal digit of either case. *)
Definition isHexDigit (c : ascii) : bool := bool_decide (is_Some (hex.fromHexChar c)).

(** A byte that is ASCII and no space. *)
Definition wordByte (b : Z) : bool :=
  (b <? 128) && negb (((9 <=? b) && (b <=? 13)) || (b =? 32)).

(** A list element as [GetStringsEnv] returns it unchanged: not empty,
    without a comma, with a first and a last byte that are ASCII and no
    spaces. *)
Definition word (x : string) : Prop :=
  x ≠ "" ∧ strings.ContainsByte x "," = false
  ∧ wordByte (utf8.byteAt x 0) = true
  ∧ wordByte (utf8.byteAt x (Z.of_nat (String.length x) - 1)) = true.

(** What trimming keeps is part of what it was given. *)
Definition within (t s : string) : Prop :=
  ∀ c, strings.ContainsByte t c = true → strings.ContainsByte s c = true.

(** The loop of [GetStringsEnv] over the pieces of the value. *)
Definition collect (pieces : list string) (acc : list string) : list string :=
  foldl (λ vals v,
           let v := strings.TrimSpace v in
           if bool_decide (v = "") then vals else vals ++ [v])
    acc pieces.

(** The bytes of a string. *)
Definition chars (s : string) : list ascii := String.list_ascii_of_string s.

(** A random source that keeps the promise of [rand.Int]: a number it
    returns for a positive [max] is not negative and below [max]. *)
Definition honest (randInt : nat → Z → option Z) : Prop :=
  ∀ n max r, 0 < max → randInt n max = Some r → 0 ≤ r < max.

(** A random source one of whose draws, with a positive bound, fails. *)
Definition failing (randInt : nat → Z → option Z) : Prop :=
  ∃ n max, 0 < max ∧ randInt n max = None.

Section FilesVocabulary.
Context `{utils.FileSystem}.

(** One directory up: [GetAbsolutePath(filepath.Join(dir, ".."))]. *)
Definition up (dir : string) : string :=
  (utils.GetAbsolutePath (utils.Join dir "..")).1.

Definition climb (k : nat) (dir : string) : string := Nat.iter k up dir.

(** [d] is the first directory with an entry [name] on the way up
    from [wd], [k] directories up: the directories below it can be
    read, have no such entry, are not [stop], and have a parent. *)
Definition nearest (name stop wd d : string) (k : nat) : Prop :=
  d = climb k wd
  ∧ (∃ es, utils.ReadDir d = (es, None) ∧ name ∈ es)
  ∧ ∀ i, (i < k)%nat →
      (∃ es, utils.ReadDir (climb i wd) = (es, None) ∧ name ∉ es)
      ∧ climb i wd ≠ stop
      ∧ (utils.GetAbsolutePath (utils.Join (climb i wd) "..")).2 = None.

End FilesVocabulary.

(** A byte that padded base64 has no use for: not in the standard
    alphabet, not the padding character, not a newline. *)
Definition strayByte (c : ascii) : bool :=
  bool_decide (base64.decodeMapStd c = None) && negb (base64.isNewline c)
  && negb (Ascii.eqb c "=").

(** The integer that a text spells in decimal: digits, at least one,
    after an optional sign. *)
Definition digitsValue (ds : string) : option Z :=
  if bool_decide (ds ≠ "") && strings.all time.isDigit ds
  then Some (time.atoiAcc 0 ds) else None.

Definition decimal (s : string) : option Z :=
  match s with
  | EmptyString => None
  | String c t =>
      if Ascii.eqb c "+" then digitsValue t
      else if Ascii.eqb c "-" then Z.opp <$> digitsValue t
      else digitsValue s
  end.

(** * Properties *)

(** ** Strings *)

Lemma app_nil_r_s (s : string) : s +:+ "" = s.
Proof. induction s; unfold String.app in *; simpl; congruence. Qed.

Lemma app_assoc_s (a b c : string) : (a +:+ b) +:+ c = a +:+ (b +:+ c).
Proof. induction a; unfold String.app in *; simpl; congruence. Qed.

Lemma app_cons_s (x : ascii) (a b : string) : String x a +:+ b = String x (a +:+ b).
Proof. reflexivity. Qed.

Lemma app_nil_l_s (s : string) : "" +:+ s = s.
Proof. reflexivity. Qed.

Lemma app_eq_nil_s (a b : string) : a +:+ b = "" → a = "" ∧ b = "".
Proof. destruct a; [auto | discriminate]. Qed.

Lemma length_app_s (a b : string) :
  String.length (a +:+ b) = (String.length a + String.length b)%nat.
Proof. induction a; unfold String.app in *; simpl; congruence. Qed.

Lemma all_app (p : ascii → bool) (a b : string) :
  strings.all p (a +:+ b) = strings.all p a && strings.all p b.
Proof.
  induction a as [|x a IH]; [reflexivity|].
  rewrite app_cons_s. simpl. rewrite IH. apply andb_assoc.
Qed.

Lemma all_impl (p q : ascii → bool) (s : string) :
  (∀ c, p c = true → q c = true) → strings.all p s = true → strings.all q s = true.
Proof.
  intros Hpq. induction s as [|x s IH]; [reflexivity|]. simpl.
  intros [Hx Hs]%andb_true_iff. rewrite (Hpq _ Hx). simpl. auto.
Qed.

Lemma all_ContainsByte (p : ascii → bool) (s : string) (c : ascii) :
  p c = false → strings.all p s = true → strings.ContainsByte s c = false.
Proof.
  intros Hc. induction s as [|x s IH]; [reflexivity|]. simpl.
  intros [Hx Hs]%andb_true_iff. rewrite (IH Hs), orb_false_r.
  apply Ascii.eqb_neq. intros ->. congruence.
Qed.

Lemma ContainsByte_app (a b : string) (c : ascii) :
  strings.ContainsByte (a +:+ b) c = strings.ContainsByte a c || strings.ContainsByte b c.
Proof.
  induction a as [|x a IH]; [reflexivity|].
  rewrite app_cons_s. simpl. rewrite IH. apply orb_assoc.
Qed.

Lemma cutAt_None (c : ascii) (s : string) :
  strings.ContainsByte s c = false → strings.cutAt c s = None.
Proof.
  induction s as [|x s IH]; [reflexivity|]. simpl.
  intros [Hx Hs]%orb_false_iff. rewrite Hx, (IH Hs). reflexivity.
Qed.

Lemma cutAt_app (c : ascii) (a b : string) :
  strings.ContainsByte a c = false →
  strings.cutAt c (a +:+ String c b) = Some (a, b).
Proof.
  induction a as [|x a IH]; simpl.
  - intros _. rewrite Ascii.eqb_refl. reflexivity.
  - intros [Hx Ha]%orb_false_iff. rewrite Hx, (IH Ha). reflexivity.
Qed.

Lemma Cut_app (c : ascii) (a b : string) :
  strings.ContainsByte a c = false →
  strings.Cut (a +:+ String c b) c = (a, b, true).
Proof. intros Ha. unfold strings.Cut. rewrite (cutAt_app _ _ _ Ha). reflexivity. Qed.

Lemma Cut_None (c : ascii) (s : string) :
  strings.ContainsByte s c = false → strings.Cut s c = (s, "", false).
Proof. intros Hs. unfold strings.Cut. rewrite (cutAt_None _ _ Hs). reflexivity. Qed.

Lemma fields_nonempty (c : ascii) (s : string) : strings.fields c s ≠ [].
Proof.
  induction s as [|x s IH]; simpl; [discriminate|].
  destruct (Ascii.eqb x c); [discriminate|].
  destruct (strings.fields c s); discriminate.
Qed.

Lemma fields_single (c : ascii) (s : string) :
  strings.ContainsByte s c = false → strings.fields c s = [s].
Proof.
  induction s as [|x s IH]; [reflexivity|]. simpl.
  intros [Hx Hs]%orb_false_iff. rewrite Hx, (IH Hs). reflexivity.
Qed.

Lemma fields_app (c : ascii) (a b : string) :
  strings.ContainsByte a c = false →
  strings.fields c (a +:+ String c b) = a :: strings.fields c b.
Proof.
  induction a as [|x a IH]; simpl.
  - intros _. rewrite Ascii.eqb_refl. reflexivity.
  - intros [Hx Ha]%orb_false_iff. rewrite Hx, (IH Ha). reflexivity.
Qed.

Lemma fields_Join (c : ascii) (segs : list string) :
  segs ≠ [] →
  Forall (λ s, strings.ContainsByte s c = false) segs →
  strings.fields c (strings.Join segs (String c "")) = segs.
Proof.
  induction segs as [|x segs IH]; [done|]. intros _ Hall.
  inversion Hall as [|? ? Hx Hsegs]; subst.
  destruct segs as [|y segs].
  - simpl. apply fields_single, Hx.
  - change (strings.Join (x :: y :: segs) (String c ""))
      with (x +:+ String c "" +:+ strings.Join (y :: segs) (String c "")).
    change (String c "" +:+ strings.Join (y :: segs) (String c ""))
      with (String c (strings.Join (y :: segs) (String c ""))).
    rewrite (fields_app _ _ _ Hx), IH; [done | done | done].
Qed.

(** ** Facts about single bytes, by enumeration *)

Lemma allAscii_spec (p : ascii → bool) : allAscii p = true → ∀ c, p c = true.
Proof.
  unfold allAscii. rewrite forallb_forall. intros Hall c. apply Hall.
  rewrite <- (ascii_nat_embedding c). apply in_map, in_seq.
  pose proof (nat_ascii_bounded c). lia.
Qed.

Ltac by_enumeration := apply allAscii_spec; vm_compute; reflexivity.

(** ** Query escaping *)

Lemma QueryEscape_cons (c : ascii) (t : string) :
  url.QueryEscape (String c t) = escByte c +:+ url.QueryEscape t.
Proof.
  unfold escByte. simpl.
  destruct (url.shouldEscape c); [destruct (Ascii.eqb c " ")|]; reflexivity.
Qed.

Lemma escByte_bytes (c : ascii) : strings.all queryByte (escByte c) = true.
Proof. revert c. by_enumeration. Qed.

Lemma escByte_unescape (c : ascii) :
  url.QueryUnescape (escByte c) = Some (String c "").
Proof.
  cut (bool_decide (url.QueryUnescape (escByte c) = Some (String c "")) = true).
  { apply bool_decide_eq_true_1. }
  revert c. by_enumeration.
Qed.

Lemma QueryEscape_bytes (s : string) : strings.all queryByte (url.QueryEscape s) = true.
Proof.
  induction s as [|c s IH]; [reflexivity|].
  rewrite QueryEscape_cons, all_app, escByte_bytes, IH. reflexivity.
Qed.

Lemma QueryUnescape_escByte (c : ascii) (r : string) :
  url.QueryUnescape (escByte c +:+ r) = String c <$> url.QueryUnescape r.
Proof.
  pose proof (escByte_unescape c) as Hc. unfold escByte in *. simpl in *.
  destruct (url.shouldEscape c); [destruct (Ascii.eqb_spec c " ") as [->|_]|]; simpl in *;
    change ("" +:+ r) with r.
  - reflexivity.
  - destruct (url.ishex _ && url.ishex _); [|discriminate]. simpl in *.
    destruct (url.QueryUnescape r); simpl in *; congruence.
  - destruct (Ascii.eqb c "%"); [discriminate|].
    destruct (Ascii.eqb c "+"); simpl in *; [|reflexivity].
    destruct (url.QueryUnescape r); simpl in *; congruence.
Qed.

Lemma QueryUnescape_QueryEscape (s : string) :
  url.QueryUnescape (url.QueryEscape s) = Some s.
Proof.
  induction s as [|c s IH]; [reflexivity|].
  rewrite QueryEscape_cons, QueryUnescape_escByte, IH. reflexivity.
Qed.

Lemma QueryEscape_no (s : string) (c : ascii) :
  queryByte c = false → strings.ContainsByte (url.QueryEscape s) c = false.
Proof. intros Hc. eapply all_ContainsByte; [exact Hc | apply QueryEscape_bytes]. Qed.

Lemma QueryEscape_inj (a b : string) : url.QueryEscape a = url.QueryEscape b → a = b.
Proof.
  intros Heq. pose proof (QueryUnescape_QueryEscape a) as Ha.
  rewrite Heq, QueryUnescape_QueryEscape in Ha. congruence.
Qed.

Lemma QueryEscape_unreserved (s : string) :
  strings.all (λ c, negb (url.shouldEscape c)) s = true → url.QueryEscape s = s.
Proof.
  induction s as [|c s IH]; [reflexivity|]. simpl.
  intros [Hc Hs]%andb_true_iff. apply negb_true_iff in Hc. rewrite Hc, (IH Hs). reflexivity.
Qed.

(** ** [url.Values]: parsing what [Encode] wrote *)

Lemma vals_insert_eq (m : url.Values) (k : string) (xs : list string) :
  url.vals (<[k := xs]> m) k = xs.
Proof. unfold url.vals. rewrite lookup_insert_eq. reflexivity. Qed.

Lemma vals_insert_ne (m : url.Values) (k k' : string) (xs : list string) :
  k ≠ k' → url.vals (<[k := xs]> m) k' = url.vals m k'.
Proof. intros Hne. unfold url.vals. rewrite lookup_insert_ne by done. reflexivity. Qed.

Lemma vals_None (m : url.Values) (k : string) : m !! k = None → url.vals m k = [].
Proof. intros Hk. unfold url.vals. rewrite Hk. reflexivity. Qed.

Lemma vals_Some (m : url.Values) (k : string) (xs : list string) :
  m !! k = Some xs → url.vals m k = xs.
Proof. intros Hk. unfold url.vals. rewrite Hk. reflexivity. Qed.

Lemma parsePair_empty (m : url.Values) : url.parsePair m "" = m.
Proof. reflexivity. Qed.

Lemma parsePair_escaped (m : url.Values) (k x : string) :
  url.parsePair m (url.QueryEscape k +:+ "=" +:+ url.QueryEscape x)
  = <[k := url.vals m k ++ [x]]> m.
Proof.
  unfold url.parsePair.
  change ("=" +:+ url.QueryEscape x) with (String "="%char (url.QueryEscape x)).
  rewrite ContainsByte_app. simpl.
  rewrite !QueryEscape_no by reflexivity. simpl.
  rewrite bool_decide_eq_false_2.
  2:{ intros Heq. apply app_eq_nil_s in Heq as [_ ?]. discriminate. }
  rewrite Cut_app by (apply QueryEscape_no; reflexivity).
  rewrite !QueryUnescape_QueryEscape. reflexivity.
Qed.

Lemma parsePair_proper (m : url.Values) (seg : string) :
  proper m → proper (url.parsePair m seg).
Proof.
  intros Hm. unfold url.parsePair.
  repeat case_match; try done.
  intros k. destruct (decide (k = s1)) as [->|Hne].
  - rewrite lookup_insert_eq. intros [=Heq]. by apply app_eq_nil in Heq as [_ ?].
  - rewrite lookup_insert_ne by done. apply Hm.
Qed.

Lemma ParseQuery_proper (q : string) : proper (url.ParseQuery q).
Proof.
  unfold url.ParseQuery.
  assert (Hfold : ∀ l m, proper m → proper (foldl url.parsePair m l)).
  { induction l as [|x l IH]; intros m Hm; simpl; [done|].
    apply IH, parsePair_proper, Hm. }
  apply Hfold. intros k. rewrite lookup_empty. discriminate.
Qed.

Lemma Set_proper (v : url.Values) (k x : string) : proper v → proper (url.Set_ v k x).
Proof.
  intros Hv k'. unfold url.Set_. destruct (decide (k' = k)) as [->|Hne].
  - rewrite lookup_insert_eq. discriminate.
  - rewrite lookup_insert_ne by done. apply Hv.
Qed.

Lemma Del_proper (v : url.Values) (k : string) : proper v → proper (url.Del v k).
Proof.
  intros Hv k'. unfold url.Del. destruct (decide (k' = k)) as [->|Hne].
  - rewrite lookup_delete_eq. discriminate.
  - rewrite lookup_delete_ne by done. apply Hv.
Qed.

(** The values of one key, written by [Encode] and read back, are appended
    to that key. *)
Lemma parse_encodeKey (v m : url.Values) (k : string) :
  foldl url.parsePair m (url.encodeKey v k)
  = match url.vals v k with
    | [] => m
    | xs => <[k := url.vals m k ++ xs]> m
    end.
Proof.
  unfold url.encodeKey. generalize (url.vals v k) as xs. intros xs. revert m.
  induction xs as [|x xs IH]; intros m; [reflexivity|].
  rewrite fmap_cons. simpl foldl. rewrite parsePair_escaped, IH.
  destruct xs as [|y xs]; [reflexivity|].
  rewrite vals_insert_eq, insert_insert_eq, <- app_assoc. reflexivity.
Qed.

Lemma parse_encodeKeys (v : url.Values) (ks : list string) (m : url.Values) :
  proper v → NoDup ks →
  (∀ k, k ∈ ks → m !! k = None ∧ is_Some (v !! k)) →
  ∀ k, foldl url.parsePair m (ks ≫= url.encodeKey v) !! k
       = if decide (k ∈ ks) then v !! k else m !! k.
Proof.
  intros Hv. revert m. induction ks as [|k0 ks IH]; intros m Hnd Hks k.
  - simpl. destruct (decide (k ∈ [])) as [Hin|Hin]; [by apply elem_of_nil in Hin | done].
  - apply NoDup_cons in Hnd as [Hk0 Hnd].
    rewrite bind_cons, foldl_app, parse_encodeKey.
    destruct (Hks k0 ltac:(left)) as [Hm0 [xs Hxs]].
    rewrite (vals_Some _ _ _ Hxs), (vals_None _ _ Hm0). simpl.
    destruct xs as [|x xs]; [by destruct (Hv k0)|].
    rewrite IH; [|done|].
    + destruct (decide (k = k0)) as [->|Hne].
      * rewrite decide_False by done. rewrite decide_True by left.
        rewrite lookup_insert_eq. done.
      * rewrite lookup_insert_ne by done.
        destruct (decide (k ∈ ks)) as [Hin|Hin].
        -- rewrite decide_True by (by right). done.
        -- rewrite decide_False; [done|]. by intros [?|?]%elem_of_cons.
    + intros k1 Hk1. destruct (Hks k1 ltac:(by right)) as [Hm1 Hv1].
      split; [|done]. rewrite lookup_insert_ne; [done|]. by intros ->.
Qed.

Lemma sortedKeys_elem (v : url.Values) (k : string) :
  k ∈ url.sortedKeys v ↔ is_Some (v !! k).
Proof.
  unfold url.sortedKeys. rewrite merge_sort_Permutation.
  rewrite list_elem_of_fmap. split.
  - intros [[k1 xs] [-> Hin]]. apply elem_of_map_to_list in Hin. simpl. eauto.
  - intros [xs Hxs]. exists (k, xs). split; [done|]. by apply elem_of_map_to_list.
Qed.

Lemma sortedKeys_NoDup (v : url.Values) : NoDup (url.sortedKeys v).
Proof.
  unfold url.sortedKeys. rewrite merge_sort_Permutation.
  apply NoDup_fst_map_to_list.
Qed.

Lemma encodeKey_no_amp (v : url.Values) (ks : list string) :
  Forall (λ s, strings.ContainsByte s "&" = false) (ks ≫= url.encodeKey v).
Proof.
  apply Forall_forall. intros seg Hin.
  apply list_elem_of_bind in Hin as [k [Hseg _]].
  unfold url.encodeKey in Hseg. apply list_elem_of_fmap in Hseg as [x [-> _]].
  change ("=" +:+ url.QueryEscape x) with (String "="%char (url.QueryEscape x)).
  rewrite ContainsByte_app. simpl. rewrite !QueryEscape_no by reflexivity. reflexivity.
Qed.

Lemma ParseQuery_Encode_fold (v : url.Values) :
  url.ParseQuery (url.Encode v)
  = foldl url.parsePair ∅ (url.sortedKeys v ≫= url.encodeKey v).
Proof.
  unfold url.ParseQuery, url.Encode.
  destruct (url.sortedKeys v ≫= url.encodeKey v) as [|seg segs] eqn:Hsegs; [reflexivity|].
  rewrite (fields_Join "&"); [done | done |].
  rewrite <- Hsegs. apply encodeKey_no_amp.
Qed.

(** [ParseQuery] inverts [Encode]. *)
Lemma ParseQuery_Encode (v : url.Values) : proper v → url.ParseQuery (url.Encode v) = v.
Proof.
  intros Hv. rewrite ParseQuery_Encode_fold. apply map_eq. intros k.
  rewrite (parse_encodeKeys v); [|done|apply sortedKeys_NoDup|].
  - destruct (decide (k ∈ url.sortedKeys v)) as [Hin|Hin]; [done|]. rewrite lookup_empty.
    rewrite sortedKeys_elem in Hin. symmetry. by apply eq_None_not_Some.
  - intros k1 Hk1. split; [apply lookup_empty | by apply sortedKeys_elem].
Qed.

Lemma Encode_inj (v w : url.Values) :
  proper v → proper w → url.Encode v = url.Encode w → v = w.
Proof.
  intros Hv Hw Heq. rewrite <- (ParseQuery_Encode v), <- (ParseQuery_Encode w) by done.
  by rewrite Heq.
Qed.

Lemma fields_app_gen (c : ascii) (a b : string) :
  strings.fields c (a +:+ String c b) = strings.fields c a ++ strings.fields c b.
Proof.
  induction a as [|x a IH]; simpl.
  - rewrite Ascii.eqb_refl. reflexivity.
  - destruct (Ascii.eqb x c); [by rewrite IH|].
    rewrite IH. destruct (strings.fields c a) eqn:Hf; [|reflexivity].
    by destruct (fields_nonempty c a).
Qed.

Lemma ParseQuery_app (a b : string) :
  url.ParseQuery (a +:+ "&" +:+ b)
  = foldl url.parsePair (url.ParseQuery a) (strings.fields "&" b).
Proof.
  unfold url.ParseQuery.
  change ("&" +:+ b) with (String "&"%char b).
  by rewrite fields_app_gen, foldl_app.
Qed.

Lemma all_Join (p : ascii → bool) (segs : list string) (sep : string) :
  Forall (λ s, strings.all p s = true) segs → strings.all p sep = true →
  strings.all p (strings.Join segs sep) = true.
Proof.
  intros Hsegs Hsep. induction Hsegs as [|x segs Hx Hsegs IH]; [reflexivity|].
  destruct segs as [|y segs]; [exact Hx|].
  change (strings.Join (x :: y :: segs) sep) with (x +:+ sep +:+ strings.Join (y :: segs) sep).
  rewrite !all_app, Hx, Hsep, IH. reflexivity.
Qed.

Lemma Encode_bytes (v : url.Values) : strings.all encodedByte (url.Encode v) = true.
Proof.
  unfold url.Encode. apply all_Join; [|reflexivity].
  apply Forall_forall. intros seg Hin.
  apply list_elem_of_bind in Hin as [k [Hseg _]].
  unfold url.encodeKey in Hseg. apply list_elem_of_fmap in Hseg as [x [-> _]].
  assert (Himp : ∀ c, queryByte c = true → encodedByte c = true).
  { intros c Hc. unfold encodedByte. rewrite Hc. reflexivity. }
  rewrite !all_app, !(all_impl _ _ _ Himp (QueryEscape_bytes _)). reflexivity.
Qed.

(** ** Base64 *)

Ltac divlia := Z.div_mod_to_equations; lia.

Lemma Z_of_byte_range (b : byte) : 0 ≤ Z_of_byte b < 256.
Proof. unfold Z_of_byte. pose proof (Byte.to_N_bounded b). lia. Qed.

Lemma byte_of_Z_eq (z : Z) (b : byte) : z mod 256 = Z_of_byte b → byte_of_Z z = b.
Proof.
  intros Hz. unfold byte_of_Z. rewrite Hz. unfold Z_of_byte.
  rewrite N2Z.id, Byte.of_to_N. reflexivity.
Qed.

Lemma byte_of_Z_of_byte (b : byte) : byte_of_Z (Z_of_byte b) = b.
Proof. apply byte_of_Z_eq, Z.mod_small, Z_of_byte_range. Qed.

Lemma encodeURL_spec (i : Z) :
  0 ≤ i < 64 →
  base64Byte (base64.encodeURL i) = true ∧ base64.decodeMap (base64.encodeURL i) = Some i.
Proof.
  intros Hi.
  assert (Hall : forallb (λ n, let i := Z.of_nat n in
            base64Byte (base64.encodeURL i)
            && bool_decide (base64.decodeMap (base64.encodeURL i) = Some i)) (seq 0 64) = true)
    by (vm_compute; reflexivity).
  rewrite forallb_forall in Hall.
  assert (Hin : In (Z.to_nat i) (seq 0 64)) by (apply in_seq; lia).
  apply Hall in Hin. cbv zeta in Hin. rewrite Z2Nat.id in Hin by lia.
  apply andb_true_iff in Hin as [H1 H2].
  split; [done | by apply bool_decide_eq_true_1 in H2].
Qed.

Lemma encodeURL_bytes (i : Z) : 0 ≤ i < 64 → base64Byte (base64.encodeURL i) = true.
Proof. intros Hi. apply (encodeURL_spec i Hi). Qed.

Lemma decodeMap_encodeURL (i : Z) :
  0 ≤ i < 64 → base64.decodeMap (base64.encodeURL i) = Some i.
Proof. intros Hi. apply (encodeURL_spec i Hi). Qed.

Lemma list_ind3 {A} (P : list A → Prop) :
  P [] → (∀ a, P [a]) → (∀ a b, P [a; b]) →
  (∀ a b c l, P l → P (a :: b :: c :: l)) → ∀ l, P l.
Proof.
  intros H0 H1 H2 H3.
  cut (∀ l, P l ∧ (∀ a, P (a :: l)) ∧ (∀ a b, P (a :: b :: l))); [naive_solver|].
  induction l as [|x l (IHa & IHb & IHc)]; [naive_solver|].
  split; [apply IHb|]. split; [intros a; apply IHc|]. intros a b. apply H3, IHa.
Qed.

Lemma EncodeToString_bytes (src : list byte) :
  strings.all base64Byte (base64.EncodeToString src) = true.
Proof.
  induction src as [|a|a b|a b c l IH] using list_ind3; [reflexivity|..];
    pose proof (Z_of_byte_range a); try pose proof (Z_of_byte_range b);
    try pose proof (Z_of_byte_range c); cbn [base64.EncodeToString strings.all];
    rewrite ?IH;
    repeat match goal with
    | |- context [base64Byte (base64.encodeURL ?i)] =>
        rewrite (encodeURL_bytes i) by (apply Z.mod_pos_bound; lia)
    end; reflexivity.
Qed.

Lemma EncodeToString_nonempty (src : list byte) :
  src ≠ [] → base64.EncodeToString src ≠ "".
Proof. destruct src as [|a [|b [|c l]]]; [done|discriminate..]. Qed.

Lemma stripNewlines_id (s : string) :
  strings.all base64Byte s = true → base64.stripNewlines s = s.
Proof.
  induction s as [|c s IH]; [reflexivity|]. simpl.
  intros [Hc Hs]%andb_true_iff. rewrite (IH Hs).
  assert (Hnl : Ascii.eqb c "010" || Ascii.eqb c "013" = false); [|by rewrite Hnl].
  revert Hc. generalize c.
  cut (∀ c, implb (base64Byte c) (negb (Ascii.eqb c "010" || Ascii.eqb c "013")) = true).
  { intros Hall c0 Hc0. specialize (Hall c0). rewrite Hc0 in Hall. simpl in Hall.
    by apply negb_true_iff in Hall. }
  by_enumeration.
Qed.

Ltac sextet_facts :=
  repeat match goal with
  | |- context [base64.decodeMap (base64.encodeURL ?i)] =>
      rewrite (decodeMap_encodeURL i) by (apply Z.mod_pos_bound; lia)
  end.

Lemma DecodeString_EncodeToString (src : list byte) :
  base64.DecodeString (base64.EncodeToString src) = Some src.
Proof.
  unfold base64.DecodeString. rewrite stripNewlines_id by apply EncodeToString_bytes.
  induction src as [|a|a b|a b c l IH] using list_ind3; [reflexivity|..];
    pose proof (Z_of_byte_range a); try pose proof (Z_of_byte_range b);
    try pose proof (Z_of_byte_range c).
  - cbn [base64.EncodeToString base64.sextets]. sextet_facts.
    cbn -[Z.mul Z.div Z.modulo Z.add]. f_equal. f_equal.
    apply byte_of_Z_eq. divlia.
  - cbn [base64.EncodeToString base64.sextets]. sextet_facts.
    cbn -[Z.mul Z.div Z.modulo Z.add]. f_equal.
    f_equal; [|f_equal]; apply byte_of_Z_eq; divlia.
  - cbn [base64.EncodeToString base64.sextets]. sextet_facts.
    destruct (base64.sextets (base64.EncodeToString l)) as [ss|] eqn:Hss; [|discriminate].
    cbn -[Z.mul Z.div Z.modulo Z.add] in *. rewrite IH.
    cbn -[Z.mul Z.div Z.modulo Z.add]. f_equal.
    f_equal; [|f_equal; [|f_equal]]; apply byte_of_Z_eq; divlia.
Qed.

(** ** Calendar *)

Lemma yoe_spec (doe : Z) :
  0 ≤ doe < 146097 →
  let yoe := (doe - doe / 1460 + doe / 36524 - doe / 146096) / 365 in
  0 ≤ yoe < 400 ∧ 365 * yoe + yoe / 4 - yoe / 100 ≤ doe
  ∧ doe < 365 * (yoe + 1) + (yoe + 1) / 4 - (yoe + 1) / 100 + (yoe + 1) / 400.
Proof. intros Hdoe yoe. subst yoe. divlia. Qed.

Lemma month_spec (doy : Z) :
  0 ≤ doy ≤ 365 →
  let mp := (5 * doy + 2) / 153 in
  let d := doy - (153 * mp + 2) / 5 + 1 in
  0 ≤ mp ≤ 11 ∧ 1 ≤ d
  ∧ d ≤ (if mp =? 11 then doy - 336
         else if (mp =? 1) || (mp =? 3) || (mp =? 6) || (mp =? 8) then 30 else 31).
Proof.
  intros Hdoy mp d. subst d.
  assert (Hdef : 153 * mp ≤ 5 * doy + 2 < 153 * mp + 153) by (subst mp; divlia).
  clearbody mp.
  assert (Hcases : mp = 0 ∨ mp = 1 ∨ mp = 2 ∨ mp = 3 ∨ mp = 4 ∨ mp = 5 ∨ mp = 6
                   ∨ mp = 7 ∨ mp = 8 ∨ mp = 9 ∨ mp = 10 ∨ mp = 11) by lia.
  repeat (destruct Hcases as [-> | Hcases]); try subst mp; simpl; divlia.
Qed.

Lemma civilOfDoe_spec (doe yoe m d : Z) :
  0 ≤ doe < 146097 →
  time.civilOfDoe doe = (yoe, m, d) →
  0 ≤ yoe < 400 ∧ 1 ≤ m ≤ 12
  ∧ 1 ≤ d ≤ time.daysIn m (if m <=? 2 then yoe + 1 else yoe)
  ∧ time.doeOfCivil yoe m d = doe.
Proof.
  intros Hdoe. unfold time.civilOfDoe.
  pose proof (yoe_spec doe Hdoe) as Hy. cbv zeta in Hy.
  set (y := (doe - doe / 1460 + doe / 36524 - doe / 146096) / 365) in *.
  set (doy := doe - (365 * y + y / 4 - y / 100)).
  assert (Hdoy : 0 ≤ doy ≤ 365) by (subst doy; divlia).
  pose proof (month_spec doy Hdoy) as Hm. cbv zeta in Hm.
  set (mp := (5 * doy + 2) / 153) in *.
  intros [= <- <- <-].
  destruct Hy as (Hy1 & Hy2 & Hy3). destruct Hm as (Hmp & Hd1 & Hd2).
  set (d := doy - (153 * mp + 2) / 5 + 1) in *.
  assert (Hdd : d = doy - (153 * mp + 2) / 5 + 1) by reflexivity.
  clearbody d mp.
  assert (Hcases : mp = 0 ∨ mp = 1 ∨ mp = 2 ∨ mp = 3 ∨ mp = 4 ∨ mp = 5 ∨ mp = 6
                   ∨ mp = 7 ∨ mp = 8 ∨ mp = 9 ∨ mp = 10 ∨ mp = 11) by lia.
  unfold time.doeOfCivil, time.daysIn, time.isLeap.
  repeat (destruct Hcases as [-> | Hcases]); try subst mp; simpl in *;
    (split; [lia|]); (split; [lia|]);
    repeat match goal with
    | |- context [?a =? ?b] => destruct (Z.eqb_spec a b)
    end; simpl; subst doy; divlia.
Qed.
Lemma isLeap_era (y era : Z) : time.isLeap (y + era * 400) = time.isLeap y.
Proof.
  unfold time.isLeap.
  replace ((y + era * 400) mod 4) with (y mod 4) by divlia.
  replace ((y + era * 400) mod 100) with (y mod 100) by divlia.
  replace ((y + era * 400) mod 400) with (y mod 400) by divlia.
  reflexivity.
Qed.

Lemma daysIn_era (m y era : Z) : time.daysIn m (y + era * 400) = time.daysIn m y.
Proof. unfold time.daysIn. by rewrite isLeap_era. Qed.

Lemma civil_roundtrip (z y m d : Z) :
  time.civilFromDays z = (y, m, d) →
  1 ≤ m ≤ 12 ∧ 1 ≤ d ≤ time.daysIn m y ∧ time.daysFromCivil y m d = z.
Proof.
  unfold time.civilFromDays.
  set (era := (z + 719468) / 146097). set (doe := z + 719468 - era * 146097).
  assert (Hdoe : 0 ≤ doe < 146097) by (subst doe era; divlia).
  destruct (time.civilOfDoe doe) as [[yoe m0] d0] eqn:Hciv.
  destruct (civilOfDoe_spec _ _ _ _ Hdoe Hciv) as (Hyoe & Hm & Hd & Hback).
  intros [= <- <- <-]. split; [done|].
  split.
  - replace (if m0 <=? 2 then yoe + era * 400 + 1 else yoe + era * 400)
      with ((if m0 <=? 2 then yoe + 1 else yoe) + era * 400) by (destruct (m0 <=? 2); lia).
    rewrite daysIn_era. lia.
  - unfold time.daysFromCivil.
    replace (if m0 <=? 2 then (if m0 <=? 2 then yoe + era * 400 + 1 else yoe + era * 400) - 1
             else (if m0 <=? 2 then yoe + era * 400 + 1 else yoe + era * 400))
      with (yoe + era * 400) by (destruct (m0 <=? 2); lia).
    replace ((yoe + era * 400) / 400) with era by divlia.
    replace (yoe + era * 400 - era * 400) with yoe by lia.
    rewrite Hback. subst doe. lia.
Qed.

(** ** Decimal fields *)

Lemma digit_cases (n : Z) :
  time.isDigit (time.digit n) = true ∧ time.digitVal (time.digit n) = n mod 10.
Proof.
  unfold time.digit. pose proof (Z.mod_pos_bound n 10 ltac:(lia)) as Hk.
  generalize dependent (n mod 10). intros k Hk.
  assert (Hcases : k = 0 ∨ k = 1 ∨ k = 2 ∨ k = 3 ∨ k = 4 ∨ k = 5 ∨ k = 6
                   ∨ k = 7 ∨ k = 8 ∨ k = 9) by lia.
  repeat (destruct Hcases as [-> | Hcases]); try subst k; split; reflexivity.
Qed.

Lemma isDigit_digit (n : Z) : time.isDigit (time.digit n) = true.
Proof. apply digit_cases. Qed.

Lemma digitVal_digit (n : Z) : time.digitVal (time.digit n) = n mod 10.
Proof. apply digit_cases. Qed.

Lemma ndigitsFuel_le (f : nat) (u : Z) (w : nat) :
  (1 ≤ w)%nat → 0 ≤ u < 10 ^ Z.of_nat w → (time.ndigitsFuel f u ≤ w)%nat.
Proof.
  revert u w. induction f as [|f IH]; intros u w Hw Hu; simpl; [done|].
  destruct (Z.ltb_spec u 10) as [Hlt|Hge]; [done|].
  destruct w as [|w]; [lia|].
  rewrite Nat2Z.inj_succ, Z.pow_succ_r in Hu by lia.
  destruct w as [|w]; [simpl in Hu; lia|].
  apply le_n_S, IH; [lia|]. divlia.
Qed.

Lemma appendInt_digits (x : Z) (w : nat) :
  (1 ≤ w)%nat → 0 ≤ x < 10 ^ Z.of_nat w → time.appendInt x w = time.digits w x "".
Proof.
  intros Hw Hx. unfold time.appendInt.
  rewrite (proj2 (Z.ltb_ge x 0)) by lia. rewrite Z.abs_eq by lia.
  rewrite Nat.max_l; [reflexivity|]. by apply ndigitsFuel_le.
Qed.

Lemma appendInt_2 (x : Z) :
  0 ≤ x < 100 →
  time.appendInt x 2 = String (time.digit (x / 10)) (String (time.digit x) "").
Proof. intros Hx. rewrite appendInt_digits by (simpl; lia). reflexivity. Qed.

Lemma appendInt_4 (x : Z) :
  0 ≤ x < 10000 →
  time.appendInt x 4
  = String (time.digit (x / 10 / 10 / 10)) (String (time.digit (x / 10 / 10))
      (String (time.digit (x / 10)) (String (time.digit x) ""))).
Proof. intros Hx. rewrite appendInt_digits by (simpl; lia). reflexivity. Qed.

Lemma getnum_appendInt (x : Z) (fixed : bool) (rest : string) :
  0 ≤ x < 100 → time.getnum (time.appendInt x 2 +:+ rest) fixed = Some (x, rest).
Proof.
  intros Hx. rewrite appendInt_2 by done. simpl.
  rewrite !isDigit_digit, !digitVal_digit. do 2 f_equal. divlia.
Qed.

Lemma getYear_appendInt (y : Z) (rest : string) :
  0 ≤ y < 10000 → time.getYear (time.appendInt y 4 +:+ rest) = Some (y, rest).
Proof.
  intros Hy. rewrite appendInt_4 by done. simpl.
  rewrite !isDigit_digit, !digitVal_digit. simpl. do 2 f_equal. divlia.
Qed.

Lemma skip_cons (c : ascii) (rest : string) : time.skip c (String c rest) = Some rest.
Proof. simpl. by rewrite Ascii.eqb_refl. Qed.

(** ** Fractional seconds *)

Lemma digits_acc (w : nat) (n : Z) (acc : string) :
  time.digits w n acc = time.digits w n "" +:+ acc.
Proof.
  revert n acc. induction w as [|w IH]; intros n acc; [reflexivity|]. simpl.
  rewrite (IH _ (String _ acc)), (IH _ (String _ "")), app_assoc_s. reflexivity.
Qed.

Lemma digits_isDigit (w : nat) (n : Z) :
  strings.all time.isDigit (time.digits w n "") = true.
Proof.
  revert n. induction w as [|w IH]; intros n; [reflexivity|]. simpl.
  rewrite digits_acc, all_app, IH. simpl. by rewrite isDigit_digit.
Qed.

Lemma digits_length (w : nat) (n : Z) : String.length (time.digits w n "") = w.
Proof.
  revert n. induction w as [|w IH]; intros n; [reflexivity|]. simpl.
  rewrite digits_acc, length_app_s, IH. simpl. lia.
Qed.

Lemma atoiAcc_app (a : Z) (s t : string) :
  time.atoiAcc a (s +:+ t) = time.atoiAcc (time.atoiAcc a s) t.
Proof. revert a. induction s as [|c s IH]; intros a; [reflexivity|]. apply IH. Qed.

Lemma atoiAcc_digits (w : nat) (n : Z) :
  0 ≤ n → time.atoiAcc 0 (time.digits w n "") = n mod 10 ^ Z.of_nat w.
Proof.
  revert n. induction w as [|w IH]; intros n Hn.
  - simpl. by rewrite Z.mod_1_r.
  - simpl time.digits. rewrite digits_acc, atoiAcc_app, IH by divlia. simpl time.atoiAcc.
    rewrite digitVal_digit, Nat2Z.inj_succ, Z.pow_succ_r by lia.
    rewrite (Z.rem_mul_r n 10 (10 ^ Z.of_nat w)) by lia. lia.
Qed.

Lemma atoiAcc_zeros (a : Z) (k : nat) : time.atoiAcc a (zeros k) = a * 10 ^ Z.of_nat k.
Proof.
  revert a. induction k as [|k IH]; intros a.
  - simpl. lia.
  - simpl zeros. simpl time.atoiAcc. rewrite IH, Nat2Z.inj_succ, Z.pow_succ_r by lia.
    change (time.digitVal "0") with 0. lia.
Qed.

Lemma trimZeros_zeros (s : string) :
  ∃ k, s = time.trimZeros s +:+ zeros k
       ∧ String.length s = (String.length (time.trimZeros s) + k)%nat.
Proof.
  induction s as [|c s (k & Hs & Hlen)]; [by exists O|]. simpl.
  destruct (time.trimZeros s) as [|c1 t1] eqn:Ht.
  - destruct (Ascii.eqb_spec c "0") as [->|Hne].
    + exists (S k). simpl in *. rewrite Hlen. split; [|done]. by rewrite Hs at 1.
    + exists k. simpl in *. rewrite Hlen. split; [|done]. by rewrite Hs at 1.
  - exists k. simpl in *. rewrite Hlen. split; [|done]. by rewrite Hs at 1.
Qed.

Lemma trimZeros_all (p : ascii → bool) (s : string) :
  strings.all p s = true → strings.all p (time.trimZeros s) = true.
Proof.
  induction s as [|c s IH]; [done|]. simpl. intros [Hc Hs]%andb_true_iff.
  specialize (IH Hs). destruct (time.trimZeros s) as [|c1 t1].
  - destruct (Ascii.eqb c "0"); simpl; [done | by rewrite Hc].
  - simpl in *. by rewrite Hc, IH.
Qed.

Lemma spanDigits_stop (ds rest : string) (c : ascii) :
  strings.all time.isDigit ds = true → time.isDigit c = false →
  time.spanDigits (ds +:+ String c rest) = (ds, String c rest).
Proof.
  intros Hds Hc. induction ds as [|x ds IH]; simpl in *.
  - by rewrite Hc.
  - apply andb_true_iff in Hds as [Hx Hds]. by rewrite Hx, (IH Hds).
Qed.

Lemma take_all (n : nat) (s : string) : (String.length s ≤ n)%nat → time.take n s = s.
Proof.
  revert n. induction s as [|c s IH]; intros n Hn; [by destruct n|].
  destruct n as [|n]; simpl in *; [lia|]. rewrite IH; [done | lia].
Qed.

Lemma getFrac_appendNano (nsec : Z) (rest : string) :
  0 ≤ nsec < 1000000000 →
  time.getFrac (time.appendNano nsec +:+ String "Z" rest) = (nsec, String "Z" rest).
Proof.
  intros Hn. unfold time.appendNano.
  destruct (Z.eqb_spec nsec 0) as [->|Hne]; [by destruct rest|].
  rewrite appendInt_digits by (simpl; lia).
  destruct (trimZeros_zeros (time.digits 9 nsec "")) as (k & Hs & Hlen).
  rewrite digits_length in Hlen.
  pose proof (atoiAcc_digits 9 nsec ltac:(lia)) as Hval.
  rewrite Hs, atoiAcc_app, atoiAcc_zeros in Hval.
  change (10 ^ Z.of_nat 9) with 1000000000 in Hval. rewrite Z.mod_small in Hval by lia.
  pose proof (trimZeros_all _ _ (digits_isDigit 9 nsec)) as Hdig.
  destruct (time.trimZeros (time.digits 9 nsec "")) as [|c t] eqn:Ht.
  { simpl in Hval. lia. }
  rewrite app_cons_s. rewrite app_cons_s. unfold time.getFrac.
  assert (Hc : time.isDigit c = true) by (simpl in Hdig; by apply andb_true_iff in Hdig as [? _]).
  rewrite Hc. simpl orb. simpl andb. cbv iota.
  rewrite <- app_cons_s, spanDigits_stop by done.
  rewrite take_all by lia.
  f_equal. rewrite <- Hval. do 2 f_equal. lia.
Qed.

(** ** [Parse] reads back what [Format] wrote *)

Lemma daysIn_le_31 (m y : Z) : time.daysIn m y ≤ 31.
Proof. unfold time.daysIn. repeat case_match; lia. Qed.

Lemma Parse_Format (t : Z) :
  0 ≤ time.Year t ≤ 9999 → time.Parse (time.Format t) = Some t.
Proof.
  unfold time.Year, time.Format.
  set (sec := t / 1000000000). set (nsec := t mod 1000000000).
  set (r := sec mod 86400).
  destruct (time.civilFromDays (sec / 86400)) as [[y m] d] eqn:Hciv. simpl.
  intros Hy. destruct (civil_roundtrip _ _ _ _ Hciv) as (Hm & Hd & Hback).
  pose proof (daysIn_le_31 m y) as H31.
  assert (Hr : 0 ≤ r < 86400) by (subst r; divlia).
  assert (Hns : 0 ≤ nsec < 1000000000) by (subst nsec; divlia).
  unfold time.Parse.
  rewrite getYear_appendInt by lia. simpl. rewrite app_nil_l_s.
  rewrite getnum_appendInt by lia. simpl.
  rewrite (proj2 (Z.leb_gt m 0)), (proj2 (Z.ltb_ge 12 m)) by lia. simpl. rewrite app_nil_l_s.
  rewrite getnum_appendInt by lia. simpl. rewrite app_nil_l_s.
  rewrite getnum_appendInt by divlia. simpl.
  rewrite (proj2 (Z.leb_gt 24 (r / 3600))) by divlia. simpl. rewrite app_nil_l_s.
  rewrite getnum_appendInt by divlia. simpl.
  rewrite (proj2 (Z.leb_gt 60 (r mod 3600 / 60))) by divlia. simpl. rewrite app_nil_l_s.
  rewrite getnum_appendInt by divlia. simpl.
  rewrite (proj2 (Z.leb_gt 60 (r mod 60))) by divlia.
  change (time.appendNano nsec +:+ "Z") with (time.appendNano nsec +:+ String "Z" "").
  rewrite getFrac_appendNano by done. simpl.
  rewrite (proj2 (Z.ltb_ge d 1)), (proj2 (Z.ltb_ge (time.daysIn m y) d)) by lia. simpl.
  f_equal. rewrite Hback. subst r nsec sec. divlia.
Qed.

(** ** [url.Parse] reads back what [URL.String] wrote *)

Lemma HasSuffixByte_app (a b : string) (c : ascii) :
  b ≠ "" → strings.HasSuffixByte (a +:+ b) c = strings.HasSuffixByte b c.
Proof.
  intros Hb. induction a as [|x a IH]; [reflexivity|].
  rewrite app_cons_s. simpl. rewrite IH.
  destruct (a +:+ b) eqn:Hab; [|reflexivity].
  apply app_eq_nil_s in Hab as [_ ?]. done.
Qed.

Lemma HasSuffixByte_all (p : ascii → bool) (s : string) (c : ascii) :
  p c = false → strings.all p s = true → strings.HasSuffixByte s c = false.
Proof.
  intros Hc. induction s as [|x s IH]; [reflexivity|]. simpl.
  intros [Hx Hs]%andb_true_iff. destruct s as [|y s]; [|by apply IH].
  apply Ascii.eqb_neq. intros ->. congruence.
Qed.

Section Reparse.
Context `{url.Syntax}.

Lemma Parse_parsed (s : string) (u : url.URL) : url.Parse s = Some u → parsed u.
Proof.
  unfold url.Parse. destruct (strings.Cut s "#") as [[pre fr] ?].
  case_match; [done|]. destruct (url.splitQuery pre) as [[rest force] q].
  destruct (url.parseHier rest) as [h|] eqn:Hh; [|done].
  case_bool_decide as Hfr.
  - intros [= <-]. split; simpl; eauto.
  - destruct (url.setFragment fr) as [e|] eqn:He; [|done].
    intros [= <-]. split; simpl; [eauto|]. right. by eapply url.setFragment_again.
Qed.

Lemma String_query (u : url.URL) (q : string) :
  q ≠ "" →
  url.String_ (url.withRawQuery u q)
  = url.hierString (url.hier u) +:+ String "?" q +:+ fragString u.
Proof.
  intros Hq. unfold url.String_, fragString. simpl.
  rewrite (bool_decide_eq_false_2 _ Hq), orb_true_r. reflexivity.
Qed.

Lemma Parse_String (u : url.URL) (q : string) :
  parsed u → q ≠ "" → strings.all encodedByte q = true →
  ∃ v, url.Parse (url.String_ (url.withRawQuery u q)) = Some v
       ∧ url.hierString (url.hier v) = url.hierString (url.hier u)
       ∧ url.ForceQuery v = false ∧ url.RawQuery v = q ∧ url.frag v = url.frag u
       ∧ parsed v.
Proof.
  intros [[s Hs] Hfrag] Hq Hbytes. rewrite String_query by done.
  pose proof (url.hierString_bytes _ _ Hs) as Hh.
  destruct (url.parseHier_hierString _ _ Hs) as (h' & Hh' & Hprint).
  set (hs := url.hierString (url.hier u)) in *.
  assert (Hpre_hash : strings.ContainsByte (hs +:+ String "?" q) "#" = false).
  { rewrite ContainsByte_app. simpl.
    rewrite (all_ContainsByte url.hierByte hs) by done.
    rewrite (all_ContainsByte encodedByte q) by done. reflexivity. }
  assert (Hpre_ctl : strings.all (λ c, negb (url.isCTL c)) (hs +:+ String "?" q) = true).
  { rewrite all_app. simpl. rewrite andb_true_iff. split.
    - eapply all_impl; [|exact Hh]. intros c. unfold url.hierByte.
      intros [[? _]%andb_true_iff _]%andb_true_iff. done.
    - eapply all_impl; [|exact Hbytes].
      cut (∀ c, implb (encodedByte c) (negb (url.isCTL c)) = true).
      { intros Hall c Hc. specialize (Hall c). by rewrite Hc in Hall. }
      by_enumeration. }
  assert (Hsplit : url.splitQuery (hs +:+ String "?" q) = (hs, false, q)).
  { unfold url.splitQuery. rewrite HasSuffixByte_app by done.
    assert (strings.HasSuffixByte (String "?" q) "?" = false) as ->.
    { change (String "?" q) with ("?" +:+ q). rewrite HasSuffixByte_app by done.
      apply (HasSuffixByte_all encodedByte); done. }
    simpl. rewrite Cut_app; [done|]. by apply (all_ContainsByte url.hierByte). }
  unfold url.Parse, fragString. case_bool_decide as Hfr.
  - rewrite app_nil_r_s, Cut_None by done. rewrite Hpre_ctl. simpl.
    rewrite Hsplit, Hh'.
    eexists. split; [reflexivity|]. simpl. rewrite Hfr. repeat split; eauto.
  - destruct Hfrag as [?|Hfrag]; [done|].
    rewrite <- app_assoc_s, Cut_app by done. rewrite Hpre_ctl. simpl.
    rewrite Hsplit, Hh'. rewrite bool_decide_eq_false_2 by done. rewrite Hfrag.
    eexists. split; [reflexivity|]. simpl. repeat split; eauto.
Qed.

End Reparse.

(** ** The signer *)

Lemma Get_None (q : url.Values) (k : string) : q !! k = None → url.Get q k = "".
Proof. intros Hk. unfold url.Get. by rewrite (vals_None _ _ Hk). Qed.

Lemma Get_insert_ne (q : url.Values) (k k' : string) (xs : list string) :
  k ≠ k' → url.Get (<[k := xs]> q) k' = url.Get q k'.
Proof. intros Hne. unfold url.Get. by rewrite vals_insert_ne. Qed.

Lemma Get_delete_ne (q : url.Values) (k k' : string) :
  k ≠ k' → url.Get (url.Del q k) k' = url.Get q k'.
Proof. intros Hne. unfold url.Get, url.Del, url.vals. by rewrite lookup_delete_ne. Qed.

Lemma Encode_empty : url.Encode ∅ = "".
Proof. reflexivity. Qed.

Lemma Encode_nonempty (q : url.Values) : proper q → q ≠ ∅ → url.Encode q ≠ "".
Proof.
  intros Hq Hne Henc. apply Hne, Encode_inj; [done| |done].
  intros k. rewrite lookup_empty. discriminate.
Qed.

Lemma base64_unreserved (s : string) :
  strings.all base64Byte s = true → url.QueryEscape s = s.
Proof.
  intros Hs. apply QueryEscape_unreserved. eapply all_impl; [|exact Hs].
  cut (∀ c, implb (base64Byte c) (negb (url.shouldEscape c)) = true).
  { intros Hall c Hc. specialize (Hall c). by rewrite Hc in Hall. }
  by_enumeration.
Qed.

Lemma base64_encodedByte (s : string) :
  strings.all base64Byte s = true → strings.all encodedByte s = true.
Proof.
  apply all_impl.
  cut (∀ c, implb (base64Byte c) (encodedByte c) = true).
  { intros Hall c Hc. specialize (Hall c). by rewrite Hc in Hall. }
  by_enumeration.
Qed.

(** The pair [signature=<sig>] parses to one more value of [signature]. *)
Lemma parsePair_signature (m : url.Values) (sg : string) :
  strings.all base64Byte sg = true →
  url.parsePair m (urlsigner.Signature +:+ "=" +:+ sg)
  = <[urlsigner.Signature := url.vals m urlsigner.Signature ++ [sg]]> m.
Proof.
  intros Hsg. rewrite <- (base64_unreserved sg) at 1 by done.
  change urlsigner.Signature with (url.QueryEscape "signature") at 1.
  apply parsePair_escaped.
Qed.

Lemma ParseQuery_signed (q : url.Values) (sg : string) :
  proper q → strings.all base64Byte sg = true →
  url.ParseQuery
    (if bool_decide (url.Encode q = "")
     then urlsigner.Signature +:+ "=" +:+ sg
     else url.Encode q +:+ "&" +:+ urlsigner.Signature +:+ "=" +:+ sg)
  = <[urlsigner.Signature := url.vals q urlsigner.Signature ++ [sg]]> q.
Proof.
  intros Hq Hsg.
  assert (Hfields : strings.fields "&" (urlsigner.Signature +:+ "=" +:+ sg)
                    = [urlsigner.Signature +:+ "=" +:+ sg]).
  { apply fields_single. change (urlsigner.Signature +:+ "=" +:+ sg)
      with ("signature=" +:+ sg). rewrite ContainsByte_app.
    rewrite (all_ContainsByte base64Byte sg) by done. reflexivity. }
  case_bool_decide as Henc.
  - assert (q = ∅) as ->.
    { apply Encode_inj; [done| |done]. intros k. rewrite lookup_empty. discriminate. }
    unfold url.ParseQuery. rewrite Hfields. simpl. by apply parsePair_signature.
  - rewrite ParseQuery_app, ParseQuery_Encode, Hfields by done. simpl.
    by apply parsePair_signature.
Qed.

Section Signer.
Context `{url.Syntax} `{hash.Digests}.

Lemma tag_length (hm : hmac.HMAC) (msg : string) :
  length (tag hm msg) = hash.Size (hmac.fn hm).
Proof. unfold tag, hmac.Sum_. simpl. apply hash.Sum_length. Qed.

Lemma tag_nonempty (hm : hmac.HMAC) (msg : string) : tag hm msg ≠ [].
Proof.
  intros Htag. pose proof (tag_length hm msg) as Hlen. rewrite Htag in Hlen.
  destruct (hmac.fn hm); discriminate.
Qed.

Lemma sumURLString_tag (s : urlsigner.HMACSigner) (hm : hmac.HMAC) (msg : string) :
  urlsigner.hasher s () = Return hm →
  urlsigner.sumURLString s msg = Return (tag hm msg).
Proof. intros Hh. unfold urlsigner.sumURLString. rewrite Hh. reflexivity. Qed.

Lemma signedQuery_proper (s : urlsigner.HMACSigner) (u : url.URL) (D : Z) :
  proper (signedQuery s u D).
Proof.
  unfold signedQuery. destruct (negb (D =? 0)).
  - apply Set_proper, ParseQuery_proper.
  - apply ParseQuery_proper.
Qed.

Lemma Sign_spec (s : urlsigner.HMACSigner) (hm : hmac.HMAC) (U : string)
    (u : url.URL) (D : Z) :
  urlsigner.hasher s () = Return hm → url.Parse U = Some u →
  urlsigner.Sign s U D
  = Return (url.String_ (url.withRawQuery u (signedRawQuery s hm u D)), None).
Proof.
  intros Hh HU. unfold urlsigner.Sign. rewrite HU.
  fold (signedQuery s u D). fold (signedMessage s u D).
  rewrite (sumURLString_tag _ _ _ Hh). simpl. unfold signedRawQuery.
  destruct (url.Encode (signedQuery s u D)) as [|c enc] eqn:Henc; reflexivity.
Qed.

Lemma signedRawQuery_bytes (s : urlsigner.HMACSigner) (hm : hmac.HMAC)
    (u : url.URL) (D : Z) :
  signedRawQuery s hm u D ≠ ""
  ∧ strings.all encodedByte (signedRawQuery s hm u D) = true.
Proof.
  unfold signedRawQuery.
  pose proof (base64_encodedByte _ (EncodeToString_bytes (tag hm (signedMessage s u D))))
    as Hsg.
  pose proof (Encode_bytes (signedQuery s u D)) as Henc.
  case_bool_decide.
  - split; [discriminate|]. rewrite !all_app, Hsg. reflexivity.
  - split; [intros [? _]%app_eq_nil_s; done|]. rewrite !all_app, Hsg, Henc. reflexivity.
Qed.

(** Parsing the signed URL again: the same printed parts, and the signed
    query with one more [signature] value. *)
Lemma signed_Parse (s : urlsigner.HMACSigner) (hm : hmac.HMAC) (u : url.URL) (D : Z) :
  parsed u →
  ∃ v, url.Parse (url.String_ (url.withRawQuery u (signedRawQuery s hm u D))) = Some v
       ∧ url.hierString (url.hier v) = url.hierString (url.hier u)
       ∧ url.ForceQuery v = false ∧ url.frag v = url.frag u
       ∧ url.RawQuery v = signedRawQuery s hm u D
       ∧ url.Query v
         = <[urlsigner.Signature :=
               url.vals (signedQuery s u D) urlsigner.Signature
               ++ [base64.EncodeToString (tag hm (signedMessage s u D))]]>
             (signedQuery s u D).
Proof.
  intros Hu. destruct (signedRawQuery_bytes s hm u D) as [Hne Hbytes].
  destruct (Parse_String u _ Hu Hne Hbytes) as (v & Hv & Hh & Hf & Hq & Hfr & _).
  exists v. repeat split; try done.
  unfold url.Query. rewrite Hq. unfold signedRawQuery.
  apply ParseQuery_signed; [apply signedQuery_proper | apply EncodeToString_bytes].
Qed.

Lemma Verify_missing (s : urlsigner.HMACSigner) (u : url.URL) :
  url.Get (url.Query u) urlsigner.Signature = "" →
  urlsigner.Verify s u = (u, Return (Some urlsigner.ErrMissingSignature)).
Proof.
  intros Hget. unfold urlsigner.Verify, urlsigner.extractAndDecodeSignature.
  rewrite Hget. reflexivity.
Qed.

Lemma Verify_undecodable (s : urlsigner.HMACSigner) (u : url.URL) :
  url.Get (url.Query u) urlsigner.Signature ≠ "" →
  base64.DecodeString (url.Get (url.Query u) urlsigner.Signature) = None →
  urlsigner.Verify s u = (u, Return (Some urlsigner.ErrInvalidSignature)).
Proof.
  intros Hget Hdec. unfold urlsigner.Verify, urlsigner.extractAndDecodeSignature.
  rewrite (bool_decide_eq_false_2 _ Hget), Hdec. reflexivity.
Qed.

Lemma Verify_decoded (s : urlsigner.HMACSigner) (u : url.URL) (b : list byte) :
  url.Get (url.Query u) urlsigner.Signature ≠ "" →
  base64.DecodeString (url.Get (url.Query u) urlsigner.Signature) = Some b →
  urlsigner.Verify s u
  = (url.withRawQuery u (url.Encode (url.Del (url.Query u) urlsigner.Signature)),
     obind (urlsigner.verifyMAC s (canonical u) b)
       (λ ok, if negb ok then Return (Some urlsigner.ErrInvalidSignature)
              else urlsigner.verifyExpiration s
                     (url.Del (url.Query u) urlsigner.Signature))).
Proof.
  intros Hget Hdec. unfold urlsigner.Verify, urlsigner.extractAndDecodeSignature.
  rewrite (bool_decide_eq_false_2 _ Hget), Hdec. reflexivity.
Qed.

Lemma verifyMAC_tag (s : urlsigner.HMACSigner) (hm : hmac.HMAC) (msg : string)
    (b : list byte) :
  urlsigner.hasher s () = Return hm →
  urlsigner.verifyMAC s msg b = Return (bool_decide (b = tag hm msg)).
Proof.
  intros Hh. unfold urlsigner.verifyMAC. rewrite (sumURLString_tag _ _ _ Hh). reflexivity.
Qed.

(** [Verify] on a URL whose first [signature] value decodes to [b]. *)
Lemma Verify_working (s : urlsigner.HMACSigner) (hm : hmac.HMAC) (u : url.URL)
    (b : list byte) :
  urlsigner.hasher s () = Return hm →
  url.Get (url.Query u) urlsigner.Signature ≠ "" →
  base64.DecodeString (url.Get (url.Query u) urlsigner.Signature) = Some b →
  (urlsigner.Verify s u).2
  = if bool_decide (b = tag hm (canonical u))
    then urlsigner.verifyExpiration s (url.Del (url.Query u) urlsigner.Signature)
    else Return (Some urlsigner.ErrInvalidSignature).
Proof.
  intros Hh Hget Hdec. rewrite (Verify_decoded _ _ _ Hget Hdec). simpl.
  rewrite (verifyMAC_tag _ _ _ _ Hh). simpl. by case_bool_decide.
Qed.

(** What [Verify] sees in a URL that [Sign] made of a URL without a
    [signature] parameter. *)
Lemma signed_Verify_view (s : urlsigner.HMACSigner) (hm : hmac.HMAC)
    (u v : url.URL) (D : Z) :
  url.Query u !! urlsigner.Signature = None →
  url.hierString (url.hier v) = url.hierString (url.hier u) →
  url.ForceQuery v = false → url.frag v = url.frag u →
  url.Query v
  = <[urlsigner.Signature :=
        url.vals (signedQuery s u D) urlsigner.Signature
        ++ [base64.EncodeToString (tag hm (signedMessage s u D))]]>
      (signedQuery s u D) →
  url.Get (url.Query v) urlsigner.Signature
  = base64.EncodeToString (tag hm (signedMessage s u D))
  ∧ url.Del (url.Query v) urlsigner.Signature = signedQuery s u D
  ∧ (url.ForceQuery u = false ∨ signedQuery s u D ≠ ∅ →
     canonical v = signedMessage s u D).
Proof.
  intros Hnosig Hh Hforce Hfrag Hq.
  assert (Hsq : signedQuery s u D !! urlsigner.Signature = None).
  { unfold signedQuery. destruct (negb (D =? 0)); [|done].
    unfold url.Set_. by rewrite lookup_insert_ne. }
  rewrite (vals_None _ _ Hsq) in Hq. simpl in Hq.
  assert (Hdel : url.Del (url.Query v) urlsigner.Signature = signedQuery s u D).
  { rewrite Hq. unfold url.Del. by apply delete_insert_id. }
  split; [|split; [done|]].
  - rewrite Hq. unfold url.Get. by rewrite vals_insert_eq.
  - intros Hcase. unfold canonical, signedMessage, url.String_. simpl.
    rewrite Hdel, Hh, Hforce, Hfrag. simpl.
    destruct Hcase as [->|Hne]; [done|].
    pose proof (Encode_nonempty _ (signedQuery_proper s u D) Hne) as Henc.
    rewrite (bool_decide_eq_false_2 _ Henc). simpl. by rewrite orb_true_r.
Qed.

End Signer.

(** ** Expiry *)

Lemma Format_nonempty (t : Z) : time.Format t ≠ "".
Proof.
  unfold time.Format. destruct (time.civilFromDays _) as [[y m] d].
  intros Heq. apply app_eq_nil_s in Heq as [_ Heq]. discriminate.
Qed.

Lemma length_nonempty (s : string) : s ≠ "" → (String.length s =? 0)%nat = false.
Proof. by destruct s. Qed.

Section Expiry.
Context `{url.Syntax} `{hash.Digests}.

Lemma verifyExpiration_absent (s : urlsigner.HMACSigner) (q : url.Values) :
  url.Get q urlsigner.Expiration = "" →
  urlsigner.verifyExpiration s q = Return None.
Proof. intros Hget. unfold urlsigner.verifyExpiration. by rewrite Hget. Qed.

Lemma verifyExpiration_unparsable (s : urlsigner.HMACSigner) (q : url.Values) :
  url.Get q urlsigner.Expiration ≠ "" →
  time.Parse (url.Get q urlsigner.Expiration) = None →
  panics (urlsigner.verifyExpiration s q).
Proof.
  intros Hget Hparse. unfold urlsigner.verifyExpiration.
  by rewrite (length_nonempty _ Hget), Hparse.
Qed.

Lemma verifyExpiration_signed (s s' : urlsigner.HMACSigner) (u : url.URL) (D : Z) :
  D ≠ 0 → 0 ≤ time.Year (urlsigner.now s () + D) ≤ 9999 →
  urlsigner.verifyExpiration s' (signedQuery s u D)
  = if urlsigner.now s () + D <? urlsigner.now s' ()
    then Return (Some urlsigner.ErrExpired) else Return None.
Proof.
  intros HD Hyear. unfold urlsigner.verifyExpiration, signedQuery.
  rewrite (proj2 (Z.eqb_neq D 0) HD). simpl.
  unfold url.Set_, url.Get, urlsigner.Expiration. rewrite vals_insert_eq.
  rewrite (length_nonempty _ (Format_nonempty _)).
  unfold time.Add. rewrite (Parse_Format _ Hyear). reflexivity.
Qed.

Lemma hasher_withNow (s : urlsigner.HMACSigner) (t : Z) :
  urlsigner.hasher (urlsigner.withNow s t) = urlsigner.hasher s.
Proof. reflexivity. Qed.

(** [Verify], at any clock, on the URL [Sign] made of a URL that had no
    [signature] parameter: the tag matches and the expiry decides. *)
Lemma Verify_signed (s s' : urlsigner.HMACSigner) (hm : hmac.HMAC) (u : url.URL) (D : Z) :
  urlsigner.hasher s () = Return hm → urlsigner.hasher s' () = Return hm →
  parsed u →
  url.Query u !! urlsigner.Signature = None →
  url.ForceQuery u = false ∨ signedQuery s u D ≠ ∅ →
  ∃ v, url.Parse (url.String_ (url.withRawQuery u (signedRawQuery s hm u D))) = Some v
       ∧ (urlsigner.Verify s' v).2 = urlsigner.verifyExpiration s' (signedQuery s u D).
Proof.
  intros Hh Hh' Hu Hnosig Hcase.
  destruct (signed_Parse s hm u D Hu) as (v & Hv & Hhier & Hforce & Hfrag & _ & Hq).
  destruct (signed_Verify_view s hm u v D Hnosig Hhier Hforce Hfrag Hq)
    as (Hget & Hdel & Hcanon).
  exists v. split; [done|].
  rewrite (Verify_working s' hm v (tag hm (signedMessage s u D)) Hh').
  - rewrite (Hcanon Hcase), bool_decide_eq_true_2 by done. by rewrite Hdel.
  - rewrite Hget. apply EncodeToString_nonempty, tag_nonempty.
  - rewrite Hget. apply DecodeString_EncodeToString.
Qed.

End Expiry.

(** ** Construction *)

Lemma ParseHasher_supported (algo : string) :
  algo ∈ utils.supported → ∃ h, utils.ParseHasher algo = Return h.
Proof.
  unfold utils.supported. rewrite !elem_of_cons, elem_of_nil.
  intros [->|[->|[->|[->|[->|[]]]]]]; eexists; reflexivity.
Qed.

Lemma ParseHasher_unsupported (algo : string) :
  algo ∉ utils.supported → panics (utils.ParseHasher algo).
Proof.
  unfold utils.supported. rewrite !elem_of_cons, elem_of_nil. intros Hnot.
  unfold utils.ParseHasher. repeat (case_bool_decide; [tauto|]). exact I.
Qed.

Section Construction.
Context `{hash.Digests}.
Variable systemNow : unit → Z.

Lemma New_spec (algo : string) (key : list byte) (now : list (unit → Z))
    (s : urlsigner.HMACSigner) :
  urlsigner.New systemNow algo key now = Return s →
  (32 ≤ length key ≤ 64)%nat
  ∧ urlsigner.hasher s ()
    = obind (utils.ParseHasher algo) (λ h, Return (hmac.New h key))
  ∧ urlsigner.now s = match now with n0 :: _ => n0 | [] => systemNow end.
Proof.
  unfold urlsigner.New.
  destruct (Nat.ltb_spec 64 (length key)); [done|].
  destruct (Nat.ltb_spec (length key) 32); [done|]. simpl.
  intros [= <-]. simpl. repeat split; lia.
Qed.

Lemma New_valid_key (algo : string) (key : list byte) (now : list (unit → Z)) :
  (32 ≤ length key ≤ 64)%nat → ∃ s, urlsigner.New systemNow algo key now = Return s.
Proof.
  intros Hkey. unfold urlsigner.New.
  destruct (Nat.ltb_spec 64 (length key)); [lia|].
  destruct (Nat.ltb_spec (length key) 32); [lia|]. simpl. by eexists.
Qed.

Lemma New_supported (algo : string) (key : list byte) (now : list (unit → Z))
    (s : urlsigner.HMACSigner) :
  urlsigner.New systemNow algo key now = Return s → algo ∈ utils.supported →
  ∃ hm, urlsigner.hasher s () = Return hm.
Proof.
  intros (_ & Hh & _)%New_spec [h Hp]%ParseHasher_supported.
  rewrite Hh, Hp. by eexists.
Qed.

End Construction.

(** ** Text order and the parsed query *)

Lemma parsePair_decodePair (m : url.Values) (seg : string) :
  url.parsePair m seg
  = match decodePair seg with
    | Some (k, x) => <[k := url.vals m k ++ [x]]> m
    | None => m
    end.
Proof.
  unfold url.parsePair, decodePair.
  destruct (strings.ContainsByte seg ";"); [done|].
  case_bool_decide; [done|].
  destruct (strings.Cut seg "=") as [[key value] ?].
  destruct (url.QueryUnescape key); [|done].
  by destruct (url.QueryUnescape value).
Qed.

Lemma vals_foldl_parsePair (segs : list string) (m : url.Values) (k : string) :
  url.vals (foldl url.parsePair m segs) k
  = url.vals m k ++ (filter (λ p, p.1 = k) (omap decodePair segs)).*2.
Proof.
  revert m. induction segs as [|seg segs IH]; intros m; simpl.
  - by rewrite app_nil_r.
  - rewrite IH, parsePair_decodePair.
    destruct (decodePair seg) as [[k1 x]|]; [|done].
    rewrite filter_cons. simpl. destruct (decide (k1 = k)) as [->|Hne].
    + rewrite vals_insert_eq, fmap_cons, <- app_assoc. reflexivity.
    + by rewrite vals_insert_ne.
Qed.

Lemma vals_ParseQuery (q k : string) : url.vals (url.ParseQuery q) k = valuesOf k q.
Proof. unfold url.ParseQuery. rewrite vals_foldl_parsePair. by rewrite vals_None. Qed.

Lemma proper_vals_eq (a b : url.Values) :
  proper a → proper b → (∀ k, url.vals a k = url.vals b k) → a = b.
Proof.
  intros Ha Hb Heq. apply map_eq. intros k. specialize (Heq k). unfold url.vals in Heq.
  specialize (Ha k). specialize (Hb k).
  destruct (a !! k) as [[|x xs]|], (b !! k) as [[|y ys]|]; simpl in *; congruence.
Qed.

Lemma app_inj_r_s (a b c : string) : a +:+ c = b +:+ c → a = b.
Proof.
  revert b. induction a as [|x a IH]; intros [|y b] Heq; [done| | |].
  - apply (f_equal String.length) in Heq. rewrite !length_app_s in Heq. simpl in Heq. lia.
  - apply (f_equal String.length) in Heq. rewrite !length_app_s in Heq. simpl in Heq. lia.
  - rewrite !app_cons_s in Heq. injection Heq as -> Heq. f_equal. by apply IH.
Qed.

(** ** The reference instances *)

Lemma outBytes_length (n : nat) (f : nat → Z) : length (outBytes n f) = n.
Proof. unfold outBytes. by rewrite length_fmap, length_seq. Qed.

Lemma sha2_digest_length w K R0 R1 r0 r1 iv n msg :
  length (sha2.digest w K R0 R1 r0 r1 iv n msg) = n.
Proof.
  unfold sha2.digest. destruct (sha2.blocks _ _ _ _ _ _ _ _ _) as [[[[[[[a b] c] d] e] f] g] h].
  apply outBytes_length.
Qed.

Lemma reference_Sum_length (h : hash.Hasher) (m : list byte) :
  length (reference.Sum h m) = hash.Size h.
Proof.
  destruct h.
  - exact (sha2_digest_length _ _ _ _ _ _ _ 32%nat m).
  - exact (sha2_digest_length _ _ _ _ _ _ _ 32%nat m).
  - exact (outBytes_length 32 _).
  - exact (outBytes_length 64 _).
  - exact (outBytes_length 32 _).
Qed.

#[global] Instance reference_digests : hash.Digests :=
  {| hash.Sum := reference.Sum; hash.Sum_length := reference_Sum_length |}.

Lemma cutAt_Some (c : ascii) (s a b : string) :
  strings.cutAt c s = Some (a, b) → s = a +:+ String c b.
Proof.
  revert a. induction s as [|x s IH]; intros a; [done|]. simpl.
  destruct (Ascii.eqb_spec x c) as [->|Hne].
  - by intros [= <- <-].
  - destruct (strings.cutAt c s) as [[a1 b1]|]; [|done].
    intros [= <- <-]. rewrite app_cons_s. f_equal. by apply IH.
Qed.

Lemma plain_accepts_bytes (s : string) :
  plain.accepts s = true → strings.all plainByte s = true.
Proof.
  assert (Hlower : ∀ t, strings.all plain.lower t = true → strings.all plainByte t = true).
  { intros t. apply all_impl. cut (∀ c, implb (plain.lower c) (plainByte c) = true).
    { intros Hall c Hc. specialize (Hall c). by rewrite Hc in Hall. }
    by_enumeration. }
  assert (Hhost : ∀ t, strings.all plain.hostByte t = true → strings.all plainByte t = true).
  { intros t. apply all_impl. cut (∀ c, implb (plain.hostByte c) (plainByte c) = true).
    { intros Hall c Hc. specialize (Hall c). by rewrite Hc in Hall. }
    by_enumeration. }
  assert (Hpath : ∀ t, strings.all plain.pathByte t = true → strings.all plainByte t = true).
  { intros t. apply all_impl. intros c Hc. unfold plainByte. by rewrite Hc. }
  unfold plain.accepts. destruct (strings.cutAt ":" s) as [[scheme rest]|] eqn:Hcut.
  - apply cutAt_Some in Hcut as ->.
    intros [[_ Hscheme]%andb_true_iff Hrest]%andb_true_iff.
    rewrite all_app, (Hlower _ Hscheme). simpl.
    unfold plain.authorityPath in Hrest.
    destruct rest as [|a [|b t]]; [done..|].
    apply andb_true_iff in Hrest as [[Ha Hb]%andb_true_iff Ht].
    apply Ascii.eqb_eq in Ha as ->. apply Ascii.eqb_eq in Hb as ->. simpl.
    destruct (strings.cutAt "/" t) as [[host p]|] eqn:Hcut2.
    + apply cutAt_Some in Hcut2 as ->.
      apply andb_true_iff in Ht as [[_ Hh]%andb_true_iff Hp].
      rewrite all_app, (Hhost _ Hh). simpl. by apply Hpath.
    + apply andb_true_iff in Ht as [_ Hh]. by apply Hhost.
  - unfold plain.absPath. destruct s as [|a [|b t]]; [done| |].
    + intros ->%Ascii.eqb_eq. reflexivity.
    + intros [_ Hall]%andb_true_iff. by apply Hpath.
Qed.

Lemma plain_hierString_bytes (s h : string) :
  plain.parseHier s = Some h → strings.all url.hierByte (id h) = true.
Proof.
  unfold plain.parseHier. destruct (plain.accepts s) eqn:Hacc; [|done].
  intros [= <-]. eapply all_impl; [|by apply plain_accepts_bytes].
  cut (∀ c, implb (plainByte c) (url.hierByte c) = true).
  { intros Hall c Hc. specialize (Hall c). by rewrite Hc in Hall. }
  by_enumeration.
Qed.

Lemma plain_parseHier_again (s h : string) :
  plain.parseHier s = Some h →
  ∃ h', plain.parseHier (id h) = Some h' ∧ id h' = id h.
Proof.
  unfold plain.parseHier. destruct (plain.accepts s) eqn:Hacc; [|done].
  intros [= <-]. exists s. unfold id. by rewrite Hacc.
Qed.

Lemma plain_setFragment_nonempty (f e : string) :
  f ≠ "" → plain.setFragment f = Some e → e ≠ "".
Proof. unfold plain.setFragment. intros Hf. case_match; [|done]. by intros [= <-]. Qed.

Lemma plain_setFragment_again (f e : string) :
  plain.setFragment f = Some e → plain.setFragment e = Some e.
Proof.
  unfold plain.setFragment. destruct (strings.all _ f) eqn:Hf; [|done].
  intros [= <-]. by rewrite Hf.
Qed.

#[global] Instance plain_syntax : url.Syntax :=
  {| url.Hier := string;
     url.parseHier := plain.parseHier;
     url.hierString := id;
     url.setFragment := plain.setFragment;
     url.hierString_bytes := plain_hierString_bytes;
     url.parseHier_hierString := plain_parseHier_again;
     url.setFragment_nonempty := plain_setFragment_nonempty;
     url.setFragment_again := plain_setFragment_again |}.

(** * The claims *)

Section Claims.
Context `{url.Syntax} `{hash.Digests}.
Variable systemNow : unit → Z.

(** C2. [New] returns a signer exactly when the key has 32 to 64 bytes,
    and panics exactly when it is shorter than 32 or longer than 64
    bytes, whatever the algorithm name and the clock. *)
Theorem New_key_length (algo : string) (key : list byte) (now : list (unit → Z)) :
  (returns (urlsigner.New systemNow algo key now) ↔ (32 ≤ length key ≤ 64)%nat)
  ∧ (panics (urlsigner.New systemNow algo key now)
     ↔ (length key < 32 ∨ 64 < length key)%nat).
Proof.
  unfold urlsigner.New.
  destruct (Nat.ltb_spec 64 (length key)), (Nat.ltb_spec (length key) 32);
    simpl; split; split; intros; try done; try lia.
Qed.

(** C1, as amended. With a supported algorithm and a fixed clock that
    reports UTC times: for every URL [U] that parses and carries no
    [signature] parameter, and every duration [D >= 0] (for [D = 0]:
    [U] has no non-empty [expires] value and is not a bare [?] after
    the path; for [D > 0]: the expiry falls in the years 0000 to 9999),
    [Sign] returns a URL that parses and on which [Verify] returns no
    error. *)
Theorem sign_verify_roundtrip (algo : string) (key : list byte) (clock : unit → Z)
    (s : urlsigner.HMACSigner) (U : string) (u : url.URL) (D : Z) :
  urlsigner.New systemNow algo key [clock] = Return s →
  algo ∈ utils.supported →
  url.Parse U = Some u →
  url.Query u !! urlsigner.Signature = None →
  (D = 0 → url.Get (url.Query u) urlsigner.Expiration = "" ∧ url.ForceQuery u = false) →
  (D ≠ 0 → 0 ≤ time.Year (clock () + D) ≤ 9999) →
  0 ≤ D →
  ∃ signed v,
    urlsigner.Sign s U D = Return (signed, None)
    ∧ url.Parse signed = Some v
    ∧ (urlsigner.Verify s v).2 = Return None.
Proof.
  intros Hnew Halgo HU Hnosig Hzero Hyear HD.
  destruct (New_supported _ _ _ _ _ Hnew Halgo) as [hm Hh].
  apply New_spec in Hnew as (_ & _ & Hnow). simpl in Hnow.
  pose proof (Parse_parsed _ _ HU) as Hu.
  assert (Hcase : url.ForceQuery u = false ∨ signedQuery s u D ≠ ∅).
  { destruct (decide (D = 0)) as [HD0|HD0]; [left; by apply Hzero|].
    right. unfold signedQuery. rewrite (proj2 (Z.eqb_neq D 0) HD0). simpl.
    apply insert_non_empty. }
  destruct (Verify_signed s s hm u D Hh Hh Hu Hnosig Hcase) as (v & Hv & Hver).
  eexists _, v. split; [by apply Sign_spec|]. split; [done|]. rewrite Hver.
  destruct (decide (D = 0)) as [->|HD0].
  - apply verifyExpiration_absent. unfold signedQuery. simpl. by apply Hzero.
  - rewrite verifyExpiration_signed by (rewrite ?Hnow; auto).
    rewrite (proj2 (Z.ltb_ge _ _)); [done | lia].
Qed.

(** C3, as amended. With a clock that reports UTC times: for every
    URL [U] that parses and carries no [signature] parameter, signed
    for [D > 0] when the clock reads [t0], with [t0 + D] in the years
    0000 to 9999: [Verify] returns no error when the clock reads
    exactly [t0 + D], and [ErrExpired] at every reading after it. *)
Theorem expiry_boundary (algo : string) (key : list byte) (now : list (unit → Z))
    (s : urlsigner.HMACSigner) (U : string) (u : url.URL) (D t0 : Z) :
  urlsigner.New systemNow algo key now = Return s →
  algo ∈ utils.supported →
  url.Parse U = Some u →
  url.Query u !! urlsigner.Signature = None →
  0 < D →
  0 ≤ time.Year (t0 + D) ≤ 9999 →
  ∃ signed v,
    urlsigner.Sign (urlsigner.withNow s t0) U D = Return (signed, None)
    ∧ url.Parse signed = Some v
    ∧ (urlsigner.Verify (urlsigner.withNow s (t0 + D)) v).2 = Return None
    ∧ ∀ t1, t0 + D < t1 →
        (urlsigner.Verify (urlsigner.withNow s t1) v).2
        = Return (Some urlsigner.ErrExpired).
Proof.
  intros Hnew Halgo HU Hnosig HD Hyear.
  destruct (New_supported _ _ _ _ _ Hnew Halgo) as [hm Hh].
  pose proof (Parse_parsed _ _ HU) as Hu.
  set (s0 := urlsigner.withNow s t0).
  assert (Hcase : url.ForceQuery u = false ∨ signedQuery s0 u D ≠ ∅).
  { right. unfold signedQuery. rewrite (proj2 (Z.eqb_neq D 0)) by lia. simpl.
    apply insert_non_empty. }
  assert (Hat : ∀ t1, ∃ v,
    url.Parse (url.String_ (url.withRawQuery u (signedRawQuery s0 hm u D))) = Some v
    ∧ (urlsigner.Verify (urlsigner.withNow s t1) v).2
      = if t0 + D <? t1 then Return (Some urlsigner.ErrExpired) else Return None).
  { intros t1.
    destruct (Verify_signed s0 (urlsigner.withNow s t1) hm u D Hh Hh Hu Hnosig Hcase)
      as (v & Hv & Hver).
    exists v. split; [done|]. rewrite Hver.
    rewrite verifyExpiration_signed by (simpl; lia). reflexivity. }
  destruct (Hat (t0 + D)) as (v & Hv & Hver).
  eexists _, v. split; [by apply Sign_spec|]. split; [done|]. split.
  - rewrite Hver, Z.ltb_irrefl. reflexivity.
  - intros t1 Ht1. destruct (Hat t1) as (v1 & Hv1 & Hver1).
    assert (v1 = v) as -> by congruence.
    rewrite Hver1, (proj2 (Z.ltb_lt _ _)) by lia. reflexivity.
Qed.

(** C4, as amended. For every URL [U] that parses, [Sign(U, 0)] adds no
    [expires] parameter: the signed URL carries exactly the [expires]
    values of [U]; and when [U] has no non-empty [expires] value,
    [Verify] on the signed URL returns [ErrExpired] at no clock
    reading. *)
Theorem no_expiry_added (algo : string) (key : list byte) (now : list (unit → Z))
    (s : urlsigner.HMACSigner) (U : string) (u : url.URL) :
  urlsigner.New systemNow algo key now = Return s →
  algo ∈ utils.supported →
  url.Parse U = Some u →
  ∃ signed v,
    urlsigner.Sign s U 0 = Return (signed, None)
    ∧ url.Parse signed = Some v
    ∧ url.vals (url.Query v) urlsigner.Expiration
      = url.vals (url.Query u) urlsigner.Expiration
    ∧ (url.Get (url.Query u) urlsigner.Expiration = "" →
       ∀ t, (urlsigner.Verify (urlsigner.withNow s t) v).2
            ≠ Return (Some urlsigner.ErrExpired)).
Proof.
  intros Hnew Halgo HU.
  destruct (New_supported _ _ _ _ _ Hnew Halgo) as [hm Hh].
  pose proof (Parse_parsed _ _ HU) as Hu.
  destruct (signed_Parse s hm u 0 Hu) as (v & Hv & _ & _ & _ & _ & Hq).
  change (signedQuery s u 0) with (url.Query u) in Hq.
  assert (Hvals : url.vals (url.Query v) urlsigner.Expiration
                  = url.vals (url.Query u) urlsigner.Expiration).
  { rewrite Hq. by apply vals_insert_ne. }
  eexists _, v. split; [by apply Sign_spec|]. split; [done|]. split; [done|].
  intros Hget t.
  set (sg := url.Get (url.Query v) urlsigner.Signature).
  destruct (decide (sg = "")) as [Hsg|Hsg].
  { by rewrite (Verify_missing (urlsigner.withNow s t) _ Hsg). }
  destruct (base64.DecodeString sg) as [b|] eqn:Hdec.
  2:{ by rewrite (Verify_undecodable (urlsigner.withNow s t) _ Hsg Hdec). }
  rewrite (Verify_working (urlsigner.withNow s t) hm v b Hh Hsg Hdec).
  case_bool_decide; [|done].
  rewrite verifyExpiration_absent; [done|].
  rewrite Get_delete_ne by done. unfold url.Get in *. by rewrite Hvals.
Qed.

(** C5, as amended. For a signer whose factory returns the keyed hash
    [hm], and a URL [v] that [Sign] made of a URL without a [signature]
    parameter: on every URL [w] that has the scheme, host, path and
    fragment of [v] and the same first [signature] value, and whose
    values under some key other than [signature] are not those of [v]
    (a value altered, one of several values altered, a parameter added
    or removed), [Verify] returns [ErrInvalidSignature] at every clock
    reading, provided the keyed hash does not collide on the altered
    and the signed message. *)
Theorem tamper_invalid_signature (s : urlsigner.HMACSigner) (hm : hmac.HMAC)
    (U signed : string) (u v w : url.URL) (D : Z) (k : string) :
  urlsigner.hasher s () = Return hm →
  url.Parse U = Some u →
  url.Query u !! urlsigner.Signature = None →
  urlsigner.Sign s U D = Return (signed, None) →
  url.Parse signed = Some v →
  url.hierString (url.hier w) = url.hierString (url.hier v) →
  url.frag w = url.frag v →
  url.Get (url.Query w) urlsigner.Signature = url.Get (url.Query v) urlsigner.Signature →
  k ≠ urlsigner.Signature →
  url.vals (url.Query w) k ≠ url.vals (url.Query v) k →
  (tag hm (canonical w) = tag hm (signedMessage s u D) →
   canonical w = signedMessage s u D) →
  ∀ t, (urlsigner.Verify (urlsigner.withNow s t) w).2
       = Return (Some urlsigner.ErrInvalidSignature).
Proof.
  intros Hh HU Hnosig Hsign Hv Hhw Hfw Hsig Hk Haltered Hcoll t.
  pose proof (Parse_parsed _ _ HU) as Hu.
  rewrite (Sign_spec s hm U u D Hh HU) in Hsign. injection Hsign as <-.
  destruct (signed_Parse s hm u D Hu) as (v0 & Hv0 & Hhier & Hforce & Hfrag & _ & Hq).
  assert (v0 = v) as -> by congruence.
  destruct (signed_Verify_view s hm u v D Hnosig Hhier Hforce Hfrag Hq)
    as (Hget & Hdel & _).
  set (q := signedQuery s u D) in *.
  set (qw := url.Del (url.Query w) urlsigner.Signature).
  assert (Hne : url.Encode qw ≠ url.Encode q).
  { intros Henc.
    apply Encode_inj in Henc; [|apply Del_proper, ParseQuery_proper|apply signedQuery_proper].
    apply Haltered. rewrite <- Hdel in Henc. apply (f_equal (λ m, url.vals m k)) in Henc.
    revert Henc. unfold qw, url.vals, url.Del. by rewrite !lookup_delete_ne. }
  rewrite (Verify_working (urlsigner.withNow s t) hm w (tag hm (signedMessage s u D)) Hh).
  2:{ rewrite Hsig, Hget. apply EncodeToString_nonempty, tag_nonempty. }
  2:{ rewrite Hsig, Hget. apply DecodeString_EncodeToString. }
  rewrite bool_decide_eq_false_2; [done|]. intros Htag. symmetry in Htag.
  apply Hcoll in Htag. revert Htag.
  unfold canonical, signedMessage, url.String_. simpl. fold q qw.
  rewrite Hhw, Hhier, Hfw, Hfrag.
  intros Heq. apply (inj (String.app _)), app_inj_r_s in Heq.
  destruct (url.ForceQuery w), (url.ForceQuery u); simpl in Heq;
    repeat case_bool_decide; simpl in Heq; try discriminate; try congruence.
Qed.

(** C6. If the [signature] parameter is absent, or its first value is
    empty, [Verify] returns [ErrMissingSignature]; if its first value is
    not empty and is not unpadded URL-safe base64, [Verify] returns
    [ErrInvalidSignature]; the URL is left as it was, and the keyed hash
    is not asked for (any signer will do). *)
Theorem Verify_signature_errors (s : urlsigner.HMACSigner) (u : url.URL) :
  (url.Query u !! urlsigner.Signature = None →
   urlsigner.Verify s u = (u, Return (Some urlsigner.ErrMissingSignature)))
  ∧ (∀ rest, url.Query u !! urlsigner.Signature = Some ("" :: rest) →
     urlsigner.Verify s u = (u, Return (Some urlsigner.ErrMissingSignature)))
  ∧ (∀ x rest, url.Query u !! urlsigner.Signature = Some (x :: rest) →
     x ≠ "" → base64.DecodeString x = None →
     urlsigner.Verify s u = (u, Return (Some urlsigner.ErrInvalidSignature))).
Proof.
  split; [|split].
  - intros Hq. apply Verify_missing. by apply Get_None.
  - intros rest Hq. apply Verify_missing. unfold url.Get. by rewrite (vals_Some _ _ _ Hq).
  - intros x rest Hq Hx Hdec.
    assert (Hget : url.Get (url.Query u) urlsigner.Signature = x).
    { unfold url.Get. by rewrite (vals_Some _ _ _ Hq). }
    apply Verify_undecodable; by rewrite Hget.
Qed.

(** C7, as amended. For an algorithm name outside the supported set and
    a key of 32 to 64 bytes, [New] returns a signer; the factory of that
    signer panics whenever it is invoked; [Sign] panics exactly on the
    URLs that parse, and [Verify] exactly on the URLs whose first
    [signature] value is not empty and decodes: the calls that return
    before the factory is invoked return their error instead. *)
Theorem unsupported_algorithm_panics (algo : string) (key : list byte)
    (now : list (unit → Z)) :
  algo ∉ utils.supported → (32 ≤ length key ≤ 64)%nat →
  ∃ s, urlsigner.New systemNow algo key now = Return s
       ∧ panics (urlsigner.hasher s ())
       ∧ (∀ U D, panics (urlsigner.Sign s U D) ↔ is_Some (url.Parse U))
       ∧ (∀ u, panics (urlsigner.Verify s u).2
               ↔ url.Get (url.Query u) urlsigner.Signature ≠ ""
                 ∧ is_Some (base64.DecodeString
                              (url.Get (url.Query u) urlsigner.Signature))).
Proof.
  intros Halgo Hkey. apply ParseHasher_unsupported in Halgo.
  destruct (New_valid_key systemNow algo key now Hkey) as [s Hnew].
  exists s. split; [done|]. apply New_spec in Hnew as (_ & Hh & _).
  assert (Hpanic : panics (urlsigner.hasher s ())).
  { rewrite Hh. by destruct (utils.ParseHasher algo). }
  split; [done|]. destruct (urlsigner.hasher s ()) as [|msg] eqn:Hhs; [done|].
  split.
  - intros U D. unfold urlsigner.Sign.
    destruct (url.Parse U) as [u|]; [|split; [done | by intros [? ?]]].
    unfold urlsigner.sumURLString. rewrite Hhs. simpl. split; [eauto | done].
  - intros u. set (sg := url.Get (url.Query u) urlsigner.Signature).
    destruct (decide (sg = "")) as [Hsg|Hsg].
    { rewrite (Verify_missing _ _ Hsg). simpl. split; [done | by intros [? _]]. }
    destruct (base64.DecodeString sg) as [b|] eqn:Hdec.
    + rewrite (Verify_decoded _ _ _ Hsg Hdec). simpl.
      unfold urlsigner.verifyMAC, urlsigner.sumURLString. rewrite Hhs. simpl.
      split; [eauto | done].
    + rewrite (Verify_undecodable _ _ Hsg Hdec). simpl.
      split; [done | by intros [_ [? ?]]].
Qed.

(** C8. When the first [signature] value decodes and [verifyMAC] accepts
    it, and the first [expires] value is not empty and does not parse in
    the RFC3339Nano layout, [Verify] panics: no error value is
    returned. *)
Theorem unparsable_expiry_panics (s : urlsigner.HMACSigner) (u : url.URL)
    (b : list byte) :
  url.Get (url.Query u) urlsigner.Signature ≠ "" →
  base64.DecodeString (url.Get (url.Query u) urlsigner.Signature) = Some b →
  urlsigner.verifyMAC s (canonical u) b = Return true →
  url.Get (url.Query u) urlsigner.Expiration ≠ "" →
  time.Parse (url.Get (url.Query u) urlsigner.Expiration) = None →
  panics (urlsigner.Verify s u).2
  ∧ ∀ e, (urlsigner.Verify s u).2 ≠ Return e.
Proof.
  intros Hsg Hdec Hmac Hexp Hparse.
  rewrite (Verify_decoded _ _ _ Hsg Hdec). simpl. rewrite Hmac. simpl.
  assert (Hp : panics (urlsigner.verifyExpiration s
                         (url.Del (url.Query u) urlsigner.Signature))).
  { apply verifyExpiration_unparsable; by rewrite Get_delete_ne. }
  split; [done|]. intros e He. by rewrite He in Hp.
Qed.

(** C9, as amended. The outcome of [Verify] depends on the URL only
    through what [URL.String] prints before the query, [ForceQuery], the
    fragment, and, for every key, the sequence of that key's values in
    the order of the text: the parameters may be reordered in any way
    that keeps the values of each key in their order, and [Verify]
    returns what it returns on the signed URL itself. *)
Theorem Verify_reorder (s : urlsigner.HMACSigner) (v w : url.URL) :
  url.hierString (url.hier w) = url.hierString (url.hier v) →
  url.ForceQuery w = url.ForceQuery v →
  url.frag w = url.frag v →
  (∀ k, valuesOf k (url.RawQuery w) = valuesOf k (url.RawQuery v)) →
  (urlsigner.Verify s w).2 = (urlsigner.Verify s v).2.
Proof.
  intros Hhier Hforce Hfrag Hvals.
  assert (Hq : url.Query w = url.Query v).
  { apply proper_vals_eq; [apply ParseQuery_proper..|].
    intros k. unfold url.Query. by rewrite !vals_ParseQuery. }
  unfold urlsigner.Verify. rewrite Hq.
  destruct (urlsigner.extractAndDecodeSignature (url.Query v)) as [[b q] [e|]]; [done|].
  simpl. unfold url.String_. simpl. by rewrite Hhier, Hforce, Hfrag.
Qed.


End Claims.

(** * The claims on the package's test data

    SHA-256, a key of 32 zero bytes, the clock at 2025-08-29T20:00:00Z. *)

Import scenario.

(** A parsed plain URL. *)
Definition plainURL (head rawQuery : string) : url.URL :=
  parsedURL (H := plain_syntax) head rawQuery.

Ltac in_supported := unfold utils.supported; repeat constructor.

Ltac not_in_supported :=
  unfold utils.supported; rewrite !not_elem_of_cons;
  repeat split; try discriminate; apply not_elem_of_nil.

Lemma sign_verify_roundtrip_witness :
  urlsigner.New (λ _, 0) "sha256" zeroKey [λ _, t2025] = Return (testSigner "sha256" zeroKey t2025)
  ∧ url.Parse "https://example.com/path?hello=world"
    = Some (plainURL "https://example.com/path" "hello=world")
  ∧ ∃ signed v,
      urlsigner.Sign (testSigner "sha256" zeroKey t2025) "https://example.com/path?hello=world"
        7200000000000 = Return (signed, None)
      ∧ url.Parse signed = Some v
      ∧ (urlsigner.Verify (testSigner "sha256" zeroKey t2025) v).2 = Return None.
Proof.
  split; [reflexivity|]. split; [reflexivity|].
  apply (sign_verify_roundtrip (λ _, 0) "sha256" zeroKey (λ _, t2025) _ _
           (plainURL "https://example.com/path" "hello=world")).
  - reflexivity.
  - in_supported.
  - reflexivity.
  - vm_compute; reflexivity.
  - intros Hz. discriminate Hz.
  - intros _. vm_compute. split; discriminate.
  - lia.
Defined.

(** C1 as stated fails: signing succeeds and the signed URL does not
    verify under the same clock, for a URL that already has a [signature]
    parameter, for a bare [?] after the path, for an [expires] value that
    [Sign(U, 0)] leaves in place, and for an expiry past the year 9999. *)
Lemma roundtrip_counterexample :
  signThenVerify "sha256" zeroKey t2025 t2025 "https://example.com/x?signature=" 0
  = Return (Some urlsigner.ErrMissingSignature)
  ∧ signThenVerify "sha256" zeroKey t2025 t2025 "https://example.com/x?" 0
    = Return (Some urlsigner.ErrInvalidSignature)
  ∧ panics (signThenVerify "sha256" zeroKey t2025 t2025
              "https://example.com/x?expires=not-a-time" 0)
  ∧ panics (signThenVerify "sha256" zeroKey 253402300799000000000 253402300799000000000
              "https://example.com/x" 2000000000).
Proof.
  split; [vm_compute; reflexivity|]. split; [vm_compute; reflexivity|].
  split; vm_compute; exact I.
Qed.

Lemma expiry_boundary_witness :
  urlsigner.New (λ _, 0) "sha256" zeroKey [] = Return (testSigner "sha256" zeroKey 0)
  ∧ url.Parse "https://example.com/asset" = Some (plainURL "https://example.com/asset" "")
  ∧ ∃ signed v,
      urlsigner.Sign (urlsigner.withNow (testSigner "sha256" zeroKey 0) t2025)
        "https://example.com/asset" 60000000000 = Return (signed, None)
      ∧ url.Parse signed = Some v
      ∧ (urlsigner.Verify (urlsigner.withNow (testSigner "sha256" zeroKey 0) (t2025 + 60000000000)) v).2
        = Return None
      ∧ ∀ t1, t2025 + 60000000000 < t1 →
          (urlsigner.Verify (urlsigner.withNow (testSigner "sha256" zeroKey 0) t1) v).2
          = Return (Some urlsigner.ErrExpired).
Proof.
  split; [reflexivity|]. split; [reflexivity|].
  apply (expiry_boundary (λ _, 0) "sha256" zeroKey [] _ _
           (plainURL "https://example.com/asset" "")).
  - reflexivity.
  - in_supported.
  - reflexivity.
  - vm_compute; reflexivity.
  - lia.
  - vm_compute. split; discriminate.
Defined.

(** C3 as stated fails for a URL that already has a [signature]
    parameter: at the expiry instant and after it, [Verify] returns
    [ErrMissingSignature]; and for an expiry past the year 9999, which
    [Verify] cannot parse at the expiry instant. *)
Lemma expiry_boundary_counterexample :
  signThenVerify "sha256" zeroKey t2025 (t2025 + 60000000000)
    "https://example.com/x?signature=" 60000000000
  = Return (Some urlsigner.ErrMissingSignature)
  ∧ signThenVerify "sha256" zeroKey t2025 (t2025 + 60000000001)
      "https://example.com/x?signature=" 60000000000
    = Return (Some urlsigner.ErrMissingSignature)
  ∧ panics (signThenVerify "sha256" zeroKey 253402300799000000000 253402300801000000000
              "https://example.com/x" 2000000000).
Proof.
  split; [vm_compute; reflexivity|]. split; [vm_compute; reflexivity|].
  vm_compute; exact I.
Qed.

Lemma no_expiry_added_witness :
  urlsigner.New (λ _, 0) "sha256" zeroKey [λ _, t2025] = Return (testSigner "sha256" zeroKey t2025)
  ∧ url.Parse "https://example.com/path?hello=world"
    = Some (plainURL "https://example.com/path" "hello=world")
  ∧ ∃ signed v,
      urlsigner.Sign (testSigner "sha256" zeroKey t2025) "https://example.com/path?hello=world" 0
      = Return (signed, None)
      ∧ url.Parse signed = Some v
      ∧ url.vals (url.Query v) urlsigner.Expiration
        = url.vals (url.Query (plainURL "https://example.com/path" "hello=world"))
            urlsigner.Expiration
      ∧ (url.Get (url.Query (plainURL "https://example.com/path" "hello=world"))
           urlsigner.Expiration = "" →
         ∀ t, (urlsigner.Verify (urlsigner.withNow (testSigner "sha256" zeroKey t2025) t) v).2
              ≠ Return (Some urlsigner.ErrExpired)).
Proof.
  split; [reflexivity|]. split; [reflexivity|].
  apply (no_expiry_added (λ _, 0) "sha256" zeroKey [λ _, t2025]).
  - reflexivity.
  - in_supported.
  - reflexivity.
Defined.

(** C4 as stated fails for a URL that already has an [expires]
    parameter: [Sign(U, 0)] keeps it, and [Verify] returns [ErrExpired]. *)
Lemma no_expiry_counterexample :
  signAt "sha256" zeroKey t2025 "https://example.com/x?expires=2020-01-01T00:00:00Z" 0
  = Return ("https://example.com/x?expires=2020-01-01T00%3A00%3A00Z&signature=d2EQq1OJWnaxvPZ4ceE8YOVkuGp_Q6HxXh42T8g2-FA",
            None)
  ∧ signThenVerify "sha256" zeroKey t2025 t2025
      "https://example.com/x?expires=2020-01-01T00:00:00Z" 0
    = Return (Some urlsigner.ErrExpired).
Proof. split; vm_compute; reflexivity. Qed.

Lemma tamper_invalid_signature_witness :
  let s := testSigner "sha256" zeroKey t2025 in
  let u := plainURL "https://example.com/p" "a=1&a=2" in
  let v := plainURL "https://example.com/p"
             "a=1&a=2&signature=g1WOmj3ifDTUGQMsNO4ixT1yRt32qBL7ZrkuZqUVb1M" in
  let w := plainURL "https://example.com/p"
             "a=1&a=3&signature=g1WOmj3ifDTUGQMsNO4ixT1yRt32qBL7ZrkuZqUVb1M" in
  urlsigner.Sign s "https://example.com/p?a=1&a=2" 0
  = Return ("https://example.com/p?a=1&a=2&signature=g1WOmj3ifDTUGQMsNO4ixT1yRt32qBL7ZrkuZqUVb1M",
            None)
  ∧ url.vals (url.Query w) "a" ≠ url.vals (url.Query v) "a"
  ∧ ∀ t, (urlsigner.Verify (urlsigner.withNow s t) w).2
         = Return (Some urlsigner.ErrInvalidSignature).
Proof.
  intros s u v w. split; [vm_compute; reflexivity|]. split; [vm_compute; discriminate|].
  apply (tamper_invalid_signature s
           (hmac.New hash.SHA256 zeroKey) "https://example.com/p?a=1&a=2"
           "https://example.com/p?a=1&a=2&signature=g1WOmj3ifDTUGQMsNO4ixT1yRt32qBL7ZrkuZqUVb1M"
           u v w 0 "a").
  - reflexivity.
  - reflexivity.
  - vm_compute; reflexivity.
  - vm_compute; reflexivity.
  - reflexivity.
  - reflexivity.
  - reflexivity.
  - vm_compute; reflexivity.
  - discriminate.
  - vm_compute; discriminate.
  - intros Htag. exfalso. revert Htag. vm_compute. discriminate.
Defined.

(** C5 as stated fails: after signing a URL that already has a
    [signature] parameter, altering another parameter gives
    [ErrMissingSignature]; and emptying the [signature] value of a signed
    URL gives [ErrMissingSignature] as well. *)
Lemma tamper_counterexample :
  signTamperVerify "sha256" zeroKey t2025 "https://example.com/p?b=1&signature=" 0 "b" "2"
  = Return (Some urlsigner.ErrMissingSignature)
  ∧ signTamperVerify "sha256" zeroKey t2025 "https://example.com/path?a=1" 0 "signature" ""
    = Return (Some urlsigner.ErrMissingSignature).
Proof. split; vm_compute; reflexivity. Qed.

Lemma Verify_signature_errors_witness :
  let s := testSigner "sha256" zeroKey t2025 in
  let u1 := plainURL "https://example.com/x" "y=z" in
  let u2 := plainURL "https://example.com/x" "signature=" in
  let u3 := plainURL "https://example.com/x" "signature=***not_base64***" in
  urlsigner.Verify s u1 = (u1, Return (Some urlsigner.ErrMissingSignature))
  ∧ urlsigner.Verify s u2 = (u2, Return (Some urlsigner.ErrMissingSignature))
  ∧ urlsigner.Verify s u3 = (u3, Return (Some urlsigner.ErrInvalidSignature)).
Proof.
  intros s u1 u2 u3. split; [|split].
  - apply (proj1 (Verify_signature_errors s u1)). vm_compute; reflexivity.
  - apply (proj1 (proj2 (Verify_signature_errors s u2)) []). vm_compute; reflexivity.
  - apply (proj2 (proj2 (Verify_signature_errors s u3)) "***not_base64***" []).
    + vm_compute; reflexivity.
    + discriminate.
    + vm_compute; reflexivity.
Defined.

Lemma unsupported_algorithm_panics_witness :
  ("md5" ∉ utils.supported)
  ∧ ∃ s, urlsigner.New (λ _, 0) "md5" zeroKey [] = Return s
         ∧ panics (urlsigner.hasher s ())
         ∧ (∀ U D, panics (urlsigner.Sign s U D) ↔ is_Some (url.Parse U))
         ∧ (∀ u, panics (urlsigner.Verify s u).2
                 ↔ url.Get (url.Query u) urlsigner.Signature ≠ ""
                   ∧ is_Some (base64.DecodeString
                                (url.Get (url.Query u) urlsigner.Signature))).
Proof.
  split; [not_in_supported|].
  apply (unsupported_algorithm_panics (λ _, 0) "md5" zeroKey []).
  - not_in_supported.
  - vm_compute. split; by apply Nat.leb_le.
Defined.

(** C7 as stated fails: with an unsupported algorithm, the first [Verify]
    call on a URL without a signature returns [ErrMissingSignature], and
    the first [Sign] call on a URL that does not parse returns the parse
    error; neither panics. *)
Lemma first_call_counterexample :
  verifyAt "md5" zeroKey t2025 "https://example.com/x?y=z"
  = Return (Some urlsigner.ErrMissingSignature)
  ∧ signAt "md5" zeroKey t2025 "http://%zz" 0 = Return ("", Some urlsigner.ErrURLParse).
Proof. split; vm_compute; reflexivity. Qed.

Lemma unparsable_expiry_panics_witness :
  let s := testSigner "sha256" zeroKey t2025 in
  let u := plainURL "https://example.com/path"
             "expires=not-a-time&hello=world&signature=CWkP4woo5gLwcM4aV9cA2dYXmCz6s6Y72wsTuyotwAA" in
  url.Get (url.Query u) urlsigner.Expiration = "not-a-time"
  ∧ time.Parse "not-a-time" = None
  ∧ panics (urlsigner.Verify s u).2
  ∧ ∀ e, (urlsigner.Verify s u).2 ≠ Return e.
Proof.
  intros s u. split; [vm_compute; reflexivity|]. split; [vm_compute; reflexivity|].
  apply (unparsable_expiry_panics s u
           (tag (hmac.New hash.SHA256 zeroKey)
              "https://example.com/path?expires=not-a-time&hello=world")).
  - vm_compute; discriminate.
  - vm_compute; reflexivity.
  - vm_compute; reflexivity.
  - vm_compute; discriminate.
  - vm_compute; reflexivity.
Defined.

Lemma Verify_reorder_witness :
  let s := testSigner "sha256" zeroKey t2025 in
  let v := plainURL "https://example.com/p"
             "a=1&b=2&signature=iGfZenA64Bmf3fujeQMADbPoMeO75E-41jeS7hQmK0I" in
  let w := plainURL "https://example.com/p"
             "signature=iGfZenA64Bmf3fujeQMADbPoMeO75E-41jeS7hQmK0I&b=2&a=1" in
  urlsigner.Sign s "https://example.com/p?a=1&b=2" 0
  = Return ("https://example.com/p?a=1&b=2&signature=iGfZenA64Bmf3fujeQMADbPoMeO75E-41jeS7hQmK0I",
            None)
  ∧ (urlsigner.Verify s v).2 = Return None
  ∧ (urlsigner.Verify s w).2 = (urlsigner.Verify s v).2.
Proof.
  intros s v w. split; [vm_compute; reflexivity|]. split; [vm_compute; reflexivity|].
  apply (Verify_reorder s v w); try reflexivity.
  intros k. unfold valuesOf.
  let pw := eval vm_compute in (omap decodePair (strings.fields "&" (url.RawQuery w))) in
  change (omap decodePair (strings.fields "&" (url.RawQuery w))) with pw.
  let pv := eval vm_compute in (omap decodePair (strings.fields "&" (url.RawQuery v))) in
  change (omap decodePair (strings.fields "&" (url.RawQuery v))) with pv.
  rewrite !filter_cons, !filter_nil. simpl.
  destruct (decide ("signature" = k)), (decide ("b" = k)), (decide ("a" = k));
    congruence.
Defined.

(** C9 as stated fails: two values of one key in the other order are the
    same multiset of parameters, and [Verify] returns
    [ErrInvalidSignature]; so does a URL that differs from the signed one
    in its fragment only. *)
Lemma reorder_counterexample :
  signAt "sha256" zeroKey t2025 "https://example.com/p?a=1&a=2" 0
  = Return ("https://example.com/p?a=1&a=2&signature=g1WOmj3ifDTUGQMsNO4ixT1yRt32qBL7ZrkuZqUVb1M",
            None)
  ∧ verifyAt "sha256" zeroKey t2025
      "https://example.com/p?a=1&a=2&signature=g1WOmj3ifDTUGQMsNO4ixT1yRt32qBL7ZrkuZqUVb1M"
    = Return None
  ∧ verifyAt "sha256" zeroKey t2025
      "https://example.com/p?a=2&a=1&signature=g1WOmj3ifDTUGQMsNO4ixT1yRt32qBL7ZrkuZqUVb1M"
    = Return (Some urlsigner.ErrInvalidSignature)
  ∧ signAt "sha256" zeroKey t2025 "https://example.com/p?a=1#top" 0
    = Return ("https://example.com/p?a=1&signature=A99Evi-A6fBgvlusnaFQEk0vukWSfojDVID4Mky0fE8#top",
              None)
  ∧ verifyAt "sha256" zeroKey t2025
      "https://example.com/p?a=1&signature=A99Evi-A6fBgvlusnaFQEk0vukWSfojDVID4Mky0fE8#bottom"
    = Return (Some urlsigner.ErrInvalidSignature).
Proof. split; [|split; [|split; [|split]]]; vm_compute; reflexivity. Qed.


(** * Further properties of the signer *)

Lemma EncodeToString_length (src : list byte) :
  String.length (base64.EncodeToString src) = ((4 * length src + 2) / 3)%nat.
Proof.
  induction src as [| |a b|a b c rest IH] using list_ind3; [done..|].
  change (base64.EncodeToString (a :: b :: c :: rest))
    with (String (base64.encodeURL ((Z_of_byte a * 65536 + Z_of_byte b * 256 + Z_of_byte c)
                                    / 262144 mod 64))
           (String (base64.encodeURL ((Z_of_byte a * 65536 + Z_of_byte b * 256 + Z_of_byte c)
                                      / 4096 mod 64))
             (String (base64.encodeURL ((Z_of_byte a * 65536 + Z_of_byte b * 256 + Z_of_byte c)
                                        / 64 mod 64))
               (String (base64.encodeURL ((Z_of_byte a * 65536 + Z_of_byte b * 256 + Z_of_byte c)
                                          mod 64))
                 (base64.EncodeToString rest))))).
  cbn [String.length length]. rewrite IH.
  replace (4 * S (S (S (length rest))) + 2)%nat with ((4 * length rest + 2) + 4 * 3)%nat by lia.
  rewrite Nat.div_add by done. lia.
Qed.

Lemma Get_Del_Expiration (q : url.Values) :
  url.Get (url.Del q urlsigner.Signature) urlsigner.Expiration
  = url.Get q urlsigner.Expiration.
Proof. by apply Get_delete_ne. Qed.

Section SignerProperties.
Context `{url.Syntax} `{hash.Digests}.

Lemma Sign_parsed_again (s : urlsigner.HMACSigner) (hm : hmac.HMAC) (U : string)
    (u : url.URL) (D : Z) :
  urlsigner.hasher s () = Return hm → url.Parse U = Some u →
  ∃ signed v,
    urlsigner.Sign s U D = Return (signed, None) ∧ url.Parse signed = Some v
    ∧ url.hierString (url.hier v) = url.hierString (url.hier u)
    ∧ url.frag v = url.frag u
    ∧ url.RawQuery v = signedRawQuery s hm u D
    ∧ url.Query v
      = <[urlsigner.Signature :=
            url.vals (signedQuery s u D) urlsigner.Signature
            ++ [base64.EncodeToString (tag hm (signedMessage s u D))]]>
          (signedQuery s u D).
Proof.
  intros Hh HU.
  destruct (signed_Parse s hm u D (Parse_parsed _ _ HU))
    as (v & Hv & Hhier & _ & Hfrag & Hraw & Hq).
  exists (url.String_ (url.withRawQuery u (signedRawQuery s hm u D))), v.
  split; [by apply Sign_spec|]. done.
Qed.

Lemma vals_signedQuery_other (s : urlsigner.HMACSigner) (u : url.URL) (D : Z) (k : string) :
  k ≠ urlsigner.Expiration →
  url.vals (signedQuery s u D) k = url.vals (url.Query u) k.
Proof.
  intros Hk. unfold signedQuery. destruct (negb (D =? 0)); [|done].
  unfold url.Set_. by rewrite vals_insert_ne.
Qed.

(** X1. With a working hash factory, [Sign] returns an error exactly
    when [url.Parse] rejects its argument, and then the string it
    returns is empty; on every other argument it returns a non-empty
    signed URL and no error. *)
Theorem Sign_error_iff (s : urlsigner.HMACSigner) (hm : hmac.HMAC) (U : string) (D : Z) :
  urlsigner.hasher s () = Return hm →
  (url.Parse U = None →
   urlsigner.Sign s U D = Return ("", Some urlsigner.ErrURLParse))
  ∧ (is_Some (url.Parse U) →
     ∃ signed, urlsigner.Sign s U D = Return (signed, None) ∧ signed ≠ "")
  ∧ ((∃ signed e, urlsigner.Sign s U D = Return (signed, Some e))
     ↔ url.Parse U = None).
Proof.
  intros Hh.
  assert (Hnone : url.Parse U = None →
                  urlsigner.Sign s U D = Return ("", Some urlsigner.ErrURLParse)).
  { intros HU. unfold urlsigner.Sign. by rewrite HU. }
  assert (Hsome : is_Some (url.Parse U) →
                  ∃ signed, urlsigner.Sign s U D = Return (signed, None) ∧ signed ≠ "").
  { intros [u HU].
    destruct (Sign_parsed_again s hm U u D Hh HU) as (signed & v & Hs & Hv & _).
    exists signed. split; [done|]. intros ->.
    rewrite (Sign_spec s hm U u D Hh HU) in Hs. injection Hs as Hs.
    destruct (signedRawQuery_bytes s hm u D) as [Hne _].
    unfold url.String_ in Hs. simpl in Hs.
    apply app_eq_nil_s in Hs as [_ Hs].
    rewrite (bool_decide_eq_false_2 _ Hne) in Hs. simpl in Hs.
    rewrite orb_true_r in Hs. discriminate. }
  split; [done|]. split; [done|]. split.
  - intros (signed & e & Hs). destruct (url.Parse U) as [u|] eqn:HU; [|done].
    destruct (Hsome ltac:(by eexists)) as (signed' & Hs' & _). congruence.
  - intros HU. eexists _, _. by apply Hnone.
Qed.

(** X2. The signature that [Sign] appends is the last [signature] value
    of the signed URL and the last parameter of its query text. It is
    unpadded URL-safe base64 of [ceil(4n/3)] characters, [n] the digest
    size (43 characters for the 32-byte digests, 86 for SHA3-512), and
    decodes to [n] bytes. *)
Theorem Sign_signature_shape (s : urlsigner.HMACSigner) (hm : hmac.HMAC) (U : string)
    (u : url.URL) (D : Z) :
  urlsigner.hasher s () = Return hm → url.Parse U = Some u →
  ∃ signed v sg b,
    urlsigner.Sign s U D = Return (signed, None) ∧ url.Parse signed = Some v
    ∧ last (url.vals (url.Query v) urlsigner.Signature) = Some sg
    ∧ (∃ before, url.RawQuery v = before +:+ "signature=" +:+ sg)
    ∧ strings.all base64Byte sg = true
    ∧ String.length sg = (if hash.Size (hmac.fn hm) =? 32 then 43 else 86)%nat
    ∧ base64.DecodeString sg = Some b
    ∧ length b = hash.Size (hmac.fn hm).
Proof.
  intros Hh HU.
  destruct (Sign_parsed_again s hm U u D Hh HU)
    as (signed & v & Hs & Hv & _ & _ & Hraw & Hq).
  exists signed, v, (base64.EncodeToString (tag hm (signedMessage s u D))),
    (tag hm (signedMessage s u D)).
  split; [done|]. split; [done|]. split.
  { rewrite Hq, vals_insert_eq. apply last_snoc. }
  split.
  { rewrite Hraw. unfold signedRawQuery. case_bool_decide.
    - by exists "".
    - exists (url.Encode (signedQuery s u D) +:+ "&").
      by rewrite !app_assoc_s. }
  split; [apply EncodeToString_bytes|]. split.
  { rewrite EncodeToString_length, tag_length. by destruct (hmac.fn hm). }
  split; [apply DecodeString_EncodeToString | apply tag_length].
Qed.

(** X3. [Sign] keeps what the caller wrote: the signed URL has the
    scheme, host and path and the fragment of the input, and under
    every key other than [signature] and [expires] the values of the
    input in their order. A non-zero duration replaces whatever
    [expires] values there were by one value, which, the clock
    reporting UTC times, parses back to the clock reading plus the
    duration when that falls in the years 0 to 9999; the new signature
    comes after the [signature] values the input had. *)
Theorem Sign_keeps_parameters (s : urlsigner.HMACSigner) (hm : hmac.HMAC) (U : string)
    (u : url.URL) (D : Z) :
  urlsigner.hasher s () = Return hm → url.Parse U = Some u →
  ∃ signed v,
    urlsigner.Sign s U D = Return (signed, None) ∧ url.Parse signed = Some v
    ∧ url.hierString (url.hier v) = url.hierString (url.hier u)
    ∧ url.frag v = url.frag u
    ∧ (∀ k, k ≠ urlsigner.Signature → k ≠ urlsigner.Expiration →
            url.vals (url.Query v) k = url.vals (url.Query u) k)
    ∧ (∃ sg, url.vals (url.Query v) urlsigner.Signature
             = url.vals (url.Query u) urlsigner.Signature ++ [sg])
    ∧ (D ≠ 0 →
       ∃ e, url.vals (url.Query v) urlsigner.Expiration = [e]
            ∧ (0 ≤ time.Year (urlsigner.now s () + D) ≤ 9999 →
               time.Parse e = Some (urlsigner.now s () + D))).
Proof.
  intros Hh HU.
  destruct (Sign_parsed_again s hm U u D Hh HU)
    as (signed & v & Hs & Hv & Hhier & Hfrag & _ & Hq).
  exists signed, v. do 4 (split; [done|]). split; [|split].
  - intros k Hsig Hexp. rewrite Hq, vals_insert_ne by done.
    by apply vals_signedQuery_other.
  - eexists. rewrite Hq, vals_insert_eq. by rewrite vals_signedQuery_other.
  - intros HD. exists (time.Format (urlsigner.now s () + D)). split.
    + rewrite Hq, vals_insert_ne by done. unfold signedQuery.
      rewrite (proj2 (Z.eqb_neq D 0) HD). simpl.
      unfold url.Set_. by rewrite vals_insert_eq.
    + apply Parse_Format.
Qed.

(** X5. [Verify] returns [nil] exactly when the first [signature] value
    is present, decodes, and is the tag of the URL re-serialised without
    [signature], and the first [expires] value is empty or absent or
    parses to an instant that is not before the clock reading. *)
Theorem Verify_nil_iff (s : urlsigner.HMACSigner) (hm : hmac.HMAC) (u : url.URL) :
  urlsigner.hasher s () = Return hm →
  (urlsigner.Verify s u).2 = Return None
  ↔ url.Get (url.Query u) urlsigner.Signature ≠ ""
    ∧ base64.DecodeString (url.Get (url.Query u) urlsigner.Signature)
      = Some (tag hm (canonical u))
    ∧ (url.Get (url.Query u) urlsigner.Expiration = ""
       ∨ ∃ t, time.Parse (url.Get (url.Query u) urlsigner.Expiration) = Some t
              ∧ urlsigner.now s () ≤ t).
Proof.
  intros Hh.
  destruct (decide (url.Get (url.Query u) urlsigner.Signature = "")) as [Hget|Hget].
  { rewrite (Verify_missing s u Hget). simpl. split; [done|]. by intros [? _]. }
  destruct (base64.DecodeString (url.Get (url.Query u) urlsigner.Signature))
    as [b|] eqn:Hdec.
  2:{ rewrite (Verify_undecodable s u Hget Hdec). simpl. split; [done|].
      by intros (_ & ? & _). }
  rewrite (Verify_working s hm u b Hh Hget Hdec).
  case_bool_decide as Hb.
  2:{ split; [done|]. intros (_ & [= ->] & _). done. }
  subst b. unfold urlsigner.verifyExpiration. rewrite Get_Del_Expiration.
  destruct (url.Get (url.Query u) urlsigner.Expiration) as [|c e] eqn:Hexp.
  { simpl. split; [|done]. intros _. split; [done|]. split; [done|]. by left. }
  simpl. destruct (time.Parse (String c e)) as [t|] eqn:Hparse.
  - unfold time.Before. destruct (Z.ltb_spec t (urlsigner.now s ())).
    + split; [done|]. intros (_ & _ & [?|(t' & [= <-] & ?)]); [done|lia].
    + split; [|done]. intros _. split; [done|]. split; [done|].
      right. exists t. split; [done|lia].
  - split; [done|]. intros (_ & _ & [?|(t' & ? & _)]); done.
Qed.

(** X6. [Verify] returns [ErrExpired] exactly when the signature is
    present, decodes and matches, and the first [expires] value parses
    to an instant strictly before the clock reading: a URL whose
    signature does not match is never reported as expired. *)
Theorem Verify_expired_iff (s : urlsigner.HMACSigner) (hm : hmac.HMAC) (u : url.URL) :
  urlsigner.hasher s () = Return hm →
  (urlsigner.Verify s u).2 = Return (Some urlsigner.ErrExpired)
  ↔ url.Get (url.Query u) urlsigner.Signature ≠ ""
    ∧ base64.DecodeString (url.Get (url.Query u) urlsigner.Signature)
      = Some (tag hm (canonical u))
    ∧ ∃ t, time.Parse (url.Get (url.Query u) urlsigner.Expiration) = Some t
           ∧ t < urlsigner.now s ().
Proof.
  intros Hh.
  destruct (decide (url.Get (url.Query u) urlsigner.Signature = "")) as [Hget|Hget].
  { rewrite (Verify_missing s u Hget). simpl. split; [done|]. by intros [? _]. }
  destruct (base64.DecodeString (url.Get (url.Query u) urlsigner.Signature))
    as [b|] eqn:Hdec.
  2:{ rewrite (Verify_undecodable s u Hget Hdec). simpl. split; [done|].
      by intros (_ & ? & _). }
  rewrite (Verify_working s hm u b Hh Hget Hdec).
  case_bool_decide as Hb.
  2:{ split; [done|]. intros (_ & [= ->] & _). done. }
  subst b. unfold urlsigner.verifyExpiration. rewrite Get_Del_Expiration.
  destruct (url.Get (url.Query u) urlsigner.Expiration) as [|c e] eqn:Hexp.
  { simpl. split; [done|]. by intros (_ & _ & t & ? & _). }
  simpl. destruct (time.Parse (String c e)) as [t|] eqn:Hparse.
  - unfold time.Before. destruct (Z.ltb_spec t (urlsigner.now s ())).
    + split; [|done]. intros _. split; [done|]. split; [done|]. by exists t.
    + split; [done|]. intros (_ & _ & t' & [= <-] & ?). lia.
  - split; [done|]. by intros (_ & _ & t' & ? & _).
Qed.

(** X7. [Verify] consumes the signature of the URL value it is given.
    Whatever the first call did, a second call on the same [*url.URL],
    by any signer, returns [ErrInvalidSignature] exactly when the first
    [signature] value is not empty and does not decode (the first call
    then left the URL as it was), and [ErrMissingSignature] in every
    other case: also after a first call that returned [nil] or
    [ErrExpired], and after one that refused the MAC. *)
Theorem Verify_twice (s s' : urlsigner.HMACSigner) (u : url.URL) :
  let sg := url.Get (url.Query u) urlsigner.Signature in
  let second := (urlsigner.Verify s' (urlsigner.Verify s u).1).2 in
  (second = Return (Some urlsigner.ErrInvalidSignature)
   ↔ sg ≠ "" ∧ base64.DecodeString sg = None)
  ∧ (second = Return (Some urlsigner.ErrMissingSignature)
     ↔ sg = "" ∨ is_Some (base64.DecodeString sg))
  ∧ (second = Return (Some urlsigner.ErrInvalidSignature)
     ∨ second = Return (Some urlsigner.ErrMissingSignature)).
Proof.
  intros sg second. unfold second.
  destruct (decide (sg = "")) as [Hget|Hget].
  { rewrite (Verify_missing s u Hget). simpl. rewrite (Verify_missing s' u Hget).
    simpl. split; [|split]; [split; [done|by intros [? _]]|split; [by left|done]|by right]. }
  destruct (base64.DecodeString sg) as [b|] eqn:Hdec.
  - assert (Hafter : (urlsigner.Verify s' (urlsigner.Verify s u).1).2
                     = Return (Some urlsigner.ErrMissingSignature)).
    { rewrite (Verify_decoded s u b Hget Hdec). simpl.
      rewrite Verify_missing; [done|].
      unfold url.Query at 1. simpl.
      rewrite ParseQuery_Encode by apply Del_proper, ParseQuery_proper.
      apply Get_None. unfold url.Del. apply lookup_delete_eq. }
    rewrite Hafter.
    split; [|split]; [split; [done|by intros [_ ?]]|split; [by right|done]|by right].
  - rewrite (Verify_undecodable s u Hget Hdec). simpl.
    rewrite (Verify_undecodable s' u Hget Hdec). simpl.
    split; [|split]; [done| |by left].
    split; [done|]. intros [?|[? ?]]; done.
Qed.

End SignerProperties.

(** ** The signer's properties on the package's test data *)

Import scenario.

Lemma Sign_error_iff_witness :
  let s := testSigner "sha256" zeroKey t2025 in
  urlsigner.hasher s () = Return (hmac.New hash.SHA256 zeroKey)
  ∧ (url.Parse "http://%zz" = None →
     urlsigner.Sign s "http://%zz" 0 = Return ("", Some urlsigner.ErrURLParse))
  ∧ (is_Some (url.Parse "http://%zz") →
     ∃ signed, urlsigner.Sign s "http://%zz" 0 = Return (signed, None) ∧ signed ≠ "")
  ∧ ((∃ signed e, urlsigner.Sign s "http://%zz" 0 = Return (signed, Some e))
     ↔ url.Parse "http://%zz" = None).
Proof.
  intros s. split; [reflexivity|].
  apply (Sign_error_iff s (hmac.New hash.SHA256 zeroKey) "http://%zz" 0). reflexivity.
Defined.

Lemma Sign_signature_shape_witness :
  let s := testSigner "sha256" zeroKey t2025 in
  urlsigner.hasher s () = Return (hmac.New hash.SHA256 zeroKey)
  ∧ url.Parse "https://example.com/path" = Some (plainURL "https://example.com/path" "")
  ∧ ∃ signed v sg b,
      urlsigner.Sign s "https://example.com/path" 5400000000000 = Return (signed, None)
      ∧ url.Parse signed = Some v
      ∧ last (url.vals (url.Query v) urlsigner.Signature) = Some sg
      ∧ (∃ before, url.RawQuery v = before +:+ "signature=" +:+ sg)
      ∧ strings.all base64Byte sg = true
      ∧ String.length sg = 43%nat
      ∧ base64.DecodeString sg = Some b
      ∧ length b = 32%nat.
Proof.
  intros s. split; [reflexivity|]. split; [reflexivity|].
  apply (Sign_signature_shape s (hmac.New hash.SHA256 zeroKey) "https://example.com/path"
           (plainURL "https://example.com/path" "") 5400000000000); reflexivity.
Defined.

Lemma Sign_keeps_parameters_witness :
  let s := testSigner "sha256" zeroKey t2025 in
  let u := plainURL "https://example.com/a" "b=c" in
  urlsigner.hasher s () = Return (hmac.New hash.SHA256 zeroKey)
  ∧ url.Parse "https://example.com/a?b=c" = Some u
  ∧ ∃ signed v,
      urlsigner.Sign s "https://example.com/a?b=c" 600000000000 = Return (signed, None)
      ∧ url.Parse signed = Some v
      ∧ url.hierString (url.hier v) = url.hierString (url.hier u)
      ∧ url.frag v = url.frag u
      ∧ (∀ k, k ≠ urlsigner.Signature → k ≠ urlsigner.Expiration →
              url.vals (url.Query v) k = url.vals (url.Query u) k)
      ∧ (∃ sg, url.vals (url.Query v) urlsigner.Signature
               = url.vals (url.Query u) urlsigner.Signature ++ [sg])
      ∧ (600000000000 ≠ 0 →
         ∃ e, url.vals (url.Query v) urlsigner.Expiration = [e]
              ∧ (0 ≤ time.Year (urlsigner.now s () + 600000000000) ≤ 9999 →
                 time.Parse e = Some (urlsigner.now s () + 600000000000))).
Proof.
  intros s u. split; [reflexivity|]. split; [reflexivity|].
  apply (Sign_keeps_parameters s (hmac.New hash.SHA256 zeroKey) "https://example.com/a?b=c"
           u 600000000000); reflexivity.
Defined.

Lemma Verify_nil_iff_witness :
  let s := testSigner "sha256" zeroKey t2025 in
  let hm := hmac.New hash.SHA256 zeroKey in
  let u := plainURL "https://example.com/path"
             "expires=2025-08-29T22%3A00%3A00Z&hello=world&signature=Ph2SAEoa37Jv5hj-FSuLhkTepSh1Qn4aRzRqKuQM1Sk" in
  urlsigner.hasher s () = Return hm
  ∧ (urlsigner.Verify s u).2 = Return None
  ∧ url.Get (url.Query u) urlsigner.Signature ≠ ""
  ∧ base64.DecodeString (url.Get (url.Query u) urlsigner.Signature)
    = Some (tag hm (canonical u))
  ∧ ∃ t, time.Parse (url.Get (url.Query u) urlsigner.Expiration) = Some t
         ∧ urlsigner.now s () ≤ t.
Proof.
  intros s hm u.
  assert (Hh : urlsigner.hasher s () = Return hm) by reflexivity.
  assert (Hsg : url.Get (url.Query u) urlsigner.Signature ≠ "")
    by (vm_compute; discriminate).
  assert (Hdec : base64.DecodeString (url.Get (url.Query u) urlsigner.Signature)
                 = Some (tag hm (canonical u))) by (vm_compute; reflexivity).
  assert (Hexp : ∃ t, time.Parse (url.Get (url.Query u) urlsigner.Expiration) = Some t
                      ∧ urlsigner.now s () ≤ t).
  { exists (t2025 + 7200000000000). split; [vm_compute; reflexivity|].
    vm_compute. discriminate. }
  split; [exact Hh|]. split; [|split; [exact Hsg|split; [exact Hdec|exact Hexp]]].
  apply (proj2 (Verify_nil_iff s hm u Hh)).
  split; [exact Hsg|]. split; [exact Hdec|]. right. exact Hexp.
Defined.

Lemma Verify_expired_iff_witness :
  let s := testSigner "sha256" zeroKey t2025 in
  let hm := hmac.New hash.SHA256 zeroKey in
  let u := plainURL "https://example.com/z"
             "expires=2025-08-29T19%3A00%3A00Z&signature=MLEXYO5wYqipsSsyZB8Zx7Rt2bZ2EkRiqmNcYBVvWwo" in
  urlsigner.hasher s () = Return hm
  ∧ (urlsigner.Verify s u).2 = Return (Some urlsigner.ErrExpired)
  ∧ url.Get (url.Query u) urlsigner.Signature ≠ ""
  ∧ base64.DecodeString (url.Get (url.Query u) urlsigner.Signature)
    = Some (tag hm (canonical u))
  ∧ ∃ t, time.Parse (url.Get (url.Query u) urlsigner.Expiration) = Some t
         ∧ t < urlsigner.now s ().
Proof.
  intros s hm u.
  assert (Hh : urlsigner.hasher s () = Return hm) by reflexivity.
  assert (Hsg : url.Get (url.Query u) urlsigner.Signature ≠ "")
    by (vm_compute; discriminate).
  assert (Hdec : base64.DecodeString (url.Get (url.Query u) urlsigner.Signature)
                 = Some (tag hm (canonical u))) by (vm_compute; reflexivity).
  assert (Hexp : ∃ t, time.Parse (url.Get (url.Query u) urlsigner.Expiration) = Some t
                      ∧ t < urlsigner.now s ()).
  { exists (t2025 - 3600000000000). split; vm_compute; reflexivity. }
  split; [exact Hh|]. split; [|split; [exact Hsg|split; [exact Hdec|exact Hexp]]].
  apply (proj2 (Verify_expired_iff s hm u Hh)).
  split; [exact Hsg|]. split; [exact Hdec|]. exact Hexp.
Defined.

Lemma Verify_twice_witness :
  let s := testSigner "sha256" zeroKey t2025 in
  let u := plainURL "https://example.com/z"
             "signature=7ubZyok5TUpcsuCDb4h2TQjLz6BidZiDPSPK5bLToFc" in
  (urlsigner.Verify s u).2 = Return None
  ∧ (urlsigner.Verify s (urlsigner.Verify s u).1).2
    = Return (Some urlsigner.ErrMissingSignature).
Proof.
  intros s u. split; [vm_compute; reflexivity|].
  apply (proj2 (proj1 (proj2 (Verify_twice s s u)))).
  right. vm_compute. eexists. reflexivity.
Defined.

(** * Keys *)

(** ** Hexadecimal *)

Lemma string_ind2 (P : string → Prop) :
  P "" → (∀ c, P (String c "")) → (∀ c d s, P s → P (String c (String d s))) →
  ∀ s, P s.
Proof.
  intros H0 H1 H2.
  cut (∀ s, P s ∧ ∀ c, P (String c s)); [naive_solver|].
  induction s as [|x s [IHa IHb]]; [naive_solver|].
  split; [apply IHb|]. intros c. apply H2, IHa.
Qed.

Lemma fromHexChar_range (c : ascii) (v : Z) : hex.fromHexChar c = Some v → 0 ≤ v < 16.
Proof.
  unfold hex.fromHexChar. intros Hv.
  repeat match type of Hv with
         | (if ?b then _ else _) = _ => destruct b eqn:?
         end; simplify_eq; lia.
Qed.

Lemma fromHexChar_hextable (i : Z) : 0 ≤ i < 16 → hex.fromHexChar (hex.hextable i) = Some i.
Proof.
  intros Hi.
  assert (Hall : forallb (λ n, bool_decide
            (hex.fromHexChar (hex.hextable (Z.of_nat n)) = Some (Z.of_nat n))) (seq 0 16) = true)
    by (vm_compute; reflexivity).
  rewrite forallb_forall in Hall.
  assert (Hin : In (Z.to_nat i) (seq 0 16)) by (apply in_seq; lia).
  apply Hall in Hin. rewrite Z2Nat.id in Hin by lia. by apply bool_decide_eq_true_1 in Hin.
Qed.

Lemma hextable_not_s (i : Z) : 0 ≤ i < 16 → Ascii.eqb (hex.hextable i) "s" = false.
Proof.
  intros Hi.
  assert (Hall : forallb (λ n, negb (Ascii.eqb (hex.hextable (Z.of_nat n)) "s")) (seq 0 16) = true)
    by (vm_compute; reflexivity).
  rewrite forallb_forall in Hall.
  assert (Hin : In (Z.to_nat i) (seq 0 16)) by (apply in_seq; lia).
  apply Hall in Hin. rewrite Z2Nat.id in Hin by lia. by apply negb_true_iff in Hin.
Qed.

Lemma isHexDigit_not_s (c : ascii) : isHexDigit c = true → Ascii.eqb c "s" = false.
Proof.
  revert c.
  cut (∀ c, implb (isHexDigit c) (negb (Ascii.eqb c "s")) = true).
  { intros Hall c Hc. specialize (Hall c). rewrite Hc in Hall. by apply negb_true_iff in Hall. }
  by_enumeration.
Qed.

(** Decoding the spelling of [b] followed by [t]: [b], then what [t]
    decodes to. *)
Lemma hex_DecodeString_app (b : list byte) (t : string) :
  hex.DecodeString (hex.EncodeToString b +:+ t)
  = (b ++ (hex.DecodeString t).1, (hex.DecodeString t).2).
Proof.
  induction b as [|v b IH].
  { change (hex.EncodeToString [] +:+ t) with t. by destruct (hex.DecodeString t). }
  pose proof (Z_of_byte_range v).
  change (hex.EncodeToString (v :: b) +:+ t)
    with (String (hex.hextable (Z_of_byte v / 16))
            (String (hex.hextable (Z_of_byte v mod 16)) (hex.EncodeToString b +:+ t))).
  cbn [hex.DecodeString].
  rewrite !fromHexChar_hextable by divlia. rewrite IH. cbn [fst snd app].
  do 2 f_equal. apply byte_of_Z_eq. divlia.
Qed.

Lemma hex_DecodeString_EncodeToString (b : list byte) :
  hex.DecodeString (hex.EncodeToString b) = (b, None).
Proof.
  rewrite <- (app_nil_r_s (hex.EncodeToString b)), hex_DecodeString_app. simpl.
  by rewrite app_nil_r.
Qed.

(** [DecodeString] accepts the strings of an even number of hexadecimal
    digits, and no others; a string it accepts gives half as many
    bytes. *)
Lemma hex_DecodeString_ok (s : string) :
  ((hex.DecodeString s).2 = None
   ↔ Nat.Even (String.length s) ∧ strings.all isHexDigit s = true)
  ∧ ((hex.DecodeString s).2 = None →
     (2 * length (hex.DecodeString s).1 = String.length s)%nat).
Proof.
  induction s as [|c|c d s [IH1 IH2]] using string_ind2.
  - simpl. split; [|done]. split; [|done]. intros _. split; [by exists 0%nat|done].
  - cbn [hex.DecodeString]. destruct (hex.fromHexChar c); simpl.
    + split; [|done]. split; [done|]. intros [[k Hk] _]. lia.
    + split; [|done]. split; [done|]. intros [[k Hk] _]. lia.
  - cbn [hex.DecodeString strings.all String.length]. unfold isHexDigit at 1 2.
    destruct (hex.fromHexChar c) as [a|] eqn:Hc; simpl.
    2:{ split; [|done]. split; [done|]. by intros [_ Hall]. }
    destruct (hex.fromHexChar d) as [b|] eqn:Hd; simpl.
    2:{ split; [|done]. split; [done|]. by intros [_ Hall]. }
    destruct (hex.DecodeString s) as [out err]. simpl in *.
    split.
    + rewrite IH1. split.
      * intros [[k Hk] Hall]. split; [exists (S k); lia|done].
      * intros [[k Hk] Hall]. split; [exists (k - 1)%nat; lia|done].
    + intros Herr. specialize (IH2 Herr). lia.
Qed.

Lemma HasPrefix_hex (s : string) :
  strings.all isHexDigit s = true → strings.HasPrefix s utils.Base64Prefix = false.
Proof.
  destruct s as [|c1 [|c2 [|c3 s]]]; [done| | |].
  - intros _. simpl. by rewrite andb_false_r.
  - intros _. simpl. by rewrite !andb_false_r.
  - cbn [strings.all]. intros [_ [_ [H3 _]%andb_true_iff]%andb_true_iff]%andb_true_iff.
    cbn [strings.HasPrefix utils.Base64Prefix].
    by rewrite (isHexDigit_not_s _ H3), !andb_false_r.
Qed.

(** ** Padded base64 *)

Lemma decodeMapStd_encodeStd (i : Z) :
  0 ≤ i < 64 → base64.decodeMapStd (base64.encodeStd i) = Some i.
Proof.
  intros Hi.
  assert (Hall : forallb (λ n, bool_decide
            (base64.decodeMapStd (base64.encodeStd (Z.of_nat n)) = Some (Z.of_nat n)))
            (seq 0 64) = true)
    by (vm_compute; reflexivity).
  rewrite forallb_forall in Hall.
  assert (Hin : In (Z.to_nat i) (seq 0 64)) by (apply in_seq; lia).
  apply Hall in Hin. rewrite Z2Nat.id in Hin by lia. by apply bool_decide_eq_true_1 in Hin.
Qed.

Ltac std_sextets :=
  repeat match goal with
  | |- context [base64.decodeMapStd (base64.encodeStd ?i)] =>
      rewrite (decodeMapStd_encodeStd i) by (apply Z.mod_pos_bound; lia)
  end.

Lemma scan_full (s : string) (si : Z) (dbuf : list Z) :
  base64.scan s si 4 dbuf = base64.Full dbuf s si.
Proof. by destruct s. Qed.

Lemma decodeLoop_nil (fuel : nat) (si : Z) (out : list byte) :
  base64.decodeLoop fuel "" si out = (out, None).
Proof. by destruct fuel. Qed.

Lemma decodeLoop_StdEncodeToString (b : list byte) (fuel : nat) (si : Z) (out : list byte) :
  (String.length (base64.StdEncodeToString b) ≤ fuel)%nat →
  base64.decodeLoop fuel (base64.StdEncodeToString b) si out = (out ++ b, None).
Proof.
  revert fuel si out.
  induction b as [|a|a b|a b c l IH] using list_ind3; intros fuel si out Hfuel;
    try pose proof (Z_of_byte_range a); try pose proof (Z_of_byte_range b);
    try pose proof (Z_of_byte_range c).
  - rewrite decodeLoop_nil. by rewrite app_nil_r.
  - destruct fuel as [|fuel]; [simpl in Hfuel; lia|].
    cbn [base64.StdEncodeToString base64.decodeLoop]. unfold base64.decodeQuantum.
    repeat (progress (cbn [base64.scan Nat.eqb]; std_sextets)).
    change (base64.decodeMapStd "=") with (@None Z).
    cbn -[Z.mul Z.div Z.modulo Z.add]. rewrite decodeLoop_nil.
    do 3 f_equal. apply byte_of_Z_eq. divlia.
  - destruct fuel as [|fuel]; [simpl in Hfuel; lia|].
    cbn [base64.StdEncodeToString base64.decodeLoop]. unfold base64.decodeQuantum.
    repeat (progress (cbn [base64.scan Nat.eqb]; std_sextets)).
    change (base64.decodeMapStd "=") with (@None Z).
    cbn -[Z.mul Z.div Z.modulo Z.add]. rewrite decodeLoop_nil.
    do 2 f_equal. f_equal; [|f_equal]; apply byte_of_Z_eq; divlia.
  - destruct fuel as [|fuel]; [simpl in Hfuel; lia|].
    cbn [base64.StdEncodeToString base64.decodeLoop]. unfold base64.decodeQuantum.
    repeat (progress (cbn [base64.scan Nat.eqb]; std_sextets)).
    change (base64.decodeMapStd "=") with (@None Z).
    cbn -[Z.mul Z.div Z.modulo Z.add base64.decodeLoop base64.StdEncodeToString].
    rewrite scan_full.
    cbn -[Z.mul Z.div Z.modulo Z.add base64.decodeLoop base64.StdEncodeToString].
    rewrite IH by (cbn [base64.StdEncodeToString String.length] in Hfuel; lia).
    rewrite <- app_assoc. do 2 f_equal. cbn [app].
    f_equal; [|f_equal; [|f_equal]]; apply byte_of_Z_eq; divlia.
Qed.

Lemma StdDecodeString_StdEncodeToString (b : list byte) :
  base64.StdDecodeString (base64.StdEncodeToString b) = (b, None).
Proof. unfold base64.StdDecodeString. by rewrite decodeLoop_StdEncodeToString. Qed.

(** ** [ParseKey] *)

Lemma EncodeToString_hex (b : list byte) :
  strings.all isHexDigit (hex.EncodeToString b) = true.
Proof.
  induction b as [|v b IH]; [done|]. pose proof (Z_of_byte_range v).
  cbn [hex.EncodeToString strings.all]. rewrite IH. unfold isHexDigit.
  rewrite !fromHexChar_hextable by divlia.
  rewrite !bool_decide_eq_true_2 by (by eexists). done.
Qed.

Lemma HasPrefix_odd_hex (b : list byte) (c : ascii) :
  strings.HasPrefix (hex.EncodeToString b +:+ String c "") utils.Base64Prefix = false.
Proof.
  destruct b as [|v [|v2 b]].
  - simpl. by rewrite andb_false_r.
  - simpl. by rewrite !andb_false_r.
  - pose proof (Z_of_byte_range v2).
    change (hex.EncodeToString (v :: v2 :: b) +:+ String c "")
      with (String (hex.hextable (Z_of_byte v / 16))
              (String (hex.hextable (Z_of_byte v mod 16))
                 (String (hex.hextable (Z_of_byte v2 / 16))
                    (String (hex.hextable (Z_of_byte v2 mod 16))
                       (hex.EncodeToString b +:+ String c ""))))).
    cbn [strings.HasPrefix utils.Base64Prefix].
    rewrite (hextable_not_s (Z_of_byte v2 / 16)) by divlia. by rewrite !andb_false_r.
Qed.

Lemma CutPrefix_false (s p : string) :
  strings.HasPrefix s p = false → strings.CutPrefix s p = (s, false).
Proof. intros Hp. unfold strings.CutPrefix. by rewrite Hp. Qed.

Lemma ParseKey_hex (key : string) :
  key ≠ "" → strings.HasPrefix key utils.Base64Prefix = false →
  utils.ParseKey key
  = ((hex.DecodeString key).1, utils.HexError <$> (hex.DecodeString key).2).
Proof.
  intros Hne Hp. unfold utils.ParseKey.
  rewrite (bool_decide_eq_false_2 _ Hne), (CutPrefix_false _ _ Hp).
  by destruct (hex.DecodeString key).
Qed.

Lemma ParseKey_base64 (s : string) :
  utils.ParseKey (utils.Base64Prefix +:+ s)
  = ((base64.StdDecodeString s).1, utils.Base64Error <$> (base64.StdDecodeString s).2).
Proof.
  unfold utils.ParseKey. rewrite bool_decide_eq_false_2 by done.
  change (strings.CutPrefix (utils.Base64Prefix +:+ s) utils.Base64Prefix) with (s, true).
  cbv iota beta. by destruct (base64.StdDecodeString s).
Qed.

Lemma ParseKey_hex_length (key : string) :
  strings.HasPrefix key utils.Base64Prefix = false → (utils.ParseKey key).2 = None →
  (2 * length (utils.ParseKey key).1 = String.length key)%nat.
Proof.
  intros Hp Hok. assert (Hne : key ≠ "") by (by intros ->).
  rewrite (ParseKey_hex key Hne Hp) in *. cbn [fst snd] in *.
  apply hex_DecodeString_ok. by destruct (hex.DecodeString key) as [out [e|]].
Qed.

(** X8. A key in hexadecimal comes back: [ParseKey] of the lower-case
    spelling of a non-empty byte string is that byte string, without an
    error. *)
Theorem ParseKey_hex_roundtrip (b : list byte) :
  b ≠ [] → utils.ParseKey (hex.EncodeToString b) = (b, None).
Proof.
  intros Hb. rewrite ParseKey_hex.
  - by rewrite hex_DecodeString_EncodeToString.
  - by destruct b.
  - apply HasPrefix_hex, EncodeToString_hex.
Qed.

(** X9. A key in base64 comes back: [ParseKey] of [base64:] followed by
    the padded standard encoding of a byte string is that byte string,
    without an error. The byte string may be empty: the key [base64:]
    gives an empty key and no error, whereas the empty string is refused
    with [ErrInvalidKey]. *)
Theorem ParseKey_base64_roundtrip (b : list byte) :
  utils.ParseKey (utils.Base64Prefix +:+ base64.StdEncodeToString b) = (b, None)
  ∧ utils.ParseKey "base64:" = ([], None)
  ∧ utils.ParseKey "" = ([], Some utils.ErrInvalidKey).
Proof.
  split; [|done]. by rewrite ParseKey_base64, StdDecodeString_StdEncodeToString.
Qed.

(** X10. Without the [base64:] prefix, [ParseKey] accepts exactly the
    non-empty strings of an even number of hexadecimal digits of either
    case, and a string it accepts gives half as many bytes as it has
    characters. *)
Theorem ParseKey_hex_accepts (key : string) :
  key ≠ "" → strings.HasPrefix key utils.Base64Prefix = false →
  ((utils.ParseKey key).2 = None
   ↔ Nat.Even (String.length key) ∧ strings.all isHexDigit key = true)
  ∧ ((utils.ParseKey key).2 = None →
     (2 * length (utils.ParseKey key).1 = String.length key)%nat).
Proof.
  intros Hne Hp. rewrite (ParseKey_hex key Hne Hp). simpl.
  destruct (hex_DecodeString_ok key) as [Hiff Hlen].
  destruct (hex.DecodeString key) as [out [e|]]; cbn [fst snd fmap option_fmap option_map] in *.
  - split; [|done]. split; [done|]. intros Hok. by apply Hiff in Hok.
  - split; [|intros _; by apply Hlen]. split; [intros _; by apply Hiff|done].
Qed.

(** X11. An error of [ParseKey] can come with bytes: on an odd number of
    hexadecimal characters it returns the bytes of the complete pairs
    together with [ErrLength], or with [InvalidByteError] when the last
    character is no digit. *)
Theorem ParseKey_partial (b : list byte) (c : ascii) :
  utils.ParseKey (hex.EncodeToString b +:+ String c "")
  = (b, Some (utils.HexError (if isHexDigit c then hex.ErrLength
                              else hex.InvalidByteError c))).
Proof.
  rewrite ParseKey_hex.
  - rewrite hex_DecodeString_app. cbn [hex.DecodeString]. unfold isHexDigit.
    destruct (hex.fromHexChar c); simpl; by rewrite app_nil_r.
  - by destruct b.
  - apply HasPrefix_odd_hex.
Qed.

Section KeyLength.
Context `{hash.Digests}.
Variable systemNow : unit → Z.

(** X12. A hexadecimal key that [ParseKey] accepts is a key that
    [urlsigner.New] accepts exactly when it has between 64 and 128
    characters; with any other number of characters [New] panics. *)
Theorem hex_key_New (algo key : string) (now : list (unit → Z)) :
  strings.HasPrefix key utils.Base64Prefix = false →
  (utils.ParseKey key).2 = None →
  (returns (urlsigner.New systemNow algo (utils.ParseKey key).1 now)
   ↔ (64 ≤ String.length key ≤ 128)%nat)
  ∧ (panics (urlsigner.New systemNow algo (utils.ParseKey key).1 now)
     ↔ (String.length key < 64 ∨ 128 < String.length key)%nat).
Proof.
  intros Hp Hok. pose proof (ParseKey_hex_length key Hp Hok) as Hlen.
  set (k := (utils.ParseKey key).1) in *.
  destruct (decide (32 ≤ length k ≤ 64)%nat) as [Hk|Hk].
  - destruct (New_valid_key systemNow algo k now Hk) as [s ->]. simpl.
    split; split; try done; lia.
  - destruct (urlsigner.New systemNow algo k now) as [s|msg] eqn:HNew.
    + apply New_spec in HNew as [? _]. lia.
    + simpl. split; split; try done; lia.
Qed.

End KeyLength.

(** * Environment variables *)

(** ** Decimal integers *)

Lemma isDigit_digitVal (c : ascii) :
  time.isDigit c = true → 0 ≤ time.digitVal c ≤ 9.
Proof.
  revert c.
  cut (∀ c, implb (time.isDigit c)
              ((0 <=? time.digitVal c) && (time.digitVal c <=? 9)) = true).
  { intros Hall c Hc. specialize (Hall c). rewrite Hc in Hall. simpl in Hall.
    apply andb_true_iff in Hall as [?%Z.leb_le ?%Z.leb_le]. lia. }
  by_enumeration.
Qed.

Lemma atoiAcc_ge (s : string) (a : Z) :
  strings.all time.isDigit s = true → 0 ≤ a → a ≤ time.atoiAcc a s.
Proof.
  revert a. induction s as [|c s IH]; intros a Hs Ha; simpl in *; [lia|].
  apply andb_true_iff in Hs as [Hc Hs]. pose proof (isDigit_digitVal c Hc).
  specialize (IH (a * 10 + time.digitVal c) Hs ltac:(lia)). lia.
Qed.

Lemma parseDigits_ok (s0 : string) (maxVal : Z) (s : string) (n : Z) :
  strings.all time.isDigit s = true → 0 ≤ n → maxVal < 2 ^ 64 →
  time.atoiAcc n s ≤ maxVal →
  strconv.parseDigits s0 maxVal s n = (time.atoiAcc n s, None).
Proof.
  revert n. induction s as [|c s IH]; intros n Hs Hn Hmax Hval; [done|].
  simpl in Hs. apply andb_true_iff in Hs as [Hc Hs].
  pose proof (isDigit_digitVal c Hc) as Hd.
  pose proof (atoiAcc_ge s (n * 10 + time.digitVal c) Hs ltac:(lia)) as Hge.
  cbn [strconv.parseDigits time.atoiAcc] in *.
  fold (time.digitVal c).
  rewrite (proj2 (andb_true_iff _ _)) by (split; apply Z.leb_le; lia).
  cbn [negb].
  change (2 ^ 64) with 18446744073709551616 in *. unfold strconv.maxUint64.
  change (18446744073709551615 / 10 + 1) with 1844674407370955162.
  rewrite (proj2 (Z.leb_gt _ _)) by lia.
  rewrite Z.mod_small by lia.
  rewrite (proj2 (Z.ltb_ge _ _)) by lia. rewrite (proj2 (Z.ltb_ge _ _)) by lia.
  cbn [orb]. apply IH; [done|lia|done|done].
Qed.

Lemma parseDigits_range (s0 : string) (maxVal : Z) (s : string) (n : Z) :
  strings.all time.isDigit s = true → 0 ≤ n ≤ maxVal → maxVal < 2 ^ 64 →
  maxVal < time.atoiAcc n s →
  strconv.parseDigits s0 maxVal s n = (maxVal, Some (strconv.rangeError "ParseUint" s0)).
Proof.
  revert n. induction s as [|c s IH]; intros n Hs Hn Hmax Hval; [simpl in Hval; lia|].
  simpl in Hs. apply andb_true_iff in Hs as [Hc Hs].
  pose proof (isDigit_digitVal c Hc) as Hd.
  cbn [strconv.parseDigits time.atoiAcc] in *.
  fold (time.digitVal c).
  rewrite (proj2 (andb_true_iff _ _)) by (split; apply Z.leb_le; lia).
  cbn [negb].
  change (2 ^ 64) with 18446744073709551616 in *. unfold strconv.maxUint64.
  change (18446744073709551615 / 10 + 1) with 1844674407370955162.
  destruct (Z.leb_spec 1844674407370955162 n) as [|Hcut]; [done|].
  destruct (Z.lt_ge_cases (n * 10 + time.digitVal c) 18446744073709551616) as [Hfit|Hwrap].
  - rewrite Z.mod_small by lia.
    rewrite (proj2 (Z.ltb_ge _ _)) by lia. cbn [orb].
    destruct (Z.ltb_spec maxVal (n * 10 + time.digitVal c)); [done|].
    apply IH; [done|lia|done|done].
  - replace ((n * 10 + time.digitVal c) mod 18446744073709551616)
      with (n * 10 + time.digitVal c - 18446744073709551616)
      by divlia.
    rewrite (proj2 (Z.ltb_lt _ _)) by lia. done.
Qed.

Lemma ndigitsFuel_bound (f : nat) (u : Z) :
  0 ≤ u < 2 ^ (Z.of_nat f + 1) → u < 10 ^ Z.of_nat (time.ndigitsFuel f u).
Proof.
  revert u. induction f as [|f IH]; intros u Hu.
  - simpl in *. lia.
  - cbn [time.ndigitsFuel]. destruct (Z.ltb_spec u 10) as [Hlt|Hge]; [simpl; lia|].
    rewrite Nat2Z.inj_succ, Z.pow_succ_r by lia.
    assert (Hu' : 0 ≤ u / 10 < 2 ^ (Z.of_nat f + 1)).
    { rewrite Nat2Z.inj_succ in Hu.
      replace (Z.succ (Z.of_nat f) + 1) with (Z.succ (Z.of_nat f + 1)) in Hu by lia.
      rewrite Z.pow_succ_r in Hu by lia. divlia. }
    specialize (IH _ Hu'). divlia.
Qed.

Lemma ndigits_bound (u : Z) : 0 ≤ u → u < 10 ^ Z.of_nat (time.ndigits u).
Proof.
  intros Hu. apply ndigitsFuel_bound. split; [done|].
  destruct (decide (u = 0)) as [->|Hne]; [simpl; lia|].
  rewrite Z2Nat.id by apply Z.log2_nonneg.
  apply Z.log2_spec. lia.
Qed.

Lemma ndigits_pos (u : Z) : (1 ≤ time.ndigits u)%nat.
Proof.
  unfold time.ndigits. destruct (Z.to_nat (Z.log2 u)); simpl; [lia|].
  destruct (u <? 10); lia.
Qed.

(** The decimal spelling of a natural number: digits, at least one, and
    their value is the number. *)
Lemma decimal_spec (u : Z) :
  0 ≤ u →
  let ds := time.digits (time.ndigits u) u "" in
  strings.all time.isDigit ds = true ∧ ds ≠ "" ∧ time.atoiAcc 0 ds = u.
Proof.
  intros Hu ds. split; [apply digits_isDigit|]. split.
  - intros Hds. apply (f_equal String.length) in Hds.
    unfold ds in Hds. rewrite digits_length in Hds. pose proof (ndigits_pos u).
    simpl in Hds. lia.
  - unfold ds. rewrite atoiAcc_digits by done.
    apply Z.mod_small. split; [done|by apply ndigits_bound].
Qed.

Lemma ParseUint_digits (ds : string) (bitSize : Z) :
  0 ≤ bitSize ≤ 64 → strings.all time.isDigit ds = true → ds ≠ "" →
  strconv.ParseUint ds bitSize
  = if time.atoiAcc 0 ds <? 2 ^ bitSize then (time.atoiAcc 0 ds, None)
    else (2 ^ bitSize - 1, Some (strconv.rangeError "ParseUint" ds)).
Proof.
  intros Hb Hds Hne. unfold strconv.ParseUint.
  rewrite (bool_decide_eq_false_2 _ Hne).
  assert (Hpow : 0 < 2 ^ bitSize ≤ 2 ^ 64).
  { split; [apply Z.pow_pos_nonneg; lia|apply Z.pow_le_mono_r; lia]. }
  destruct (Z.ltb_spec (time.atoiAcc 0 ds) (2 ^ bitSize)).
  - apply parseDigits_ok; [done|lia|lia|lia].
  - apply parseDigits_range; [done|lia|lia|lia].
Qed.

Lemma isDigit_not_sign (c : ascii) :
  time.isDigit c = true → Ascii.eqb c "+" || Ascii.eqb c "-" = false.
Proof.
  revert c.
  cut (∀ c, implb (time.isDigit c) (negb (Ascii.eqb c "+" || Ascii.eqb c "-")) = true).
  { intros Hall c Hc. specialize (Hall c). rewrite Hc in Hall. by apply negb_true_iff in Hall. }
  by_enumeration.
Qed.

(** [ParseInt] on the decimal spelling of [n]. *)
Lemma ParseInt_FormatInt (n bitSize : Z) :
  2 ≤ bitSize ≤ 64 →
  (- 2 ^ (bitSize - 1) ≤ n < 2 ^ (bitSize - 1) →
   strconv.ParseInt (strconv.FormatInt n) bitSize = (n, None))
  ∧ (n < - 2 ^ (bitSize - 1) ∨ 2 ^ (bitSize - 1) ≤ n →
     is_Some (strconv.ParseInt (strconv.FormatInt n) bitSize).2).
Proof.
  intros Hb.
  assert (Hpow : 2 ^ bitSize = 2 * 2 ^ (bitSize - 1)).
  { rewrite <- Z.pow_succ_r by lia. f_equal. lia. }
  assert (Hpos : 2 ≤ 2 ^ (bitSize - 1)).
  { change 2 with (2 ^ 1) at 1. apply Z.pow_le_mono_r; lia. }
  unfold strconv.FormatInt.
  destruct (decimal_spec (Z.abs n) ltac:(lia)) as (Hds & Hne & Hval).
  set (ds := time.digits (time.ndigits (Z.abs n)) (Z.abs n) "") in *.
  destruct (Z.ltb_spec n 0) as [Hneg|Hnn].
  - change ("-" +:+ ds) with (String "-" ds). cbn [strconv.ParseInt].
    change (Ascii.eqb "-" "-") with true. change (Ascii.eqb "-" "+") with false.
    cbn [orb].
    rewrite (ParseUint_digits ds bitSize) by (done || lia). rewrite Hval.
    destruct (Z.ltb_spec (Z.abs n) (2 ^ bitSize)) as [Hfit|Hbig].
    + cbn [negb andb]. split.
      * intros Hn. rewrite (proj2 (Z.ltb_ge _ _)) by lia. f_equal. lia.
      * intros Hn. rewrite (proj2 (Z.ltb_lt _ _)) by lia. by eexists.
    + cbn [negb andb strconv.rangeError]. split; [lia|]. intros _.
      rewrite (proj2 (Z.ltb_lt _ _)) by lia. by eexists.
  - change ("" +:+ ds) with ds.
    destruct ds as [|c ds'] eqn:Heq; [done|].
    cbn [strings.all] in Hds. apply andb_true_iff in Hds as [Hc Hds'].
    pose proof (isDigit_not_sign c Hc) as Hsign.
    apply orb_false_iff in Hsign as [Hplus Hminus].
    cbn [strconv.ParseInt]. rewrite Hplus, Hminus. cbn [orb].
    rewrite (ParseUint_digits (String c ds') bitSize)
      by (done || lia || (cbn [strings.all]; by rewrite Hc, Hds')).
    rewrite Hval.
    destruct (Z.ltb_spec (Z.abs n) (2 ^ bitSize)) as [Hfit|Hbig].
    + cbn [negb andb]. split.
      * intros Hn. rewrite (proj2 (Z.leb_gt _ _)) by lia. f_equal. lia.
      * intros Hn. rewrite (proj2 (Z.leb_le _ _)) by lia. by eexists.
    + cbn [negb andb strconv.rangeError]. split; [lia|]. intros _.
      rewrite (proj2 (Z.leb_le _ _)) by lia. by eexists.
Qed.

Lemma ParseUint_FormatInt (n bitSize : Z) :
  1 ≤ bitSize ≤ 64 →
  (0 ≤ n < 2 ^ bitSize → strconv.ParseUint (strconv.FormatInt n) bitSize = (n, None))
  ∧ (n < 0 ∨ 2 ^ bitSize ≤ n →
     is_Some (strconv.ParseUint (strconv.FormatInt n) bitSize).2).
Proof.
  intros Hb. unfold strconv.FormatInt.
  destruct (decimal_spec (Z.abs n) ltac:(lia)) as (Hds & Hne & Hval).
  set (ds := time.digits (time.ndigits (Z.abs n)) (Z.abs n) "") in *.
  destruct (Z.ltb_spec n 0) as [Hneg|Hnn].
  - split; [lia|]. intros _. change ("-" +:+ ds) with (String "-" ds).
    unfold strconv.ParseUint. rewrite bool_decide_eq_false_2 by done.
    cbn. by eexists.
  - change ("" +:+ ds) with ds. rewrite (ParseUint_digits ds bitSize) by (done || lia).
    rewrite Hval, Z.abs_eq by lia.
    destruct (Z.ltb_spec n (2 ^ bitSize)); (split; [intros ?|intros ?]);
      try lia; try done; by eexists.
Qed.

(** ** Trimming *)

Lemma upto_length (s : string) : utf8.upto (String.length s) s = s.
Proof. induction s as [|c s IH]; [done|]. simpl. by rewrite IH. Qed.

Lemma TrimSpace_word (x : string) : word x → strings.TrimSpace x = x.
Proof.
  intros (Hne & _ & Hfirst & Hlast). destruct x as [|c t]; [done|].
  change (utf8.byteAt (String c t) 0) with (utf8.code c) in Hfirst.
  unfold wordByte in *.
  apply andb_true_iff in Hfirst as [Hc1%Z.ltb_lt Hc2%negb_true_iff].
  apply andb_true_iff in Hlast as [Hl1%Z.ltb_lt Hl2%negb_true_iff].
  cbn [strings.TrimSpace]. unfold utf8.RuneSelf, strings.asciiSpace.
  rewrite (proj2 (Z.leb_gt _ _)) by lia. rewrite Hc2.
  cbn [String.length strings.trimSpaceRight].
  replace (Z.of_nat (String.length (String c t)) - 1) with (Z.of_nat (String.length t))
    in Hl1, Hl2 by (cbn [String.length]; lia).
  unfold utf8.RuneSelf. rewrite (proj2 (Z.leb_gt _ _)) by lia. rewrite Hl2.
  apply (upto_length (String c t)).
Qed.

Lemma TrimSpace_empty : strings.TrimSpace "" = "".
Proof. reflexivity. Qed.

Lemma within_refl (s : string) : within s s.
Proof. by intros c. Qed.

Lemma within_trans (a b c : string) : within a b → within b c → within a c.
Proof. intros Hab Hbc x Hx. by apply Hbc, Hab. Qed.

Lemma within_cons (c : ascii) (t s : string) : within t s → within t (String c s).
Proof. intros Hts x Hx. simpl. rewrite (Hts x Hx). by rewrite orb_true_r. Qed.

Lemma within_from (n : nat) (s : string) : within (utf8.from n s) s.
Proof.
  revert s. induction n as [|n IH]; intros [|c s]; try apply within_refl.
  simpl. apply within_cons, IH.
Qed.

Lemma within_upto (n : nat) (s : string) : within (utf8.upto n s) s.
Proof.
  revert s. induction n as [|n IH]; intros [|c s]; try (intros x Hx; done).
  intros x. simpl. intros [->|Hx]%orb_true_iff; [done|].
  rewrite (IH s x Hx). by rewrite orb_true_r.
Qed.

Lemma within_trimLeftLoop (fuel : nat) (f : Z → bool) (s : string) :
  within (strings.trimLeftLoop fuel f s) s.
Proof.
  revert s. induction fuel as [|fuel IH]; intros s.
  - destruct s; intros x Hx; done.
  - destruct s as [|c t]; [apply within_refl|].
    cbn [strings.trimLeftLoop].
    destruct (utf8.DecodeRuneInString (String c t)) as [r size].
    destruct (negb (f r)); [apply within_refl|].
    eapply within_trans; [apply IH|apply within_from].
Qed.

Lemma within_TrimFunc (s : string) (f : Z → bool) : within (strings.TrimFunc s f) s.
Proof.
  unfold strings.TrimFunc, strings.TrimRightFunc, strings.TrimLeftFunc.
  eapply within_trans; [apply within_upto|apply within_trimLeftLoop].
Qed.

Lemma within_trimSpaceRight (s : string) (stop : nat) :
  within (strings.trimSpaceRight s stop) s.
Proof.
  induction stop as [|k IH]; [intros x Hx; done|].
  cbn [strings.trimSpaceRight].
  destruct (utf8.RuneSelf <=? _).
  { unfold strings.TrimRightFunc. eapply within_trans; apply within_upto. }
  destruct (_ || _); [apply IH|apply within_upto].
Qed.

Lemma within_TrimSpace (s : string) : within (strings.TrimSpace s) s.
Proof.
  induction s as [|c t IH]; [apply within_refl|].
  cbn [strings.TrimSpace].
  destruct (utf8.RuneSelf <=? _); [apply within_TrimFunc|].
  destruct (strings.asciiSpace c); [by apply within_cons|].
  apply within_trimSpaceRight.
Qed.

Lemma fields_no_sep (c : ascii) (s seg : string) :
  seg ∈ strings.fields c s → strings.ContainsByte seg c = false.
Proof.
  revert seg. induction s as [|x s IH]; intros seg.
  - simpl. by intros ->%list_elem_of_singleton.
  - simpl. destruct (Ascii.eqb x c) eqn:Hx.
    + intros [->|Hin]%elem_of_cons; [done|by apply IH].
    + destruct (strings.fields c s) as [|seg0 rest] eqn:Hf.
      * intros ->%list_elem_of_singleton. simpl. by rewrite Hx.
      * intros [->|Hin]%elem_of_cons.
        -- simpl. rewrite Hx. apply IH. by left.
        -- apply IH. by right.
Qed.

(** ** The getters *)

Lemma app_inv_head_s (p a b : string) : p +:+ a = p +:+ b → a = b.
Proof.
  induction p as [|c p IH]; [done|]. rewrite !app_cons_s. intros [= Heq]. by apply IH.
Qed.

Section Getters.
Context {P : Type} `{utils.EnvProvider P} `{strconv.Quoting}.

Lemma collect_words (xs acc : list string) :
  Forall word xs → collect xs acc = acc ++ xs.
Proof.
  revert acc. induction xs as [|x xs IH]; intros acc Hxs.
  - by rewrite app_nil_r.
  - inversion Hxs as [|? ? Hx Hrest]; subst. unfold collect in *. cbn [foldl].
    rewrite (TrimSpace_word x Hx).
    rewrite bool_decide_eq_false_2 by apply Hx.
    rewrite (IH _ Hrest), <- app_assoc. done.
Qed.

Lemma collect_elements (pieces acc : list string) (x : string) :
  x ∈ collect pieces acc →
  x ∈ acc ∨ (x ≠ "" ∧ ∃ piece, piece ∈ pieces ∧ within x piece).
Proof.
  revert acc. induction pieces as [|p pieces IH]; intros acc Hx; [by left|].
  unfold collect in *. cbn [foldl] in Hx. case_bool_decide as Hp.
  - destruct (IH _ Hx) as [?|(? & piece & ? & ?)]; [by left|].
    right. split; [done|]. exists piece. split; [by right|done].
  - destruct (IH _ Hx) as [[?| ->%list_elem_of_singleton]%elem_of_app
                          |(? & piece & ? & ?)].
    + by left.
    + right. split; [done|]. exists p. split; [by left|apply within_TrimSpace].
    + right. split; [done|]. exists piece. split; [by right|done].
Qed.

(** X13. [GetIntEnv] reads back a decimal integer: when the variable
    holds the decimal spelling of [n], the getter for a [bitSize]-bit
    type returns [n] if [n] fits the type, and panics if it does
    not. *)
Theorem GetIntEnv_decimal (bitSize n : Z) (e : P) (key : string) (d : Z) :
  2 ≤ bitSize ≤ 64 → utils.Get e key = (strconv.FormatInt n, true) →
  (- 2 ^ (bitSize - 1) ≤ n < 2 ^ (bitSize - 1) →
   utils.GetIntEnv bitSize e key d = Return n)
  ∧ (n < - 2 ^ (bitSize - 1) ∨ 2 ^ (bitSize - 1) ≤ n →
     panics (utils.GetIntEnv bitSize e key d)).
Proof.
  intros Hb Hget. unfold utils.GetIntEnv. rewrite Hget. cbn [negb].
  destruct (ParseInt_FormatInt n bitSize Hb) as [Hin Hout]. split.
  - intros Hn. by rewrite (Hin Hn).
  - intros Hn. destruct (Hout Hn) as [err Herr].
    destruct (strconv.ParseInt (strconv.FormatInt n) bitSize) as [v oerr].
    simpl in Herr. by subst oerr.
Qed.

(** X14. [GetUintEnv] reads back a decimal natural number below
    [2^bitSize], and panics on the decimal spelling of any other
    integer: a larger one, or a negative one. *)
Theorem GetUintEnv_decimal (bitSize n : Z) (e : P) (key : string) (d : Z) :
  1 ≤ bitSize ≤ 64 → utils.Get e key = (strconv.FormatInt n, true) →
  (0 ≤ n < 2 ^ bitSize → utils.GetUintEnv bitSize e key d = Return n)
  ∧ (n < 0 ∨ 2 ^ bitSize ≤ n → panics (utils.GetUintEnv bitSize e key d)).
Proof.
  intros Hb Hget. unfold utils.GetUintEnv. rewrite Hget. cbn [negb].
  destruct (ParseUint_FormatInt n bitSize Hb) as [Hin Hout]. split.
  - intros Hn. by rewrite (Hin Hn).
  - intros Hn. destruct (Hout Hn) as [err Herr].
    destruct (strconv.ParseUint (strconv.FormatInt n) bitSize) as [v oerr].
    simpl in Herr. by subst oerr.
Qed.

(** X15. A variable that is not set gives every getter its default. A
    variable set to the empty string does not: [GetEnv] returns the
    empty string and [GetStringsEnv] the empty list, the getters for
    booleans and integers panic, and only [GetKeyEnv] falls back to
    its default. *)
Theorem getters_unset_or_empty (e : P) (key v : string) (bitSize : Z)
    (ds : string) (dl : list string) (db : bool) (di : Z) (dk : list byte) :
  (utils.Get e key = (v, false) →
   utils.GetEnv e key ds = ds ∧ utils.GetStringsEnv e key dl = dl
   ∧ utils.GetBoolEnv e key db = Return db
   ∧ utils.GetIntEnv bitSize e key di = Return di
   ∧ utils.GetUintEnv bitSize e key di = Return di
   ∧ utils.GetKeyEnv e key dk = Return dk)
  ∧ (utils.Get e key = ("", true) →
     utils.GetEnv e key ds = "" ∧ utils.GetStringsEnv e key dl = []
     ∧ panics (utils.GetBoolEnv e key db)
     ∧ panics (utils.GetIntEnv bitSize e key di)
     ∧ panics (utils.GetUintEnv bitSize e key di)
     ∧ utils.GetKeyEnv e key dk = Return dk).
Proof.
  split; intros Hget.
  - unfold utils.GetEnv, utils.GetStringsEnv, utils.GetBoolEnv, utils.GetIntEnv,
      utils.GetUintEnv, utils.GetKeyEnv. by rewrite Hget.
  - unfold utils.GetEnv, utils.GetStringsEnv, utils.GetBoolEnv, utils.GetIntEnv,
      utils.GetUintEnv, utils.GetKeyEnv. rewrite Hget. cbn [negb].
    repeat split; done.
Qed.

(** X16. [GetStringsEnv] reads back a list: when the variable holds
    words joined by commas, each word not empty, without a comma, and
    beginning and ending with an ASCII byte that is no space, the
    getter returns the words in their order, whatever the default. *)
Theorem GetStringsEnv_roundtrip (e : P) (key : string) (xs dl : list string) :
  Forall word xs → utils.Get e key = (strings.Join xs ",", true) →
  utils.GetStringsEnv e key dl = xs.
Proof.
  intros Hxs Hget. unfold utils.GetStringsEnv. rewrite Hget. cbn [negb].
  fold (collect (strings.SplitSeq (strings.Join xs ",") ",") []).
  unfold strings.SplitSeq. destruct (decide (xs = [])) as [->|Hne]; [done|].
  rewrite fields_Join; [by rewrite collect_words| done |].
  eapply Forall_impl; [exact Hxs|]. by intros x (_ & ? & _).
Qed.

(** X17. Whatever a set variable holds, no element of the list that
    [GetStringsEnv] returns is empty, and none contains a comma. *)
Theorem GetStringsEnv_elements (e : P) (key value x : string) (dl : list string) :
  utils.Get e key = (value, true) → x ∈ utils.GetStringsEnv e key dl →
  x ≠ "" ∧ strings.ContainsByte x "," = false.
Proof.
  intros Hget. unfold utils.GetStringsEnv. rewrite Hget. cbn [negb].
  fold (collect (strings.SplitSeq value ",") []).
  intros [Hin|(Hne & piece & Hpiece & Hsub)]%collect_elements.
  - by apply elem_of_nil in Hin.
  - split; [done|]. apply fields_no_sep in Hpiece.
    destruct (strings.ContainsByte x ",") eqn:Hx; [|done].
    apply Hsub in Hx. congruence.
Qed.

End Getters.

(** ** The map provider *)

Lemma mapEnv_Set_spec (p : utils.mapEnvProvider) (key value : string) :
  ∃ p', utils.Set_ p key value = Return p'
        ∧ utils.prefix p' = utils.prefix p
        ∧ utils.Get p' key = (value, true)
        ∧ (∀ key', key' ≠ key → utils.Get p' key' = utils.Get p key').
Proof.
  eexists. split; [reflexivity|]. split; [reflexivity|]. split.
  - cbn. unfold utils.mapEnvProvider_Get. cbn. by rewrite lookup_insert_eq.
  - intros key' Hne. cbn. unfold utils.mapEnvProvider_Get. cbn.
    rewrite lookup_insert_ne; [done|]. intros Heq. by apply app_inv_head_s in Heq.
Qed.

(** X18. The map provider behind a prefix: after [Set(key, value)],
    [Get(key)] returns the value and reports the variable as set, every
    other key reads as before, and [GetEnv] returns the value whatever
    the default. *)
Theorem mapEnv_Set_Get (p : utils.mapEnvProvider) (key value : string) :
  ∃ p', utils.Set_ p key value = Return p'
        ∧ utils.prefix p' = utils.prefix p
        ∧ utils.Get p' key = (value, true)
        ∧ (∀ d, utils.GetEnv p' key d = value)
        ∧ (∀ key', key' ≠ key → utils.Get p' key' = utils.Get p key').
Proof.
  destruct (mapEnv_Set_spec p key value) as (p' & Hset & Hpre & Hget & Hother).
  exists p'. do 3 (split; [done|]). split; [|done].
  intros d. unfold utils.GetEnv. by rewrite Hget.
Qed.

Section KeyEnv.
Context `{strconv.Quoting}.

(** X19. A key written to the map provider comes back through
    [GetKeyEnv]: in hexadecimal when it is not empty, and in base64
    behind [base64:] always. The empty key in base64 comes back as the
    empty key, not as the default. *)
Theorem GetKeyEnv_Set (p : utils.mapEnvProvider) (k : string) (b dk : list byte) :
  (b ≠ [] →
   ∃ p', utils.Set_ p k (hex.EncodeToString b) = Return p'
         ∧ utils.GetKeyEnv p' k dk = Return b)
  ∧ (∃ p', utils.Set_ p k (utils.Base64Prefix +:+ base64.StdEncodeToString b) = Return p'
           ∧ utils.GetKeyEnv p' k dk = Return b).
Proof.
  split.
  - intros Hb.
    destruct (mapEnv_Set_spec p k (hex.EncodeToString b)) as (p' & Hset & _ & Hget & _).
    exists p'. split; [done|]. unfold utils.GetKeyEnv. rewrite Hget. cbn [negb].
    rewrite bool_decide_eq_false_2 by (by destruct b).
    rewrite ParseKey_hex; [|by destruct b|apply HasPrefix_hex, EncodeToString_hex].
    by rewrite hex_DecodeString_EncodeToString.
  - destruct (mapEnv_Set_spec p k (utils.Base64Prefix +:+ base64.StdEncodeToString b))
      as (p' & Hset & _ & Hget & _).
    exists p'. split; [done|]. unfold utils.GetKeyEnv. rewrite Hget. cbn [negb].
    rewrite bool_decide_eq_false_2 by done.
    by rewrite ParseKey_base64, StdDecodeString_StdEncodeToString.
Qed.

End KeyEnv.

(** * Bytes and headers *)

Lemma IndexByte_spec (s : list byte) (c : byte) :
  (utils.IndexByte s c = -1 ∧ (c ∉ s))
  ∨ (0 ≤ utils.IndexByte s c
     ∧ (c ∉ take (Z.to_nat (utils.IndexByte s c)) s)
     ∧ s = take (Z.to_nat (utils.IndexByte s c)) s
           ++ c :: drop (S (Z.to_nat (utils.IndexByte s c))) s).
Proof.
  induction s as [|b s IH].
  - left. split; [done|]. apply not_elem_of_nil.
  - cbn [utils.IndexByte]. case_bool_decide as Hb.
    + subst b. right. split; [done|]. simpl. split; [apply not_elem_of_nil|done].
    + destruct IH as [[Hi Hnot]|(Hi & Hnot & Heq)].
      * left. rewrite Hi. simpl. split; [done|]. rewrite not_elem_of_cons. by split.
      * right. destruct (Z.eqb_spec (utils.IndexByte s c) (-1)) as [|_]; [lia|].
        split; [lia|].
        replace (Z.to_nat (utils.IndexByte s c + 1))
          with (S (Z.to_nat (utils.IndexByte s c))) by lia.
        cbn [take drop]. split.
        -- rewrite not_elem_of_cons. split; [by intros ->|done].
        -- cbn [app]. by rewrite <- Heq.
Qed.

(** X21. [RealIP] returns the beginning of a header value up to its
    first comma, where the value is that of [X-Forwarded-For] when it is
    not empty and that of [X-Real-IP] otherwise: the result contains no
    comma, and what follows it in the header is nothing or begins with a
    comma. Nothing is trimmed, and when both headers are empty the
    result is empty. *)
Theorem RealIP_first (peek : string → list byte) :
  let header :=
    if bool_decide (peek utils.HeaderXForwardedFor = [])
    then peek utils.HeaderXRealIP else peek utils.HeaderXForwardedFor in
  (("," : byte) ∉ utils.RealIP peek)
  ∧ ∃ rest, header = utils.RealIP peek ++ rest
            ∧ (rest = [] ∨ ∃ more, rest = ("," : byte) :: more).
Proof.
  intros header. unfold utils.RealIP.
  assert (Hheader : (if (length (peek utils.HeaderXForwardedFor) =? 0)%nat
                     then peek utils.HeaderXRealIP
                     else peek utils.HeaderXForwardedFor) = header).
  { unfold header. destruct (peek utils.HeaderXForwardedFor); done. }
  rewrite Hheader. clear Hheader. generalize header. clear header. intros h.
  destruct h as [|b h]; [simpl; split; [apply not_elem_of_nil|by exists []; split; [|left]]|].
  cbn [length Nat.eqb].
  destruct (IndexByte_spec (b :: h) ",") as [[Hi Hnot]|(Hi & Hnot & Heq)].
  - rewrite Hi. cbn [Z.eqb negb]. split; [done|]. exists []. split; [by rewrite app_nil_r|by left].
  - destruct (Z.eqb_spec (utils.IndexByte (b :: h) ",") (-1)) as [|_]; [lia|].
    cbn [negb]. split; [done|]. eexists. split; [exact Heq|]. right. by eexists.
Qed.

(** * Passwords *)

Lemma index_in_range {A : Type} (s : list A) (i : Z) :
  0 ≤ i < Z.of_nat (length s) →
  ∃ c, utils.index s i = Return c ∧ s !! Z.to_nat i = Some c.
Proof.
  intros Hi. unfold utils.index. rewrite (proj2 (Z.ltb_ge _ _)) by lia.
  destruct (lookup_lt_is_Some_2 s (Z.to_nat i) ltac:(lia)) as [c Hc].
  rewrite Hc. by exists c.
Qed.

Lemma length_chars (s : string) : length (chars s) = String.length s.
Proof. induction s as [|c s IH]; [done|]. simpl. by rewrite IH. Qed.

Lemma swap_Permutation (b : list byte) (i : nat) (j : Z) :
  (i < length b)%nat → 0 ≤ j < Z.of_nat (length b) →
  ∃ b', utils.swap b i j = Return b' ∧ b' ≡ₚ b.
Proof.
  intros Hi Hj. unfold utils.swap.
  destruct (index_in_range b j Hj) as (bj & -> & Hbj).
  destruct (index_in_range b (Z.of_nat i) ltac:(lia)) as (bi & -> & Hbi).
  rewrite Nat2Z.id in Hbi. cbn [obind]. eexists. split; [reflexivity|].
  assert (Hk : (Z.to_nat j < length b)%nat) by lia.
  generalize dependent (Z.to_nat j). intros k Hbj Hk.
  apply Permutation_inj. split; [by rewrite !length_insert|].
  exists (λ x, if decide (x = i) then k else if decide (x = k) then i else x).
  split.
  - intros x y. repeat case_decide; congruence.
  - intros x. destruct (decide (x = k)) as [->|Hxk].
    + rewrite list_lookup_insert_eq by (by rewrite length_insert).
      by destruct (decide (k = i)) as [->|?].
    + rewrite list_lookup_insert_ne by done.
      destruct (decide (x = i)) as [->|Hxi].
      * by rewrite list_lookup_insert_eq.
      * by rewrite list_lookup_insert_ne.
Qed.

Lemma failing_not_all (randInt : nat → Z → option Z) :
  failing randInt → ¬ ∀ n max, 0 < max → is_Some (randInt n max).
Proof.
  intros (n & max & Hpos & Hnone) Hall. destruct (Hall n max Hpos) as [r Hr]. congruence.
Qed.

Lemma UnsafeBytes_chars (password : list ascii) :
  utils.UnsafeBytes (String.string_of_list_ascii password) = byte_of_ascii <$> password.
Proof.
  unfold utils.UnsafeBytes, String.list_byte_of_string.
  by rewrite String.list_ascii_of_string_of_list_ascii.
Qed.

Lemma chars_UnsafeString (b : list byte) :
  chars (utils.UnsafeString b) = ascii_of_byte <$> b.
Proof.
  unfold chars, utils.UnsafeString, String.string_of_list_byte.
  by rewrite String.list_ascii_of_string_of_list_ascii.
Qed.

(** The shuffled bytes, read as a string, are the characters that were
    written to the builder, in another order. *)
Lemma chars_shuffled (password : list ascii) (b : list byte) :
  b ≡ₚ utils.UnsafeBytes (String.string_of_list_ascii password) →
  chars (utils.UnsafeString b) ≡ₚ password.
Proof.
  intros Hperm. rewrite chars_UnsafeString, Hperm, UnsafeBytes_chars.
  rewrite <- list_fmap_compose.
  assert (Hid : (ascii_of_byte ∘ byte_of_ascii) <$> password = password); [|by rewrite Hid].
  clear. induction password as [|c password IH]; [done|].
  rewrite fmap_cons, IH. simpl. by rewrite ascii_of_byte_of_ascii.
Qed.

Section Random.
Variable available : Z.
Variable randInt : nat → Z → option Z.
Hypothesis Hhonest : honest randInt.

Lemma pickEach_spec (sets : list string) (password : list ascii) (n : nat) :
  Forall (λ set, set ≠ "") sets →
  ∃ res, utils.pickEach randInt sets password n = Return res
         ∧ match res with
           | None => failing randInt
           | Some (password', _) =>
               ∃ ext, password' = password ++ ext
                      ∧ Forall2 (λ c set, c ∈ chars set) ext sets
           end.
Proof.
  revert password n. induction sets as [|charset sets IH]; intros password n Hsets.
  - eexists. split; [reflexivity|]. exists []. by rewrite app_nil_r.
  - inversion Hsets as [|? ? Hne Hrest]; subst. cbn [utils.pickEach].
    assert (Hpos : 0 < Z.of_nat (String.length charset)) by (destruct charset; [done|simpl; lia]).
    destruct (randInt n (Z.of_nat (String.length charset))) as [r|] eqn:Hr.
    2:{ eexists. split; [reflexivity|]. by eexists _, _. }
    apply Hhonest in Hr; [|done].
    destruct (index_in_range (chars charset) r) as (c & Hc & Hlook).
    { by rewrite length_chars. }
    unfold chars in Hc. rewrite Hc. cbn [obind].
    destruct (IH (password ++ [c]) (S n) Hrest) as (res & Hres & Hspec).
    exists res. split; [done|]. destruct res as [[password' n']|]; [|done].
    destruct Hspec as (ext & -> & Hext). exists (c :: ext).
    split; [by rewrite <- app_assoc|]. constructor; [|done].
    by eapply list_elem_of_lookup_2.
Qed.

Lemma fill_spec (fuel : nat) (L : Z) (password : list ascii) (n : nat) :
  L ≤ Z.of_nat (length password) + Z.of_nat fuel →
  ∃ res, utils.fill randInt fuel L password n = Return res
         ∧ match res with
           | None => failing randInt
           | Some (password', _) =>
               ∃ ext, password' = password ++ ext
                      ∧ Forall (λ c, c ∈ chars utils.allChars) ext
                      ∧ Z.of_nat (length password')
                        = Z.max L (Z.of_nat (length password))
           end.
Proof.
  revert password n. induction fuel as [|fuel IH]; intros password n Hfuel.
  - eexists. split; [reflexivity|]. exists []. rewrite app_nil_r.
    split; [done|]. split; [done|]. lia.
  - cbn [utils.fill]. destruct (Z.ltb_spec (Z.of_nat (length password)) L) as [Hlt|Hge].
    2:{ eexists. split; [reflexivity|]. exists []. rewrite app_nil_r.
        split; [done|]. split; [done|]. lia. }
    destruct (randInt n (Z.of_nat (String.length utils.allChars))) as [r|] eqn:Hr.
    2:{ eexists. split; [reflexivity|]. eexists _, _. split; [|exact Hr]. reflexivity. }
    apply Hhonest in Hr; [|reflexivity].
    destruct (index_in_range (chars utils.allChars) r) as (c & Hc & Hlook).
    { by rewrite length_chars. }
    unfold chars in Hc. rewrite Hc. cbn [obind].
    destruct (IH (password ++ [c]) (S n)) as (res & Hres & Hspec).
    { rewrite length_app. simpl. lia. }
    exists res. split; [done|]. destruct res as [[password' n']|]; [|done].
    destruct Hspec as (ext & -> & Hext & Hlen). exists (c :: ext).
    split; [by rewrite <- app_assoc|]. split.
    + constructor; [|done]. by eapply list_elem_of_lookup_2.
    + rewrite Hlen, length_app. simpl. lia.
Qed.

Lemma shuffle_spec (i : nat) (b : list byte) (n : nat) :
  (i < length b ∨ i = 0)%nat →
  ∃ res, utils.shuffle randInt i b n = Return res
         ∧ match res with
           | None => failing randInt
           | Some b' => b' ≡ₚ b
           end.
Proof.
  revert b n. induction i as [|i IH]; intros b n Hi.
  - exists (Some b). split; reflexivity.
  - cbn [utils.shuffle].
    destruct (randInt n (Z.of_nat (S i) + 1)) as [j|] eqn:Hj.
    2:{ eexists. split; [reflexivity|]. eexists _, _. split; [|done]. lia. }
    apply Hhonest in Hj; [|lia].
    destruct (swap_Permutation b (S i) j) as (b' & -> & Hperm); [lia|lia|].
    cbn [obind].
    destruct (IH b' (S n)) as (res & Hres & Hspec).
    { left. rewrite (Permutation_length Hperm). lia. }
    exists res. split; [done|]. destruct res as [b''|]; [|done].
    by etrans.
Qed.

Lemma charSets_allChars (set : string) (c : ascii) :
  set ∈ utils.charSets → c ∈ chars set → c ∈ chars utils.allChars.
Proof.
  intros Hset Hc.
  assert (Hall : forallb (λ set, forallb (λ c, bool_decide (c ∈ chars utils.allChars))
                                   (chars set)) utils.charSets = true)
    by (vm_compute; reflexivity).
  rewrite forallb_forall in Hall. apply list_elem_of_In, Hall in Hset.
  rewrite forallb_forall in Hset. apply list_elem_of_In, Hset in Hc.
  by apply bool_decide_eq_true_1 in Hc.
Qed.

(** X22. From a random source that keeps the promise of [rand.Int],
    [GenerateRandomPassword] panics exactly when the buffer that
    [password.Grow] reserves cannot be allocated: when the length (12
    when fewer than 8 were asked for) is above [maxAlloc] or above the
    memory the runtime can get. Otherwise a password it returns has
    that length; all its characters are letters, digits or the listed
    special characters; and it has at least one lower-case letter, one
    upper-case letter, one digit and one special character. When it
    returns an error, a draw has failed and the string is empty; so
    when no draw fails it returns a password. *)
Theorem GenerateRandomPassword_spec (L : Z) :
  let n := if L <? 8 then 12 else L in
  match utils.GenerateRandomPassword available randInt L with
  | Return (pw, None) =>
      n ≤ Z.min utils.maxAlloc available
      ∧ Z.of_nat (String.length pw) = n
      ∧ (∀ c, c ∈ chars pw → c ∈ chars utils.allChars)
      ∧ (∀ set, set ∈ utils.charSets → ∃ c, c ∈ chars pw ∧ c ∈ chars set)
  | Return (pw, Some _) =>
      n ≤ Z.min utils.maxAlloc available
      ∧ pw = "" ∧ failing randInt ∧ ¬ ∀ n max, 0 < max → is_Some (randInt n max)
  | Panic _ => utils.maxAlloc < n ∨ available < n
  end.
Proof.
  unfold utils.GenerateRandomPassword.
  set (L' := if L <? 8 then 12 else L). cbv zeta.
  assert (HL' : 8 ≤ L') by (unfold L'; destruct (Z.ltb_spec L 8); lia).
  unfold utils.Grow, utils.MakeNoZero.
  rewrite (proj2 (Z.ltb_ge L' 0)), (proj2 (Z.ltb_lt 0 L')) by lia.
  destruct (Z.ltb_spec utils.maxAlloc L') as [|Hmax]; [by left|].
  destruct (Z.ltb_spec available L') as [|Havail]; [by right|].
  assert (Hfits : L' ≤ Z.min utils.maxAlloc available) by lia.
  cbn [obind].
  destruct (pickEach_spec utils.charSets [] 0%nat) as (res1 & -> & Hspec1).
  { unfold utils.charSets. by repeat constructor. }
  cbn [obind].
  destruct res1 as [[pw1 n1]|]; [|by split; [|split; [|split; [|apply failing_not_all]]]].
  destruct Hspec1 as (ext1 & -> & Hext1). rewrite app_nil_l.
  pose proof (Forall2_length _ _ _ Hext1) as Hlen1. cbn in Hlen1.
  destruct (fill_spec (Z.to_nat L') L' ext1 n1 ltac:(lia)) as (res2 & -> & Hspec2).
  cbn [obind].
  destruct res2 as [[pw2 n2]|]; [|by split; [|split; [|split; [|apply failing_not_all]]]].
  destruct Hspec2 as (ext2 & -> & Hext2 & Hlen2).
  set (pb := utils.UnsafeBytes (String.string_of_list_ascii (ext1 ++ ext2))).
  assert (Hpb : length pb = length (ext1 ++ ext2)).
  { unfold pb. by rewrite UnsafeBytes_chars, length_fmap. }
  destruct (shuffle_spec (length pb - 1) pb n2 ltac:(lia)) as (res3 & -> & Hspec3).
  cbn [obind].
  destruct res3 as [b|]; [|by split; [|split; [|split; [|apply failing_not_all]]]].
  apply chars_shuffled in Hspec3.
  split; [done|]. split; [|split].
  - rewrite <- length_chars, (Permutation_length Hspec3), Hlen2. lia.
  - intros c Hc. rewrite Hspec3 in Hc. apply elem_of_app in Hc as [Hc|Hc].
    + apply list_elem_of_lookup_1 in Hc as [i Hi].
      destruct (Forall2_lookup_l _ _ _ _ _ Hext1 Hi) as (set & Hset & Hin).
      apply (charSets_allChars set); [by eapply list_elem_of_lookup_2|done].
    + rewrite Forall_forall in Hext2. by apply Hext2.
  - intros set Hset. apply list_elem_of_lookup_1 in Hset as [i Hi].
    destruct (Forall2_lookup_r _ _ _ _ _ Hext1 Hi) as (c & Hc & Hin).
    exists c. split; [|done]. rewrite Hspec3. apply elem_of_app. left.
    by eapply list_elem_of_lookup_2.
Qed.

End Random.

(** * Files *)

Section Files.
Context `{utils.FileSystem}.

Lemma climb_S (k : nat) (dir : string) : climb (S k) dir = climb k (up dir).
Proof. unfold climb. by rewrite Nat.iter_succ_r. Qed.

Lemma nearest_step (name stop wd d : string) (k : nat) :
  nearest name stop wd d (S k)
  ↔ (∃ es, utils.ReadDir wd = (es, None) ∧ name ∉ es)
    ∧ wd ≠ stop ∧ (utils.GetAbsolutePath (utils.Join wd "..")).2 = None
    ∧ nearest name stop (up wd) d k.
Proof.
  unfold nearest. rewrite climb_S. split.
  - intros (Hd & Hes & Hbelow).
    destruct (Hbelow 0%nat ltac:(lia)) as (H0 & H1 & H2).
    do 3 (split; [done|]). do 2 (split; [done|]).
    intros i Hi. specialize (Hbelow (S i) ltac:(lia)). by rewrite climb_S in Hbelow.
  - intros (H0 & H1 & H2 & Hd & Hes & Hbelow). do 2 (split; [done|]).
    intros [|i] Hi; [done|]. rewrite climb_S. apply Hbelow. lia.
Qed.

Lemma findLoop_found (fuel : nat) (name stop wd d : string) :
  utils.findLoop fuel name stop wd = Some (utils.Passed d)
  ↔ ∃ k, (k < fuel)%nat ∧ nearest name stop wd d k.
Proof.
  revert wd. induction fuel as [|fuel IH]; intros wd.
  { simpl. split; [done|]. intros (k & ? & _). lia. }
  cbn [utils.findLoop].
  destruct (utils.ReadDir wd) as [es [e|]] eqn:Hread.
  { split; [done|]. intros ([|k] & _ & Hk).
    - destruct Hk as (-> & (es' & Hes' & _) & _). simpl in Hes'. congruence.
    - apply nearest_step in Hk as ((es' & Hes' & _) & _). congruence. }
  case_bool_decide as Hin.
  { split.
    - intros [= <-]. exists 0%nat. split; [lia|]. split; [done|]. split; [by exists es|].
      intros i Hi. lia.
    - intros ([|k] & _ & Hk).
      + by destruct Hk as (-> & _).
      + apply nearest_step in Hk as ((es' & Hes' & Hnot) & _). congruence. }
  case_bool_decide as Hstop.
  { split; [done|]. intros ([|k] & _ & Hk).
    - destruct Hk as (-> & (es' & Hes' & Hin') & _). simpl in Hes'. congruence.
    - by apply nearest_step in Hk as (_ & ? & _). }
  destruct (utils.GetAbsolutePath (utils.Join wd "..")) as [wd' [e|]] eqn:Hup.
  { split; [done|]. intros ([|k] & _ & Hk).
    - destruct Hk as (-> & (es' & Hes' & Hin') & _). simpl in Hes'. congruence.
    - apply nearest_step in Hk as (_ & _ & Herr & _). by rewrite Hup in Herr. }
  assert (Hwd' : up wd = wd') by (unfold up; by rewrite Hup).
  rewrite IH. split.
  - intros (k & Hk & Hnear). exists (S k). split; [lia|].
    apply nearest_step. split; [by exists es|]. split; [done|].
    split; [by rewrite Hup|]. by rewrite Hwd'.
  - intros ([|k] & Hk & Hnear).
    + destruct Hnear as (-> & (es' & Hes' & Hin') & _). simpl in Hes'. congruence.
    + apply nearest_step in Hnear as (_ & _ & _ & Hnear). rewrite Hwd' in Hnear.
      exists k. split; [lia|done].
Qed.

Lemma rootLoop_found (fuel : nat) (wd d : string) :
  utils.rootLoop fuel wd = Some (utils.Passed d)
  ↔ utils.findLoop fuel utils.gomod "/" wd = Some (utils.Passed d).
Proof.
  revert wd. induction fuel as [|fuel IH]; intros wd; [done|].
  cbn [utils.rootLoop utils.findLoop].
  destruct (utils.ReadDir wd) as [es [e|]]; [done|].
  case_bool_decide; [done|]. case_bool_decide; [done|].
  destruct (utils.GetAbsolutePath (utils.Join wd "..")) as [wd' [e|]]; [done|].
  apply IH.
Qed.

Lemma nearest_unique (name stop wd d d' : string) (k k' : nat) :
  nearest name stop wd d k → nearest name stop wd d' k' → k = k' ∧ d = d'.
Proof.
  intros (-> & (es & Hes & Hin) & Hbelow) (-> & (es' & Hes' & Hin') & Hbelow').
  destruct (Nat.lt_trichotomy k k') as [Hlt|[->|Hlt]]; [|done|].
  - destruct (Hbelow' k Hlt) as ((es0 & Hes0 & Hnot) & _). congruence.
  - destruct (Hbelow k' Hlt) as ((es0 & Hes0 & Hnot) & _). congruence.
Qed.

Lemma ProjectRootDir_uncached (fuel : nat) (cache cache' : gmap string string)
    (wd d : string) :
  utils.Getwd = (wd, None) → cache !! wd = None →
  utils.ProjectRootDir fuel cache = Some (utils.Passed d, cache')
  ↔ cache' = <[wd := d]> cache ∧ ∃ k, (k < fuel)%nat ∧ nearest utils.gomod "/" wd d k.
Proof.
  intros Hwd Hmiss. unfold utils.ProjectRootDir, utils.WorkingDir.
  rewrite Hwd, Hmiss. rewrite <- findLoop_found, <- rootLoop_found.
  destruct (utils.rootLoop fuel wd) as [[d0|msgs]|]; split;
    try done; try (by intros [_ ?]).
  - by intros [= -> <-].
  - by intros [-> [= ->]].
Qed.

(** X23. [ProjectRootDir], when the working directory is not in its
    cache, returns the first directory on the way up from the working
    directory that has an entry [go.mod], and no other: it returns [d]
    for some number of directories allowed exactly when [d] is that
    directory and every directory below it can be read, is not [/] and
    has a parent. It then records [d] for the working directory in the
    cache. *)
Theorem ProjectRootDir_nearest (cache : gmap string string) (wd d : string) :
  utils.Getwd = (wd, None) → cache !! wd = None →
  ((∃ fuel cache', utils.ProjectRootDir fuel cache = Some (utils.Passed d, cache'))
   ↔ ∃ k, nearest utils.gomod "/" wd d k)
  ∧ (∀ k, nearest utils.gomod "/" wd d k →
       ∀ fuel, (k < fuel)%nat →
         utils.ProjectRootDir fuel cache = Some (utils.Passed d, <[wd := d]> cache)).
Proof.
  intros Hwd Hmiss. split; [split|].
  - intros (fuel & cache' & Hres).
    apply (ProjectRootDir_uncached _ _ _ _ _ Hwd Hmiss) in Hres as (_ & k & _ & Hk).
    by exists k.
  - intros (k & Hk). exists (S k), (<[wd := d]> cache).
    apply (ProjectRootDir_uncached _ _ _ _ _ Hwd Hmiss). split; [done|].
    exists k. split; [lia|done].
  - intros k Hk fuel Hfuel.
    apply (ProjectRootDir_uncached _ _ _ _ _ Hwd Hmiss). split; [done|]. by exists k.
Qed.

(** X24. [FindFile] returns a directory, not the path of the file: the
    first directory on the way up from the working directory that has
    an entry of the given name, provided it lies no higher than the
    project root that [ProjectRootDir] returns. *)
Theorem FindFile_nearest (fuel : nat) (cache cache' : gmap string string)
    (fileName wd d : string) :
  utils.Getwd = (wd, None) →
  utils.FindFile fuel cache fileName = Some (utils.Passed d, cache')
  ↔ ∃ root k, utils.ProjectRootDir fuel cache = Some (utils.Passed root, cache')
              ∧ (k < fuel)%nat ∧ nearest fileName root wd d k.
Proof.
  intros Hwd. unfold utils.FindFile. unfold utils.WorkingDir at 1. rewrite Hwd.
  destruct (utils.ProjectRootDir fuel cache) as [[[root|msgs] cache0]|]; cycle 1.
  - split; [done|]. by intros (? & ? & ? & _).
  - split; [done|]. by intros (? & ? & ? & _).
  - split.
    + destruct (utils.findLoop fuel fileName root wd) as [r|] eqn:Hloop; [|done].
      intros [= -> <-]. apply findLoop_found in Hloop as (k & Hk & Hnear).
      by exists root, k.
    + intros (root' & k & [= <- <-] & Hk & Hnear).
      assert (Hloop : utils.findLoop fuel fileName root wd = Some (utils.Passed d))
        by (apply findLoop_found; by exists k).
      by rewrite Hloop.
Qed.

End Files.

(** X25. The cache of [ProjectRootDir] is never refreshed: once a call
    has returned a directory, every later call made from the same
    working directory returns that directory from the cache, whatever
    the file system has become. *)
Theorem ProjectRootDir_cached (fs fs' : utils.FileSystem) (fuel fuel' : nat)
    (cache cache' : gmap string string) (d : string) :
  @utils.ProjectRootDir fs fuel cache = Some (utils.Passed d, cache') →
  @utils.Getwd fs' = @utils.Getwd fs →
  @utils.ProjectRootDir fs' fuel' cache' = Some (utils.Passed d, cache').
Proof.
  unfold utils.ProjectRootDir, utils.WorkingDir. intros Hres ->.
  destruct (@utils.Getwd fs) as [wd [e|]]; [done|].
  destruct (cache !! wd) as [dir|] eqn:Hcache.
  - injection Hres as -> <-. by rewrite Hcache.
  - destruct (utils.rootLoop fuel wd) as [[d0|msgs]|]; [|done..].
    injection Hres as -> <-. by rewrite lookup_insert_eq.
Qed.

(** * What the decoders refuse *)

(** ** Bytes outside the base64 alphabet *)

Lemma strayByte_spec (c : ascii) :
  strayByte c = true →
  base64.decodeMapStd c = None ∧ base64.isNewline c = false ∧ Ascii.eqb c "=" = false.
Proof.
  unfold strayByte. intros [[H1 H2]%andb_true_iff H3]%andb_true_iff.
  apply bool_decide_eq_true_1 in H1. apply negb_true_iff in H2, H3. done.
Qed.

Lemma ContainsByte_cons_ne (a c : ascii) (t : string) :
  strings.ContainsByte (String a t) c = true → Ascii.eqb a c = false →
  strings.ContainsByte t c = true.
Proof. cbn [strings.ContainsByte]. intros Hc Ha. by rewrite Ha in Hc. Qed.

Lemma scan_stray (c : ascii) (s : string) (si : Z) (j : nat) (dbuf : list Z) :
  strayByte c = true → strings.ContainsByte s c = true →
  match base64.scan s si j dbuf with
  | base64.Full _ rest _ =>
      strings.ContainsByte rest c = true
      ∧ (String.length rest + (4 - j) ≤ String.length s)%nat
  | base64.AtEnd _ _ => False
  | base64.Illegal _ => True
  | base64.Pad _ _ rest _ => strings.ContainsByte rest c = true
  end.
Proof.
  intros Hc. destruct (strayByte_spec c Hc) as (Hmap & Hnl & Hpad).
  revert si j dbuf. induction s as [|a t IH]; intros si j dbuf Hin; [done|].
  cbn [base64.scan]. destruct (Nat.eqb_spec j 4) as [->|Hj].
  { split; [done|]. simpl. lia. }
  destruct (Ascii.eqb_spec a c) as [->|Hac].
  { rewrite Hmap, Hnl, Hpad. done. }
  assert (Hin' : strings.ContainsByte t c = true).
  { apply (ContainsByte_cons_ne a); [done|]. by apply Ascii.eqb_neq. }
  destruct (base64.decodeMapStd a).
  - specialize (IH (si + 1) (S j) (dbuf ++ [z]) Hin').
    destruct (base64.scan t (si + 1) (S j) (dbuf ++ [z])); try done.
    destruct IH as [? ?]. split; [done|]. cbn [String.length]. lia.
  - destruct (base64.isNewline a).
    + specialize (IH (si + 1) j dbuf Hin').
      destruct (base64.scan t (si + 1) j dbuf); try done.
      destruct IH as [? ?]. split; [done|]. cbn [String.length]. lia.
    + by destruct (negb (Ascii.eqb a "=")).
Qed.

Lemma skipNewlines_stray (c : ascii) (s : string) (si : Z) :
  strayByte c = true → strings.ContainsByte s c = true →
  strings.ContainsByte (base64.skipNewlines s si).1 c = true.
Proof.
  intros Hc. destruct (strayByte_spec c Hc) as (Hmap & Hnl & Hpad).
  revert si. induction s as [|a t IH]; intros si Hin; [done|].
  cbn [base64.skipNewlines]. destruct (base64.isNewline a) eqn:Ha; [|done].
  apply IH. apply (ContainsByte_cons_ne a); [done|].
  apply Ascii.eqb_neq. intros ->. congruence.
Qed.

Lemma decodeQuantum_stray (c : ascii) (s : string) (si : Z) :
  strayByte c = true → strings.ContainsByte s c = true →
  let '(rest, _, _, err) := base64.decodeQuantum s si in
  is_Some err
  ∨ (strings.ContainsByte rest c = true ∧ (String.length rest < String.length s)%nat).
Proof.
  intros Hc Hin. destruct (strayByte_spec c Hc) as (Hmap & Hnl & Hpad).
  unfold base64.decodeQuantum.
  pose proof (scan_stray c s si 0 [] Hc Hin) as Hscan.
  destruct (base64.scan s si 0 []) as [dbuf rest si'|j si'|si'|j dbuf rest si']; [|done| |].
  - right. destruct Hscan as [? ?]. split; [done|lia].
  - left. by eexists.
  - assert (Hfinish : ∀ rest0 si0, strings.ContainsByte rest0 c = true →
      let '(rest1, _, _, err) :=
        (let '(rest2, si2) := base64.skipNewlines rest0 si0 in
         (rest2, si2, base64.quantumBytes dbuf j,
          match rest2 with "" => None | String _ _ => Some si2 end)) in
      is_Some err ∨ (strings.ContainsByte rest1 c = true
                     ∧ (String.length rest1 < String.length s)%nat)).
    { intros rest0 si0 Hin0. pose proof (skipNewlines_stray c rest0 si0 Hc Hin0) as Hsk.
      destruct (base64.skipNewlines rest0 si0) as [rest2 si2]. simpl in Hsk.
      destruct rest2; [done|]. left. by eexists. }
    destruct j as [|[|[|j]]].
    + left. by eexists.
    + left. by eexists.
    + pose proof (skipNewlines_stray c rest si' Hc Hscan) as Hsk.
      destruct (base64.skipNewlines rest si') as [rest2 si2]. simpl in Hsk.
      destruct rest2 as [|a t]; [done|].
      destruct (Ascii.eqb_spec a "=") as [->|Hne]; cbn [negb].
      * apply Hfinish. apply (ContainsByte_cons_ne "="); [done|].
        apply Ascii.eqb_neq. intros <-. by rewrite Ascii.eqb_refl in Hpad.
      * left. by eexists.
    + by apply Hfinish.
Qed.

Lemma decodeLoop_stray (c : ascii) (fuel : nat) (s : string) (si : Z) (out : list byte) :
  strayByte c = true → strings.ContainsByte s c = true →
  (String.length s ≤ fuel)%nat →
  is_Some (base64.decodeLoop fuel s si out).2.
Proof.
  intros Hc. revert s si out. induction fuel as [|fuel IH]; intros s si out Hin Hfuel.
  { destruct s; [done|simpl in Hfuel; lia]. }
  destruct s as [|a t]; [done|]. cbn [base64.decodeLoop].
  pose proof (decodeQuantum_stray c (String a t) si Hc Hin) as Hq.
  destruct (base64.decodeQuantum (String a t) si) as [[[rest si'] written] [e|]].
  - by eexists.
  - destruct Hq as [[? [=]]|[Hrest Hlen]]. apply IH; [done|]. simpl in *. lia.
Qed.

(** X26. A key in base64 must be in the standard alphabet: when the
    text after [base64:] has a byte that is neither a letter, a digit,
    [+], [/], the padding [=] nor a newline, [ParseKey] returns an
    error. The [-] and [_] of the URL-safe alphabet, in which [Sign]
    writes signatures, are such bytes. *)
Theorem ParseKey_base64_alphabet (s : string) (c : ascii) :
  strayByte c = true → strings.ContainsByte s c = true →
  is_Some (utils.ParseKey (utils.Base64Prefix +:+ s)).2
  ∧ strayByte "-" = true ∧ strayByte "_" = true.
Proof.
  intros Hc Hin. split; [|done]. rewrite ParseKey_base64. cbn [snd].
  destruct (decodeLoop_stray c (String.length s) s 0 [] Hc Hin ltac:(lia)) as [e He].
  unfold base64.StdDecodeString. rewrite He. by eexists.
Qed.

(** ** Texts that are no decimal integers *)

Lemma isDigit_range (c : ascii) :
  time.isDigit c
  = (0 <=? Z.of_N (N_of_ascii c) - 48) && (Z.of_N (N_of_ascii c) - 48 <=? 9).
Proof.
  revert c.
  cut (∀ c, Bool.eqb (time.isDigit c)
              ((0 <=? Z.of_N (N_of_ascii c) - 48) && (Z.of_N (N_of_ascii c) - 48 <=? 9))
            = true).
  { intros Hall c. by apply Bool.eqb_prop. }
  by_enumeration.
Qed.

Lemma parseDigits_not_digits (s0 : string) (maxVal : Z) (s : string) (n : Z) :
  strings.all time.isDigit s = false →
  is_Some (strconv.parseDigits s0 maxVal s n).2.
Proof.
  revert n. induction s as [|c s IH]; intros n Hs; [done|].
  cbn [strconv.parseDigits]. rewrite <- isDigit_range.
  simpl in Hs. destruct (time.isDigit c); cbn [negb].
  - destruct (_ <=? n); [by eexists|]. destruct (_ || _); [by eexists|]. by apply IH.
  - by eexists.
Qed.

Lemma ParseUint_digitsValue (ds : string) (bitSize : Z) :
  0 ≤ bitSize ≤ 64 →
  match digitsValue ds with
  | Some v =>
      strconv.ParseUint ds bitSize
      = if v <? 2 ^ bitSize then (v, None)
        else (2 ^ bitSize - 1, Some (strconv.rangeError "ParseUint" ds))
  | None => ∃ e, (strconv.ParseUint ds bitSize).2 = Some e
                 ∧ (ds = "" → strconv.Err_ e = strconv.ErrSyntax)
  end.
Proof.
  intros Hb. unfold digitsValue. case_bool_decide as Hne; cbn [andb].
  - destruct (strings.all time.isDigit ds) eqn:Hds.
    + by apply ParseUint_digits.
    + unfold strconv.ParseUint. rewrite (bool_decide_eq_false_2 _ Hne).
      destruct (parseDigits_not_digits ds (2 ^ bitSize - 1) ds 0 Hds) as [e He].
      exists e. split; [done|]. by intros ->.
  - assert (ds = "") as -> by (by destruct (decide (ds = ""))).
    eexists. split; [reflexivity|done].
Qed.

Lemma parseDigits_error (s0 : string) (maxVal : Z) (s : string) (n v : Z)
    (e : strconv.NumError) :
  strconv.parseDigits s0 maxVal s n = (v, Some e) →
  strconv.Err_ e = strconv.ErrSyntax ∨ (strconv.Err_ e = strconv.ErrRange ∧ v = maxVal).
Proof.
  revert n. induction s as [|c s IH]; intros n; [done|].
  cbn [strconv.parseDigits]. destruct (negb _); [intros [= <- <-]; by left|].
  destruct (_ <=? n); [intros [= <- <-]; by right|].
  destruct (_ || _); [intros [= <- <-]; by right|]. apply IH.
Qed.

Lemma ParseUint_error (ds : string) (bitSize v : Z) (e : strconv.NumError) :
  strconv.ParseUint ds bitSize = (v, Some e) →
  strconv.Err_ e = strconv.ErrSyntax
  ∨ (strconv.Err_ e = strconv.ErrRange ∧ v = 2 ^ bitSize - 1).
Proof.
  unfold strconv.ParseUint. case_bool_decide; [intros [= <- <-]; by left|].
  apply parseDigits_error.
Qed.

(** [ParseInt] after the sign: [neg] says whether the sign was a minus,
    [ds] is what follows the sign. *)
Lemma ParseInt_signed (s ds : string) (neg : bool) (bitSize : Z) :
  2 ≤ bitSize ≤ 64 →
  let '(un, err) := strconv.ParseUint ds bitSize in
  let cutoff := 2 ^ (bitSize - 1) in
  let res : Z * option strconv.NumError :=
    match err with
    | Some {| strconv.Err_ := strconv.ErrSyntax |} =>
        (0, Some (strconv.syntaxError "ParseInt" s))
    | _ =>
        if negb neg && (cutoff <=? un) then (cutoff - 1, Some (strconv.rangeError "ParseInt" s))
        else if neg && (cutoff <? un) then (- cutoff, Some (strconv.rangeError "ParseInt" s))
        else (if neg then - un else un, None)
    end in
  match (if neg then Z.opp else id) <$> digitsValue ds with
  | Some n =>
      if (- 2 ^ (bitSize - 1) <=? n) && (n <? 2 ^ (bitSize - 1))
      then res = (n, None) else is_Some res.2
  | None => is_Some res.2
  end.
Proof.
  intros Hb.
  assert (Hpow : 2 ^ bitSize = 2 * 2 ^ (bitSize - 1)).
  { rewrite <- Z.pow_succ_r by lia. f_equal. lia. }
  assert (Hpos : 2 ≤ 2 ^ (bitSize - 1)).
  { change 2 with (2 ^ 1) at 1. apply Z.pow_le_mono_r; lia. }
  pose proof (ParseUint_digitsValue ds bitSize ltac:(lia)) as Hu.
  destruct (digitsValue ds) as [v|] eqn:Hv.
  - assert (Hv0 : 0 ≤ v).
    { unfold digitsValue in Hv. destruct (_ && _) eqn:Hc; [|done].
      apply andb_true_iff in Hc as [_ Hds]. injection Hv as <-.
      by apply atoiAcc_ge. }
    rewrite Hu. cbn [fmap option_fmap option_map].
    destruct (Z.ltb_spec v (2 ^ bitSize)) as [Hfit|Hbig].
    + destruct neg; cbn [negb andb id].
      * destruct (Z.ltb_spec (2 ^ (bitSize - 1)) v).
        -- rewrite (proj2 (Z.leb_gt _ _)) by lia. cbn [andb snd]. by eexists.
        -- rewrite (proj2 (Z.leb_le _ _)) by lia. rewrite (proj2 (Z.ltb_lt _ _)) by lia.
           done.
      * destruct (Z.leb_spec (2 ^ (bitSize - 1)) v).
        -- rewrite (proj2 (Z.ltb_ge _ _)) by lia. rewrite andb_false_r. cbn [snd].
           by eexists.
        -- rewrite (proj2 (Z.leb_le _ _)) by lia. rewrite (proj2 (Z.ltb_lt _ _)) by lia.
           done.
    + cbn [strconv.rangeError]. destruct neg; cbn [negb andb id].
      * rewrite (proj2 (Z.ltb_lt (2 ^ (bitSize - 1)) _)) by lia.
        rewrite (proj2 (Z.leb_gt _ _)) by lia. cbn [andb snd]. by eexists.
      * rewrite (proj2 (Z.leb_le (2 ^ (bitSize - 1)) _)) by lia.
        rewrite (proj2 (Z.ltb_ge _ _)) by lia. rewrite andb_false_r. cbn [snd]. by eexists.
  - destruct Hu as (e & He & _).
    destruct (strconv.ParseUint ds bitSize) as [un oerr] eqn:Hparse. simpl in He. subst oerr.
    cbn [fmap option_fmap option_map].
    destruct (ParseUint_error _ _ _ _ Hparse) as [Hsyn|[Hrange ->]].
    + destruct e as [f num []]; [by eexists|done].
    + destruct e as [f num []]; [done|]. destruct neg; cbn [negb andb].
      * rewrite (proj2 (Z.ltb_lt (2 ^ (bitSize - 1)) _)) by lia. by eexists.
      * rewrite (proj2 (Z.leb_le (2 ^ (bitSize - 1)) _)) by lia. by eexists.
Qed.

Lemma digitsValue_sign (c : ascii) (t : string) :
  Ascii.eqb c "+" || Ascii.eqb c "-" = true → digitsValue (String c t) = None.
Proof.
  intros Hc. unfold digitsValue. cbn [strings.all].
  destruct (time.isDigit c) eqn:Hd; [|by rewrite andb_false_r].
  apply isDigit_not_sign in Hd. congruence.
Qed.

Lemma ParseInt_decimal (s : string) (bitSize : Z) :
  2 ≤ bitSize ≤ 64 →
  match decimal s with
  | Some n =>
      if (- 2 ^ (bitSize - 1) <=? n) && (n <? 2 ^ (bitSize - 1))
      then strconv.ParseInt s bitSize = (n, None)
      else is_Some (strconv.ParseInt s bitSize).2
  | None => is_Some (strconv.ParseInt s bitSize).2
  end.
Proof.
  intros Hb. destruct s as [|c t]; [by eexists|].
  cbn [decimal strconv.ParseInt].
  destruct (Ascii.eqb_spec c "+") as [->|Hplus].
  { change (Ascii.eqb "+" "-") with false. cbn [orb].
    pose proof (ParseInt_signed (String "+" t) t false bitSize Hb) as Hs.
    destruct (strconv.ParseUint t bitSize) as [un err].
    cbn [id] in Hs. by destruct (digitsValue t). }
  destruct (Ascii.eqb_spec c "-") as [->|Hminus].
  { cbn [orb].
    pose proof (ParseInt_signed (String "-" t) t true bitSize Hb) as Hs.
    by destruct (strconv.ParseUint t bitSize) as [un err]. }
  cbn [orb].
  pose proof (ParseInt_signed (String c t) (String c t) false bitSize Hb) as Hs.
  destruct (strconv.ParseUint (String c t) bitSize) as [un err].
  cbn [id] in Hs. by destruct (digitsValue (String c t)).
Qed.

Section Accepts.
Context {P : Type} `{utils.EnvProvider P} `{strconv.Quoting}.

(** X27. [GetIntEnv] accepts exactly the texts made of an optional
    sign and at least one decimal digit whose value fits the type, and
    returns that value; on every other text of a set variable it
    panics. So leading zeros and a plus sign are accepted; the empty
    text, spaces, underscores and a base prefix are not. *)
Theorem GetIntEnv_accepts (bitSize : Z) (e : P) (key value : string) (d : Z) :
  2 ≤ bitSize ≤ 64 → utils.Get e key = (value, true) →
  match decimal value with
  | Some n =>
      if (- 2 ^ (bitSize - 1) <=? n) && (n <? 2 ^ (bitSize - 1))
      then utils.GetIntEnv bitSize e key d = Return n
      else panics (utils.GetIntEnv bitSize e key d)
  | None => panics (utils.GetIntEnv bitSize e key d)
  end.
Proof.
  intros Hb Hget. unfold utils.GetIntEnv. rewrite Hget. cbn [negb].
  pose proof (ParseInt_decimal value bitSize Hb) as Hparse.
  destruct (strconv.ParseInt value bitSize) as [v [err|]].
  - destruct (decimal value) as [n|]; [|done]. by destruct (_ && _).
  - destruct (decimal value) as [n|].
    + destruct (_ && _); [by injection Hparse as ->|]. by destruct Hparse.
    + by destruct Hparse.
Qed.

End Accepts.

(** * The further properties on test data *)

(** ** Keys *)

Lemma ParseKey_hex_roundtrip_witness :
  [xde; xad; xbe; xef] ≠ []
  ∧ utils.ParseKey (hex.EncodeToString [xde; xad; xbe; xef]) = ([xde; xad; xbe; xef], None).
Proof. split; [done|]. apply (ParseKey_hex_roundtrip [xde; xad; xbe; xef]). done. Defined.

(** The key of the README's examples: forty hexadecimal digits. *)
Definition readmeKey : string := "deadbeefcafebabe1234567890abcdef12345678".

Lemma ParseKey_hex_accepts_witness :
  readmeKey ≠ "" ∧ strings.HasPrefix readmeKey utils.Base64Prefix = false
  ∧ ((utils.ParseKey readmeKey).2 = None
     ↔ Nat.Even (String.length readmeKey) ∧ strings.all isHexDigit readmeKey = true)
  ∧ ((utils.ParseKey readmeKey).2 = None →
     (2 * length (utils.ParseKey readmeKey).1 = String.length readmeKey)%nat).
Proof.
  split; [done|]. split; [reflexivity|].
  apply (ParseKey_hex_accepts readmeKey); [done|reflexivity].
Defined.

(** The README builds a signer from that key: twenty bytes, with which
    [New] panics. *)
Lemma hex_key_New_witness :
  strings.HasPrefix readmeKey utils.Base64Prefix = false
  ∧ (utils.ParseKey readmeKey).2 = None
  ∧ panics (urlsigner.New (H0 := reference_digests) (λ _, 0) "sha256"
              (utils.ParseKey readmeKey).1 []).
Proof.
  split; [reflexivity|]. split; [reflexivity|].
  apply (hex_key_New (H := reference_digests) (λ _, 0) "sha256" readmeKey []);
    [reflexivity|reflexivity|].
  left. vm_compute. lia.
Defined.

(** ** Environment variables *)

(** [strconv.Quote] on ASCII text: the text between double quotes, with
    a backslash before a double quote and a backslash, the escapes of
    the control characters, and [\x] and two hexadecimal digits for the
    other ones. Bytes above 127 are left as they are. *)
Definition quoteByte (c : ascii) : string :=
  let n := utf8.code c in
  if n =? 34 then String "\" (String c "")
  else if n =? 92 then "\\"
  else if n =? 7 then "\a"
  else if n =? 8 then "\b"
  else if n =? 12 then "\f"
  else if n =? 10 then "\n"
  else if n =? 13 then "\r"
  else if n =? 9 then "\t"
  else if n =? 11 then "\v"
  else if (n <? 32) || (n =? 127)
  then "\x" +:+ String (hex.hextable (n / 16)) (String (hex.hextable (n mod 16)) "")
  else String c "".

Fixpoint quoteBytes (s : string) : string :=
  match s with
  | EmptyString => EmptyString
  | String c t => quoteByte c +:+ quoteBytes t
  end.

#[global] Instance ascii_quoting : strconv.Quoting :=
  {| strconv.Quote s := String "034" (quoteBytes s +:+ String "034" "") |}.

(** A map provider behind the prefix [APP_]. *)
Definition testEnv : utils.mapEnvProvider :=
  {| utils.prefix := "APP_";
     utils.env := {[ "APP_DB_PORT" := "5432"; "APP_EMPTY" := "";
                     "APP_ALLOWED_HOSTS" := "localhost,example.com";
                     "APP_SPACED" := " a , ,b"; "APP_RETRIES" := "+007" ]} |}.

Lemma GetIntEnv_decimal_witness :
  2 ≤ 16 ≤ 64 ∧ utils.Get testEnv "DB_PORT" = (strconv.FormatInt 5432, true)
  ∧ (- 2 ^ (16 - 1) ≤ 5432 < 2 ^ (16 - 1) →
     utils.GetIntEnv 16 testEnv "DB_PORT" 0 = Return 5432)
  ∧ (5432 < - 2 ^ (16 - 1) ∨ 2 ^ (16 - 1) ≤ 5432 →
     panics (utils.GetIntEnv 16 testEnv "DB_PORT" 0)).
Proof.
  split; [lia|]. split; [reflexivity|].
  apply (GetIntEnv_decimal 16 5432 testEnv "DB_PORT" 0); [lia|reflexivity].
Defined.

Lemma GetUintEnv_decimal_witness :
  1 ≤ 8 ≤ 64 ∧ utils.Get testEnv "DB_PORT" = (strconv.FormatInt 5432, true)
  ∧ (0 ≤ 5432 < 2 ^ 8 → utils.GetUintEnv 8 testEnv "DB_PORT" 0 = Return 5432)
  ∧ (5432 < 0 ∨ 2 ^ 8 ≤ 5432 → panics (utils.GetUintEnv 8 testEnv "DB_PORT" 0)).
Proof.
  split; [lia|]. split; [reflexivity|].
  apply (GetUintEnv_decimal 8 5432 testEnv "DB_PORT" 0); [lia|reflexivity].
Defined.

Lemma getters_unset_or_empty_witness :
  utils.Get testEnv "EMPTY" = ("", true)
  ∧ utils.GetEnv testEnv "EMPTY" "x" = "" ∧ utils.GetStringsEnv testEnv "EMPTY" ["x"] = []
  ∧ panics (utils.GetBoolEnv testEnv "EMPTY" true)
  ∧ panics (utils.GetIntEnv 64 testEnv "EMPTY" 1)
  ∧ panics (utils.GetUintEnv 64 testEnv "EMPTY" 1)
  ∧ utils.GetKeyEnv testEnv "EMPTY" [x01] = Return [x01].
Proof.
  split; [reflexivity|].
  apply (proj2 (getters_unset_or_empty testEnv "EMPTY" "" 64 "x" ["x"] true 1 [x01])).
  reflexivity.
Defined.

Lemma GetStringsEnv_roundtrip_witness :
  Forall word ["localhost"; "example.com"]
  ∧ utils.Get testEnv "ALLOWED_HOSTS" = (strings.Join ["localhost"; "example.com"] ",", true)
  ∧ utils.GetStringsEnv testEnv "ALLOWED_HOSTS" [] = ["localhost"; "example.com"].
Proof.
  assert (Hwords : Forall word ["localhost"; "example.com"]).
  { repeat constructor; try done. }
  split; [exact Hwords|]. split; [reflexivity|].
  apply (GetStringsEnv_roundtrip testEnv "ALLOWED_HOSTS" ["localhost"; "example.com"] []);
    [exact Hwords|reflexivity].
Defined.

Lemma GetStringsEnv_elements_witness :
  utils.Get testEnv "SPACED" = (" a , ,b", true)
  ∧ "a" ∈ utils.GetStringsEnv testEnv "SPACED" []
  ∧ "a" ≠ "" ∧ strings.ContainsByte "a" "," = false.
Proof.
  assert (Hin : "a" ∈ utils.GetStringsEnv testEnv "SPACED" []).
  { assert (Heq : utils.GetStringsEnv testEnv "SPACED" [] = ["a"; "b"]) by reflexivity.
    rewrite Heq. by left. }
  split; [reflexivity|]. split; [exact Hin|].
  apply (GetStringsEnv_elements testEnv "SPACED" " a , ,b" "a" []); [reflexivity|exact Hin].
Defined.

Lemma mapEnv_Set_Get_witness :
  ∃ p', utils.Set_ testEnv "DEBUG" "true" = Return p'
        ∧ utils.prefix p' = utils.prefix testEnv
        ∧ utils.Get p' "DEBUG" = ("true", true)
        ∧ (∀ d, utils.GetEnv p' "DEBUG" d = "true")
        ∧ (∀ key', key' ≠ "DEBUG" → utils.Get p' key' = utils.Get testEnv key').
Proof. apply (mapEnv_Set_Get testEnv "DEBUG" "true"). Defined.

Lemma GetKeyEnv_Set_witness :
  [xde; xad] ≠ []
  ∧ ∃ p', utils.Set_ testEnv "KEY" (hex.EncodeToString [xde; xad]) = Return p'
          ∧ utils.GetKeyEnv p' "KEY" [] = Return [xde; xad].
Proof.
  split; [done|].
  apply (proj1 (GetKeyEnv_Set testEnv "KEY" [xde; xad] [])). done.
Defined.

(** ** Passwords *)

(** A random source that counts: its [n]-th draw is [n] modulo the
    bound. *)
Definition counting (n : nat) (max : Z) : option Z := Some (Z.of_nat n mod max).

Lemma counting_honest : honest counting.
Proof. intros n max r Hmax [= <-]. by apply Z.mod_pos_bound. Qed.

Lemma GenerateRandomPassword_spec_witness :
  honest counting
  ∧ utils.GenerateRandomPassword (2 ^ 30) counting 16 = Return ("B$mhljnpfokige2a", None)
  ∧ 16 ≤ Z.min utils.maxAlloc (2 ^ 30)
  ∧ Z.of_nat (String.length "B$mhljnpfokige2a") = 16
  ∧ (∀ c, c ∈ chars "B$mhljnpfokige2a" → c ∈ chars utils.allChars)
  ∧ (∀ set, set ∈ utils.charSets → ∃ c, c ∈ chars "B$mhljnpfokige2a" ∧ c ∈ chars set).
Proof.
  split; [exact counting_honest|].
  assert (Hrun : utils.GenerateRandomPassword (2 ^ 30) counting 16
                 = Return ("B$mhljnpfokige2a", None)) by (vm_compute; reflexivity).
  split; [exact Hrun|].
  pose proof (GenerateRandomPassword_spec (2 ^ 30) counting counting_honest 16) as Hspec.
  cbv zeta in Hspec. rewrite Hrun in Hspec. exact Hspec.
Defined.

(** ** Files *)

(** A file system of three directories: [/], [/repo] with the module
    file, and the working directory [/repo/pkg]. *)
Definition entriesOf (dir : string) : list string * option string :=
  if bool_decide (dir = "/repo/pkg") then (["a.go"; "a_test.go"], None)
  else if bool_decide (dir = "/repo") then ([".env"; "go.mod"; "pkg"], None)
  else if bool_decide (dir = "/") then (["repo"], None)
  else ([], Some ("open " +:+ dir +:+ ": no such file or directory")).

Definition parentOf (dir : string) : string :=
  if bool_decide (dir = "/repo/pkg") then "/repo" else "/".

#[global] Instance repo_fs : utils.FileSystem :=
  {| utils.Getwd := ("/repo/pkg", None);
     utils.ReadDir := entriesOf;
     utils.Join := λ dir _, parentOf dir;
     utils.IsAbs := λ path, strings.HasPrefix path "/";
     utils.Abs := λ path, ("/repo/pkg/" +:+ path, None) |}.

(** The same working directory in a file system where nothing can be
    read. *)
Definition gone_fs : utils.FileSystem :=
  {| utils.Getwd := ("/repo/pkg", None);
     utils.ReadDir := λ dir, ([], Some ("open " +:+ dir +:+ ": no such file or directory"));
     utils.Join := λ dir _, parentOf dir;
     utils.IsAbs := λ path, strings.HasPrefix path "/";
     utils.Abs := λ path, ("/repo/pkg/" +:+ path, None) |}.

Lemma repo_nearest (name : string) (stop : string) :
  name ∈ [".env"; "go.mod"; "pkg"] → name ∉ ["a.go"; "a_test.go"] → stop ≠ "/repo/pkg" →
  nearest name stop "/repo/pkg" "/repo" 1.
Proof.
  intros Hin Hnot Hstop. split; [reflexivity|]. split.
  - eexists. split; [reflexivity|exact Hin].
  - intros i Hi. assert (i = 0%nat) as -> by lia. split; [|split].
    + eexists. split; [reflexivity|exact Hnot].
    + cbn. congruence.
    + reflexivity.
Qed.

Lemma ProjectRootDir_nearest_witness :
  utils.Getwd = ("/repo/pkg", None) ∧ (∅ : gmap string string) !! "/repo/pkg" = None
  ∧ nearest utils.gomod "/" "/repo/pkg" "/repo" 1
  ∧ utils.ProjectRootDir 2 ∅ = Some (utils.Passed "/repo", {[ "/repo/pkg" := "/repo" ]}).
Proof.
  assert (Hnear : nearest utils.gomod "/" "/repo/pkg" "/repo" 1).
  { apply repo_nearest; [by right; left| |done].
    rewrite !not_elem_of_cons. repeat split; try discriminate. apply not_elem_of_nil. }
  assert (Hwd : utils.Getwd = ("/repo/pkg", None)) by reflexivity.
  assert (Hmiss : (∅ : gmap string string) !! "/repo/pkg" = None) by reflexivity.
  split; [exact Hwd|]. split; [exact Hmiss|]. split; [exact Hnear|].
  apply (proj2 (ProjectRootDir_nearest ∅ "/repo/pkg" "/repo" Hwd Hmiss) 1%nat Hnear 2%nat).
  lia.
Defined.

Lemma FindFile_nearest_witness :
  utils.Getwd = ("/repo/pkg", None)
  ∧ (utils.FindFile 2 ∅ ".env" = Some (utils.Passed "/repo", {[ "/repo/pkg" := "/repo" ]})
     ↔ ∃ root k, utils.ProjectRootDir 2 ∅
                 = Some (utils.Passed root, {[ "/repo/pkg" := "/repo" ]})
                 ∧ (k < 2)%nat ∧ nearest ".env" root "/repo/pkg" "/repo" k).
Proof.
  split; [reflexivity|].
  apply (FindFile_nearest 2 ∅ {[ "/repo/pkg" := "/repo" ]} ".env" "/repo/pkg" "/repo").
  reflexivity.
Defined.

Lemma ProjectRootDir_cached_witness :
  @utils.ProjectRootDir repo_fs 2 ∅ = Some (utils.Passed "/repo", {[ "/repo/pkg" := "/repo" ]})
  ∧ @utils.Getwd gone_fs = @utils.Getwd repo_fs
  ∧ @utils.ProjectRootDir gone_fs 0 {[ "/repo/pkg" := "/repo" ]}
    = Some (utils.Passed "/repo", {[ "/repo/pkg" := "/repo" ]}).
Proof.
  assert (Hfirst : @utils.ProjectRootDir repo_fs 2 ∅
                   = Some (utils.Passed "/repo", {[ "/repo/pkg" := "/repo" ]}))
    by reflexivity.
  split; [exact Hfirst|]. split; [reflexivity|].
  apply (ProjectRootDir_cached repo_fs gone_fs 2 0 ∅ _ "/repo" Hfirst). reflexivity.
Defined.

Lemma ParseKey_base64_alphabet_witness :
  strayByte "_" = true ∧ strings.ContainsByte "3q2-7_8=" "_" = true
  ∧ is_Some (utils.ParseKey "base64:3q2-7_8=").2.
Proof.
  split; [reflexivity|]. split; [reflexivity|].
  apply (ParseKey_base64_alphabet "3q2-7_8=" "_"); reflexivity.
Defined.

Lemma GetIntEnv_accepts_witness :
  2 ≤ 8 ≤ 64 ∧ utils.Get testEnv "RETRIES" = ("+007", true)
  ∧ utils.GetIntEnv 8 testEnv "RETRIES" 3 = Return 7.
Proof.
  split; [lia|]. split; [reflexivity|].
  apply (GetIntEnv_accepts 8 testEnv "RETRIES" "+007" 3); [lia|reflexivity].
Defined.
